(** * Adjustment loading and adjusted-array windows of zipline

    A shallow embedding of [load_adjustments_from_sqlite] and its helpers
    ([_get_sids_from_table], [_adjustments], [_lookup_dt]) from the Cython
    adjustment loader, together with a model of the window engine that the
    three [AdjustedArrayWindow] specialisations include.

    Conventions.
    - Python and C integers are [Z]; a value assigned to a [cdef int] goes
      through [to_c_int], which raises [OverflowError] outside the C range.
    - The date axis is given in whole seconds since the epoch, which is what
      both [timedelta_to_integral_seconds(dates[i] - EPOCH)] and the
      [datetime64[s]] view of the axis hold for it.
    - Sids bound to a query as [str(a)] are kept as the integers they print.
    - [float64_t] is Rocq's primitive binary64 [float].
    - Python dicts are [gmap]s, Python sets are [gset]s, lists are lists.
    - A call either returns, raises, or does not terminate: [outcome]. *)

From Stdlib Require Import ZArith Floats.PrimFloat.
From stdpp Require Import gmap strings list fin_maps sorting.

Local Open Scope Z_scope.

(** ** Outcomes of a call *)

Inductive exn : Type :=
  | ValueError
  | IndexError
  | OverflowError
  | KeyError
  | TypeError
  | ZeroDivisionError
  | LookupError
  | OrderingError.

Inductive outcome (A : Type) : Type :=
  | Returns (a : A)
  | Raises (e : exn)
  | Diverges.

Arguments Returns {A} a.
Arguments Raises {A} e.
Arguments Diverges {A}.

Definition bind {A B : Type} (c : outcome A) (k : A → outcome B) : outcome B :=
  match c with
  | Returns a => k a
  | Raises e => Raises e
  | Diverges => Diverges
  end.

Notation "'let*' x ':=' c 'in' k" := (bind c (fun x => k))
  (at level 10, x pattern, c at level 100, k at level 200).

(** A [for] loop whose body may raise: the loop stops at the first exception. *)
Fixpoint for_each {S A : Type} (body : S → A → outcome S) (items : list A) (s : S)
  : outcome S :=
  match items with
  | [] => Returns s
  | x :: rest => let* s' := body s x in for_each body rest s'
  end.

(** ** Data model *)

(** One row [(sid, ratio, effective_date)] of an adjustment table, with the
    types the loops unpack it into: [int64_t], [float64_t] and [int]. A row
    whose ratio is stored as NULL, which does not unpack into a
    [float64_t], is outside this model. *)
Record adjustment_row : Type := AdjustmentRow {
  sid : Z;
  ratio : float;
  effective_date : Z
}.

Inductive table_name : Type := Splits | Mergers | Dividends.

(** The adjustment store: three tables, each a sequence of rows in storage
    order. *)
Record adjustments_db : Type := AdjustmentsDb {
  db_splits : list adjustment_row;
  db_mergers : list adjustment_row;
  db_dividends : list adjustment_row
}.

Definition table (db : adjustments_db) (t : table_name) : list adjustment_row :=
  match t with
  | Splits => db_splits db
  | Mergers => db_mergers db
  | Dividends => db_dividends db
  end.

(** [Float64Multiply(first_row, last_row, first_col, last_col, value)]: the
    constructor of [zipline.lib.adjustment] takes the two row corners, the two
    column corners and the multiplier, in this order. *)
Record Float64Multiply : Type := mkFloat64Multiply {
  first_row : Z;
  last_row : Z;
  first_col : Z;
  last_col : Z;
  value : float
}.

(** ** C integers *)

Definition INT_MIN : Z := - 2 ^ 31.
Definition INT_MAX : Z := 2 ^ 31 - 1.

Definition c_int_range (z : Z) : Prop := INT_MIN ≤ z ≤ INT_MAX.

Definition to_c_int (z : Z) : outcome Z :=
  if decide (c_int_range z) then Returns z else Raises OverflowError.

(** ** The two queries *)

Definition in_range (start_date end_date : Z) (r : adjustment_row) : Prop :=
  start_date ≤ effective_date r ∧ effective_date r ≤ end_date.

(** [SELECT DISTINCT sid FROM t WHERE effective_date >= ? AND effective_date <= ?],
    collected into a set. *)
Definition _get_sids_from_table (db : adjustments_db) (tablename : table_name)
    (start_date end_date : Z) : gset Z :=
  list_to_set (sid <$> filter (in_range start_date end_date) (table db tablename)).

Definition _get_split_sids (db : adjustments_db) (start_date end_date : Z) : gset Z :=
  _get_sids_from_table db Splits start_date end_date.

Definition _get_merger_sids (db : adjustments_db) (start_date end_date : Z) : gset Z :=
  _get_sids_from_table db Mergers start_date end_date.

Definition _get_dividend_sids (db : adjustments_db) (start_date end_date : Z) : gset Z :=
  _get_sids_from_table db Dividends start_date end_date.

(** [ADJ_QUERY_TEMPLATE]: the rows of a table whose sid is among the bound
    parameters and whose effective date lies in the inclusive range, read in
    storage order. *)
Definition ADJ_QUERY (rows : list adjustment_row) (params : list Z)
    (start_date end_date : Z) : list adjustment_row :=
  filter (λ r, sid r ∈ params ∧ in_range start_date end_date r) rows.

(** ** Index lookups *)

(** [ndarray.searchsorted(key, side='right')] for one key: numpy's binary
    search, which keeps [lo, hi) and moves [lo] past every probed entry that
    is not greater than the key. Each round shrinks the interval, so
    [hi - lo] rounds of fuel finish the search. *)
Fixpoint bisect_right (fuel : nat) (a : list Z) (key : Z) (lo hi : nat) : nat :=
  match fuel with
  | O => lo
  | S fuel' =>
    if decide (lo < hi)%nat then
      let mid := (lo + (hi - lo) / 2)%nat in
      if decide (a !!! mid ≤ key)
      then bisect_right fuel' a key (mid + 1)%nat hi
      else bisect_right fuel' a key lo mid
    else lo
  end.

Definition searchsorted_right (a : list Z) (key : Z) : Z :=
  Z.of_nat (bisect_right (length a) a key 0%nat (length a)).

(** [_lookup_dt]: returns the row and the (possibly extended) cache. *)
Definition _lookup_dt (dt_cache : gmap Z Z) (dt : Z) (fallback : list Z)
  : Z * gmap Z Z :=
  match dt_cache !! dt with
  | Some row => (row, dt_cache)
  | None =>
    let row := searchsorted_right fallback dt in
    (row, <[dt := row]> dt_cache)
  end.

(** The loop [for i, dt in enumerate(_dates_seconds): date_ixs[dt] = i];
    [dt] is a [cdef int]. *)
Fixpoint populate_date_ixs (i : Z) (dates_seconds : list Z) (date_ixs : gmap Z Z)
  : outcome (gmap Z Z) :=
  match dates_seconds with
  | [] => Returns date_ixs
  | d :: rest =>
    let* dt := to_c_int d in
    populate_date_ixs (i + 1) rest (<[dt := i]> date_ixs)
  end.

(** Positions of [key] in an index, counted from [i]. *)
Fixpoint positions (key : Z) (index : list Z) (i : Z) : list Z :=
  match index with
  | [] => []
  | a :: rest =>
    if decide (a = key) then i :: positions key rest (i + 1)
    else positions key rest (i + 1)
  end.

(** [assets.get_loc(sid)] assigned to a [Py_ssize_t]: pandas raises
    [KeyError] for an absent label and returns a slice or a mask, which is
    not an integer, for a repeated one. *)
Definition get_loc (assets : list Z) (key : Z) : outcome Z :=
  match positions key assets 0 with
  | [] => Raises KeyError
  | [i] => Returns i
  | _ :: _ :: _ => Raises TypeError
  end.

(** The cached column lookup
    [if not PyDict_Contains(asset_ixs, sid): asset_ixs[sid] = assets.get_loc(sid)]
    followed by [asset_ix = asset_ixs[sid]]. *)
Definition lookup_asset (asset_ixs : gmap Z Z) (assets : list Z) (key : Z)
  : outcome (Z * gmap Z Z) :=
  match asset_ixs !! key with
  | Some ix => Returns (ix, asset_ixs)
  | None =>
    let* ix := get_loc assets key in
    Returns (ix, <[key := ix]> asset_ixs)
  end.

(** [d.setdefault(k, []).append(x)]. *)
Definition setdefault_append (d : gmap Z (list Float64Multiply)) (k : Z)
    (x : Float64Multiply) : gmap Z (list Float64Multiply) :=
  <[k := default [] (d !! k) ++ [x]]> d.

(** [1.0 / ratio] on C doubles; Cython checks the divisor (cdivision is off). *)
Definition inverse_ratio (r : float) : outcome float :=
  if PrimFloat.eqb r 0%float then Raises ZeroDivisionError
  else Returns (1 / r)%float.

(** The dictionaries that [load_adjustments_from_sqlite] mutates. *)
Record loader_state : Type := LoaderState {
  price_adjustments : gmap Z (list Float64Multiply);
  volume_adjustments : gmap Z (list Float64Multiply);
  asset_ixs : gmap Z Z;
  date_ixs : gmap Z Z
}.

Section assembler.

Variables (dates_seconds assets : list Z) (start_date : Z).
Variables (should_include_price_adjustments should_include_volume_adjustments : bool).

(** Body of [for sid, ratio, eff_date in splits]. *)
Definition split_body (st : loader_state) (r : adjustment_row) : outcome loader_state :=
  if decide (effective_date r < start_date) then Returns st
  else
    let '(date_loc, date_ixs') := _lookup_dt (date_ixs st) (effective_date r) dates_seconds in
    let* (asset_ix, asset_ixs') := lookup_asset (asset_ixs st) assets (sid r) in
    let price' :=
      if should_include_price_adjustments
      then setdefault_append (price_adjustments st) date_loc
             (mkFloat64Multiply 0 date_loc asset_ix asset_ix (ratio r))
      else price_adjustments st in
    let* volume' :=
      if should_include_volume_adjustments
      then let* inv := inverse_ratio (ratio r) in
           Returns (setdefault_append (volume_adjustments st) date_loc
                      (mkFloat64Multiply 0 date_loc asset_ix asset_ix inv))
      else Returns (volume_adjustments st) in
    Returns (LoaderState price' volume' asset_ixs' date_ixs').

(** Body of [for sid, ratio, eff_date in chain(mergers, dividends)]. *)
Definition merger_dividend_body (st : loader_state) (r : adjustment_row)
  : outcome loader_state :=
  if decide (effective_date r < start_date) then Returns st
  else
    let '(date_loc, date_ixs') := _lookup_dt (date_ixs st) (effective_date r) dates_seconds in
    let* (asset_ix, asset_ixs') := lookup_asset (asset_ixs st) assets (sid r) in
    let price' :=
      setdefault_append (price_adjustments st) date_loc
        (mkFloat64Multiply 0 date_loc asset_ix asset_ix (ratio r)) in
    Returns (LoaderState price' (volume_adjustments st) asset_ixs' date_ixs').

(** Everything after the call to [_adjustments]: populate the date cache,
    run the two loops, build the result dictionary. *)
Definition assemble (splits mergers dividends : list adjustment_row)
  : outcome (gmap string (gmap Z (list Float64Multiply))) :=
  let* date_ixs0 := populate_date_ixs 0 dates_seconds ∅ in
  let st0 := LoaderState ∅ ∅ ∅ date_ixs0 in
  let* st1 := for_each split_body splits st0 in
  let* st2 := for_each merger_dividend_body (mergers ++ dividends) st1 in
  let result : gmap string (gmap Z (list Float64Multiply)) := ∅ in
  let result :=
    if should_include_price_adjustments
    then <["price" := price_adjustments st2]> result else result in
  let result :=
    if should_include_volume_adjustments
    then <["volume" := volume_adjustments st2]> result else result in
  Returns result.

End assembler.

Section loader.

(** The limit on bound parameters, imported from the asset writer. *)
Variable SQLITE_MAX_IN_STATEMENT : nat.

(** The [while ..._to_query:] loop that [_adjustments] runs once per table.
    [executed] records the parameter list of every [c.execute] call, in
    order; [results] accumulates [c.fetchall()]. *)
Fixpoint chunked_fetch (fuel : nat) (rows : list adjustment_row)
    (start_date end_date : Z) (to_query : list Z)
    (executed : list (list Z)) (results : list adjustment_row)
  : outcome (list (list Z) * list adjustment_row) :=
  match to_query with
  | [] => Returns (executed, results)
  | _ :: _ =>
    match fuel with
    | O => Diverges
    | S fuel' =>
      let query_len := (length to_query `min` SQLITE_MAX_IN_STATEMENT)%nat in
      let query_assets := take query_len to_query in
      let fetched := ADJ_QUERY rows query_assets start_date end_date in
      chunked_fetch fuel' rows start_date end_date (drop query_len to_query)
        (executed ++ [query_assets]) (results ++ fetched)
    end
  end.

(** One of the three blocks of [_adjustments]: filter the asset axis by the
    resolved sids, then fetch in chunks. *)
Definition fetch_table (db : adjustments_db) (t : table_name) (sids : gset Z)
    (start_date end_date : Z) (assets : list Z) : outcome (list adjustment_row) :=
  let to_query := filter (λ a, a ∈ sids) assets in
  let* r := chunked_fetch (length to_query) (table db t) start_date end_date
              to_query [] [] in
  Returns r.2.

Definition _adjustments (db : adjustments_db)
    (split_sids merger_sids dividends_sids : gset Z)
    (start_date end_date : Z) (assets : list Z)
  : outcome (list adjustment_row * list adjustment_row * list adjustment_row) :=
  let* splits_results := fetch_table db Splits split_sids start_date end_date assets in
  let* mergers_results := fetch_table db Mergers merger_sids start_date end_date assets in
  let* dividends_results :=
    fetch_table db Dividends dividends_sids start_date end_date assets in
  Returns (splits_results, mergers_results, dividends_results).

Definition load_adjustments_from_sqlite (adjustments_db : adjustments_db)
    (dates assets : list Z)
    (should_include_splits should_include_mergers should_include_dividends : bool)
    (adjustment_type : string)
  : outcome (gmap string (gmap Z (list Float64Multiply))) :=
  if negb (bool_decide (adjustment_type = "price")
           || bool_decide (adjustment_type = "volume")
           || bool_decide (adjustment_type = "all"))
  then Raises ValueError
  else
    let should_include_price_adjustments :=
      bool_decide (adjustment_type = "all") || bool_decide (adjustment_type = "price") in
    let should_include_volume_adjustments :=
      bool_decide (adjustment_type = "all") || bool_decide (adjustment_type = "volume") in
    let should_include_mergers :=
      if negb should_include_price_adjustments then false else should_include_mergers in
    let should_include_dividends :=
      if negb should_include_price_adjustments then false else should_include_dividends in
    let* first_date := from_option Returns (Raises IndexError) (head dates) in
    let* start_date := to_c_int first_date in
    let* last_date := from_option Returns (Raises IndexError) (last dates) in
    let* end_date := to_c_int last_date in
    let split_sids :=
      if should_include_splits
      then _get_split_sids adjustments_db start_date end_date else ∅ in
    let merger_sids :=
      if should_include_mergers
      then _get_merger_sids adjustments_db start_date end_date else ∅ in
    let dividend_sids :=
      if should_include_dividends
      then _get_dividend_sids adjustments_db start_date end_date else ∅ in
    let* (splits, mergers, dividends) :=
      _adjustments adjustments_db split_sids merger_sids dividend_sids
        start_date end_date assets in
    assemble dates assets start_date
      should_include_price_adjustments should_include_volume_adjustments
      splits mergers dividends.

End loader.

(** ** The window engine *)

Section window.

(** Element type of the buffer and its multiplicative correction. *)
Variables (E : Type) (mul : E → float → E).

(** Modelled from the spec: the window state of [_windowtemplate.pxi], which
    the three specialisations include and which is not among the sources:
    the baseline buffer, the correction schedule, the cursor, the window
    length, and the cached view with the cursor it was built for. *)
Record window_state : Type := WindowState {
  baseline : list (list E);
  schedule : gmap Z (list Float64Multiply);
  cursor : Z;
  window_length : Z;
  cached_view : option (Z * list (list E))
}.

(** Modelled from the spec: applying one correction multiplies every cell of
    its rectangle, corners included, by its value. *)
Definition apply_correction (adj : Float64Multiply) (buf : list (list E))
  : list (list E) :=
  imap (λ i cells,
    imap (λ j x,
      if decide (first_row adj ≤ Z.of_nat i ≤ last_row adj
                 ∧ first_col adj ≤ Z.of_nat j ≤ last_col adj)
      then mul x (value adj) else x) cells) buf.

(** Modelled from the spec: the corrections of every scheduled row in
    (previous cursor, row], bucket by bucket, each bucket in its own order. *)
Definition pending (sched : gmap Z (list Float64Multiply)) (prev row : Z)
  : list Float64Multiply :=
  concat ((λ k, default [] (sched !! k)) <$> seqZ (prev + 1) (row - prev)).

Definition apply_pending (sched : gmap Z (list Float64Multiply)) (prev row : Z)
    (buf : list (list E)) : list (list E) :=
  foldl (λ b adj, apply_correction adj b) buf (pending sched prev row).

(** Modelled from the spec: the window of [window_length] rows that ends at
    [row]. *)
Definition view_at (buf : list (list E)) (wl row : Z) : list (list E) :=
  take (Z.to_nat wl) (drop (Z.to_nat (row - wl + 1)) buf).

(** Modelled from the spec: the recomputation step of [advance_to]. The row
    must leave room for a whole window inside the buffer; the pending
    corrections are applied to the baseline in place, the window slides to
    end at [row], and the new view is cached. *)
Definition materialize (w : window_state) (row : Z)
  : outcome (list (list E) * window_state) :=
  if decide (row - window_length w + 1 < 0 ∨ Z.of_nat (length (baseline w)) ≤ row)
  then Raises LookupError
  else
    let buf := apply_pending (schedule w) (cursor w) row (baseline w) in
    let view := view_at buf (window_length w) row in
    Returns (view, WindowState buf (schedule w) row (window_length w)
                     (Some (row, view))).

(** Modelled from the spec: [advance_to(row)] of [_windowtemplate.pxi].
    A row before the cursor is an ordering error; a row equal to the cursor
    of the cached view returns that view unchanged; any other row is
    materialised. *)
Definition advance_to (w : window_state) (row : Z)
  : outcome (list (list E) * window_state) :=
  if decide (row < cursor w) then Raises OrderingError
  else
    match cached_view w with
    | Some (at_row, view) =>
      if decide (at_row = row) then Returns (view, w) else materialize w row
    | None => materialize w row
    end.

End window.

(** ** Specification-side notions *)

(** Number of axis entries not greater than, and strictly less than, a key. *)
Definition count_le (a : list Z) (key : Z) : nat :=
  length (filter (λ x, x ≤ key) a).

Definition count_lt (a : list Z) (key : Z) : nat :=
  length (filter (λ x, x < key) a).

(** The date caches that can arise within one load over [dates]: the
    pre-populated cache, extended by any number of lookups. *)
Inductive load_cache (dates : list Z) : gmap Z Z → Prop :=
  | load_cache_init c :
      populate_date_ixs 0 dates ∅ = Returns c → load_cache dates c
  | load_cache_lookup c dt :
      load_cache dates c → load_cache dates (_lookup_dt c dt dates).2.

(** The store with every table cut down to an inclusive date range. *)
Definition restrict_db (start_date end_date : Z) (db : adjustments_db)
  : adjustments_db :=
  AdjustmentsDb (filter (in_range start_date end_date) (db_splits db))
                (filter (in_range start_date end_date) (db_mergers db))
                (filter (in_range start_date end_date) (db_dividends db)).

(** Every correction of a schedule, together with the row it is filed under,
    satisfies [P]. *)
Definition sched_all (P : Z → Float64Multiply → Prop)
    (m : gmap Z (list Float64Multiply)) : Prop :=
  ∀ k l, m !! k = Some l → Forall (P k) l.

(** [row] is what a lookup of [dt] may return over the axis [dates]: the
    position of [dt] on the axis or, for a date off the axis, the result of
    the right-side search. *)
Definition row_for (dates : list Z) (dt row : Z) : Prop :=
  (∃ i : nat, row = Z.of_nat i ∧ dates !! i = Some dt) ∨
  ((dt ∉ dates) ∧ row = searchsorted_right dates dt).

(** What a date cache may hold within one load: every axis date has an
    entry, and every entry is a row for its key. *)
Definition date_cache_ok (dates : list Z) (cache : gmap Z Z) : Prop :=
  (∀ d, d ∈ dates → is_Some (cache !! d)) ∧
  (∀ dt r, cache !! dt = Some r → row_for dates dt r).

Definition sorted_le (a : list Z) : Prop :=
  ∀ i j x y, (i ≤ j)%nat → a !! i = Some x → a !! j = Some y → x ≤ y.

Definition sorted_lt (a : list Z) : Prop :=
  ∀ i j x y, (i < j)%nat → a !! i = Some x → a !! j = Some y → x < y.

(** [c] is a position of [s] on the asset axis. *)
Definition col_for (assets : list Z) (s c : Z) : Prop :=
  0 ≤ c < Z.of_nat (length assets) ∧ assets !! Z.to_nat c = Some s.

(** What the column cache may hold: positions of its keys on the asset axis. *)
Definition asset_cache_ok (assets : list Z) (cache : gmap Z Z) : Prop :=
  ∀ s c, cache !! s = Some c → col_for assets s c.

(** The state after a retained split record has been filed at [row], [col]. *)
Definition after_split (p v : bool) (st : loader_state) (r : adjustment_row)
    (row col : Z) (cols' dates' : gmap Z Z) : loader_state :=
  LoaderState
    (if p then setdefault_append (price_adjustments st) row
                (mkFloat64Multiply 0 row col col (ratio r))
     else price_adjustments st)
    (if v then setdefault_append (volume_adjustments st) row
                (mkFloat64Multiply 0 row col col (1 / ratio r)%float)
     else volume_adjustments st)
    cols' dates'.

(** The state after a retained merger or dividend record has been filed. *)
Definition after_merger_dividend (st : loader_state) (r : adjustment_row)
    (row col : Z) (cols' dates' : gmap Z Z) : loader_state :=
  LoaderState
    (setdefault_append (price_adjustments st) row
       (mkFloat64Multiply 0 row col col (ratio r)))
    (volume_adjustments st) cols' dates'.

(** The loop invariant of the two passes of the loader. *)
Definition loader_inv (P : Z → Float64Multiply → Prop) (dates assets : list Z)
    (st : loader_state) : Prop :=
  date_cache_ok dates (date_ixs st) ∧
  asset_cache_ok assets (asset_ixs st) ∧
  sched_all P (price_adjustments st) ∧
  sched_all P (volume_adjustments st).

(** [P] holds of every correction that a retained record [r] can give rise
    to, at every row and column that the lookups can resolve for it. *)
Definition filed_ok (P : Z → Float64Multiply → Prop) (dates assets : list Z)
    (r : adjustment_row) : Prop :=
  ∀ row col val,
    row_for dates (effective_date r) row →
    col_for assets (sid r) col →
    val = ratio r ∨ val = (1 / ratio r)%float →
    P row (mkFloat64Multiply 0 row col col val).

(** The two output switches that [load_adjustments_from_sqlite] derives from
    [adjustment_type]. *)
Definition price_requested (adjustment_type : string) : bool :=
  bool_decide (adjustment_type = "all") || bool_decide (adjustment_type = "price").

Definition volume_requested (adjustment_type : string) : bool :=
  bool_decide (adjustment_type = "all") || bool_decide (adjustment_type = "volume").

Definition valid_adjustment_type (adjustment_type : string) : Prop :=
  adjustment_type = "price" ∨ adjustment_type = "volume" ∨ adjustment_type = "all".

(** The shape of a correction filed under row [k]: rows 0 to [k] of one
    column of the asset axis. *)
Definition cell_shape (assets : list Z) (k : Z) (adj : Float64Multiply) : Prop :=
  first_row adj = 0 ∧ last_row adj = k ∧ first_col adj = last_col adj ∧
  0 ≤ first_col adj < Z.of_nat (length assets).

(** Every row key and every corner of every correction of a result lies on
    the axes. *)
Definition indices_in_bounds (dates assets : list Z)
    (result : gmap string (gmap Z (list Float64Multiply))) : Prop :=
  ∀ name sched k l adj,
    result !! name = Some sched → sched !! k = Some l → adj ∈ l →
    0 ≤ k < Z.of_nat (length dates) ∧
    0 ≤ first_row adj < Z.of_nat (length dates) ∧
    0 ≤ last_row adj < Z.of_nat (length dates) ∧
    0 ≤ first_col adj < Z.of_nat (length assets) ∧
    0 ≤ last_col adj < Z.of_nat (length assets).

(** [m'] is [m] with [x] appended to the bucket of [k], and nothing else
    changed. *)
Definition appended (m m' : gmap Z (list Float64Multiply)) (k : Z)
    (x : Float64Multiply) : Prop :=
  m' !! k = Some (default [] (m !! k) ++ [x]) ∧
  ∀ k', k' ≠ k → m' !! k' = m !! k'.

(** The store with one more row in one of its tables. *)
Definition add_row (t : table_name) (r : adjustment_row) (db : adjustments_db)
  : adjustments_db :=
  match t with
  | Splits => AdjustmentsDb (r :: db_splits db) (db_mergers db) (db_dividends db)
  | Mergers => AdjustmentsDb (db_splits db) (r :: db_mergers db) (db_dividends db)
  | Dividends => AdjustmentsDb (db_splits db) (db_mergers db) (r :: db_dividends db)
  end.

(** ** The scenario of the specification *)

Definition scenario_dates : list Z := [0; 86400; 172800; 259200].

Definition scenario_assets : list Z := [101].

Definition scenario_db : adjustments_db :=
  AdjustmentsDb [AdjustmentRow 101 2%float 86400] [] [].

(** What the loader returns in the scenario. *)
Definition scenario_result : gmap string (gmap Z (list Float64Multiply)) :=
  {[ "price" := {[ 1 := [mkFloat64Multiply 0 1 0 0 2%float] ]};
     "volume" := {[ 1 := [mkFloat64Multiply 0 1 0 0 0.5%float] ]} ]}.

(** The date cache right after pre-population over [scenario_dates]. *)
Definition scenario_cache : gmap Z Z :=
  <[259200 := 3]> (<[172800 := 2]> (<[86400 := 1]> (<[0 := 0]> ∅))).

(** A split table whose rows are stored in another order than the asset
    axis [[101; 102]] lists their sids. *)
Definition interleaved_rows : list adjustment_row :=
  [AdjustmentRow 102 3%float 86400; AdjustmentRow 101 2%float 86400].

(** The scenario with a split of ratio zero instead. *)
Definition zero_ratio_db : adjustments_db :=
  AdjustmentsDb [AdjustmentRow 101 0%float 86400] [] [].

(** The dictionaries of the loader right after pre-population in the
    scenario. *)
Definition scenario_state : loader_state := LoaderState ∅ ∅ ∅ scenario_cache.

(** A two-row, one-column window of floats with the price schedule of the
    scenario, before its first advance. *)
Definition scenario_window : window_state float :=
  WindowState float [[10%float]; [20%float]]
    {[ 1 := [mkFloat64Multiply 0 1 0 0 2%float] ]} 0 1 None.

(** ** Closed forms of what the loader computes *)

(** The store with one table replaced. *)
Definition set_table (t : table_name) (rows : list adjustment_row)
    (db : adjustments_db) : adjustments_db :=
  match t with
  | Splits => AdjustmentsDb rows (db_mergers db) (db_dividends db)
  | Mergers => AdjustmentsDb (db_splits db) rows (db_dividends db)
  | Dividends => AdjustmentsDb (db_splits db) (db_mergers db) rows
  end.

(** The row that a load resolves an effective date to, in closed form: the
    last position of the date on the axis, which is what the pre-filled
    date cache holds for it, or, for a date off the axis, the right-side
    search. *)
Definition date_row (dates : list Z) (dt : Z) : Z :=
  match last (positions dt dates 0) with
  | Some i => i
  | None => searchsorted_right dates dt
  end.

(** The column that a load resolves a sid to, where [get_loc] returns one. *)
Definition column (assets : list Z) (s : Z) : Z :=
  match get_loc assets s with
  | Returns c => c
  | _ => 0
  end.

Definition price_correction (dates assets : list Z) (r : adjustment_row)
  : Float64Multiply :=
  mkFloat64Multiply 0 (date_row dates (effective_date r))
    (column assets (sid r)) (column assets (sid r)) (ratio r).

Definition volume_correction (dates assets : list Z) (r : adjustment_row)
  : Float64Multiply :=
  mkFloat64Multiply 0 (date_row dates (effective_date r))
    (column assets (sid r)) (column assets (sid r)) (1 / ratio r)%float.

(** A date cache that agrees with [date_row]: a key without an entry is off
    the axis. *)
Definition date_cache_exact (dates : list Z) (cache : gmap Z Z) : Prop :=
  ∀ dt, (cache !! dt = None ∧ last (positions dt dates 0) = None)
        ∨ cache !! dt = Some (date_row dates dt).

(** A column cache that agrees with [get_loc]. *)
Definition asset_cache_exact (assets : list Z) (cache : gmap Z Z) : Prop :=
  ∀ s c, cache !! s = Some c → get_loc assets s = Returns c.

(** The record is retained and its row is [k]. *)
Definition filed_at (dates : list Z) (start_date k : Z) (r : adjustment_row) : Prop :=
  start_date ≤ effective_date r ∧ date_row dates (effective_date r) = k.

#[global] Instance filed_at_dec dates start_date k r :
  Decision (filed_at dates start_date k r).
Proof. unfold filed_at. apply _. Defined.

(** The records among [records] that are filed under row [k], in their
    order. *)
Definition filed_under (dates : list Z) (start_date k : Z)
    (records : list adjustment_row) : list adjustment_row :=
  filter (filed_at dates start_date k) records.

(** The correction [adj], filed under row [k], stems from the record [r]:
    its column is a position of the record's sid on the asset axis, and [k]
    is the row of the first axis date that is not before the record's
    effective date. *)
Definition stems_from (dates assets : list Z) (k : Z) (adj : Float64Multiply)
    (r : adjustment_row) : Prop :=
  first_row adj = 0 ∧ last_row adj = k ∧
  first_col adj = last_col adj ∧
  assets !! Z.to_nat (first_col adj) = Some (sid r) ∧
  (∀ (i : nat) d, dates !! i = Some d → (Z.of_nat i < k ↔ d < effective_date r)) ∧
  ∃ d, 0 ≤ k ∧ dates !! Z.to_nat k = Some d ∧ effective_date r ≤ d.

(** The result of a load that files nothing: an empty schedule under each
    requested key. *)
Definition empty_schedules (adjustment_type : string)
  : gmap string (gmap Z (list Float64Multiply)) :=
  let result : gmap string (gmap Z (list Float64Multiply)) := ∅ in
  let result :=
    if price_requested adjustment_type then <["price" := ∅]> result else result in
  if volume_requested adjustment_type then <["volume" := ∅]> result else result.

(** A dictionary of lists holds a list under a key only once something was
    appended to it. *)
Definition bucket {A : Type} (l : list A) : option (list A) :=
  match l with
  | [] => None
  | _ :: _ => Some l
  end.

(** The records of a table that a load with the table's switch [include]
    keeps and files under row [k]: those whose sid is on the asset axis and
    whose effective date lies in the inclusive range of the date axis and has
    row [k]. *)
Definition retained_at (dates assets : list Z) (start_date end_date k : Z)
    (include : bool) (rows : list adjustment_row) : list adjustment_row :=
  if include
  then filter (λ r, sid r ∈ assets ∧ in_range start_date end_date r
                    ∧ date_row dates (effective_date r) = k) rows
  else [].

(** * Proofs *)

(** ** Outcomes *)

Lemma bind_Returns {A B} (c : outcome A) (k : A → outcome B) b :
  bind c k = Returns b ↔ ∃ a, c = Returns a ∧ k a = Returns b.
Proof.
  split.
  - destruct c as [a| |]; simpl; intros Hk; try discriminate. eauto.
  - intros (a & -> & Hk). exact Hk.
Qed.

Lemma to_c_int_Returns z z' : to_c_int z = Returns z' → z' = z ∧ c_int_range z.
Proof. unfold to_c_int. case_decide; naive_solver. Qed.

Lemma to_c_int_in_range z : c_int_range z → to_c_int z = Returns z.
Proof. unfold to_c_int. case_decide; naive_solver. Qed.

(** An invariant of the loop body is an invariant of the loop. *)
Lemma for_each_invariant {S A} (I : S → Prop) (body : S → A → outcome S) items :
  (∀ s x s', x ∈ items → I s → body s x = Returns s' → I s') →
  ∀ s s', I s → for_each body items s = Returns s' → I s'.
Proof.
  induction items as [|x rest IH]; intros Hbody s s' Hs; simpl.
  - by intros [= <-].
  - intros (s1 & H1 & H2)%bind_Returns.
    eapply IH; [| |exact H2].
    + intros ? y ? Hy. apply Hbody. by right.
    + eapply Hbody; [by left|exact Hs|exact H1].
Qed.

(** ** Binary search *)

Lemma midpoint_lt (lo hi : nat) :
  (lo < hi)%nat → (lo ≤ lo + (hi - lo) / 2 < hi)%nat.
Proof.
  intros Hlt. assert ((hi - lo) / 2 < hi - lo)%nat as Hhalf by (apply Nat.div_lt; lia).
  revert Hhalf. generalize ((hi - lo) / 2)%nat. intros h Hh. lia.
Qed.

Lemma bisect_right_S fuel a key lo hi :
  bisect_right (S fuel) a key lo hi =
  if decide (lo < hi)%nat then
    if decide (a !!! (lo + (hi - lo) / 2)%nat ≤ key)
    then bisect_right fuel a key (lo + (hi - lo) / 2 + 1)%nat hi
    else bisect_right fuel a key lo (lo + (hi - lo) / 2)%nat
  else lo.
Proof. reflexivity. Qed.

Lemma bisect_right_bounds a key fuel lo hi :
  (lo ≤ hi)%nat →
  (lo ≤ bisect_right fuel a key lo hi ≤ hi)%nat.
Proof.
  revert lo hi. induction fuel as [|fuel IH]; intros lo hi Hle; [simpl; lia|].
  rewrite bisect_right_S. case_decide as Hlt; [|lia].
  pose proof (midpoint_lt lo hi Hlt) as Hmid.
  revert Hmid. generalize (lo + (hi - lo) / 2)%nat. intros mid Hmid.
  case_decide.
  - pose proof (IH (mid + 1)%nat hi ltac:(lia)). lia.
  - pose proof (IH lo mid ltac:(lia)). lia.
Qed.

(** If the search ends at the initial upper bound of a non-empty interval,
    the entry just below that bound was probed and is not greater than the
    key. No order on the array is needed. *)
Lemma bisect_right_top a key fuel lo hi :
  (lo < hi)%nat →
  bisect_right fuel a key lo hi = hi →
  a !!! (hi - 1)%nat ≤ key.
Proof.
  revert lo hi. induction fuel as [|fuel IH]; intros lo hi Hlt; [simpl; lia|].
  rewrite bisect_right_S. case_decide as Hlt'; [|lia].
  pose proof (midpoint_lt lo hi Hlt') as Hlt_mid.
  revert Hlt_mid. generalize (lo + (hi - lo) / 2)%nat. intros mid Hlt_mid.
  case_decide as Hmid.
  - destruct (decide (mid + 1 < hi)%nat) as [Hnext|Hge].
    + apply IH. exact Hnext.
    + intros _. replace (hi - 1)%nat with mid by lia. exact Hmid.
  - intros Heq.
    pose proof (bisect_right_bounds a key fuel lo mid ltac:(lia)). lia.
Qed.

(** On a sorted array the search splits the array at the key. *)
Lemma bisect_right_split a key fuel lo hi :
  sorted_le a →
  (lo ≤ hi ≤ length a)%nat → (hi - lo ≤ fuel)%nat →
  (∀ i x, (i < lo)%nat → a !! i = Some x → x ≤ key) →
  (∀ i x, (hi ≤ i)%nat → a !! i = Some x → key < x) →
  let r := bisect_right fuel a key lo hi in
  (∀ i x, (i < r)%nat → a !! i = Some x → x ≤ key) ∧
  (∀ i x, (r ≤ i)%nat → a !! i = Some x → key < x).
Proof.
  intros Hsorted. revert lo hi.
  induction fuel as [|fuel IH]; intros lo hi Hb Hfuel Hlo Hhi.
  - simpl. assert (lo = hi) as -> by lia. done.
  - rewrite bisect_right_S.
    case_decide as Hlt; [|assert (lo = hi) as -> by lia; done].
    pose proof (midpoint_lt lo hi Hlt) as Hlt_mid.
    revert Hlt_mid. generalize (lo + (hi - lo) / 2)%nat. intros mid Hlt_mid.
    destruct (lookup_lt_is_Some_2 a mid ltac:(lia)) as [m Hm].
    rewrite (list_lookup_total_correct _ _ _ Hm).
    case_decide as Hmid.
    + apply IH; [lia|lia| |done].
      intros i x Hi Hx. pose proof (Hsorted i mid x m ltac:(lia) Hx Hm). lia.
    + apply IH; [lia|lia|done|].
      intros i x Hi Hx. pose proof (Hsorted mid i m x ltac:(lia) Hm Hx). lia.
Qed.

Lemma filter_all_length (P : Z → Prop) `{∀ x, Decision (P x)} (l : list Z) :
  (∀ x, x ∈ l → P x) → length (filter P l) = length l.
Proof.
  induction l as [|x l IH]; intros Hall; [done|].
  rewrite filter_cons_True by (apply Hall; by left).
  simpl. f_equal. apply IH. intros y Hy. apply Hall. by right.
Qed.

Lemma filter_none_length (P : Z → Prop) `{∀ x, Decision (P x)} (l : list Z) :
  (∀ x, x ∈ l → ¬ P x) → length (filter P l) = 0%nat.
Proof.
  induction l as [|x l IH]; intros Hall; [done|].
  rewrite filter_cons_False by (apply Hall; by left).
  apply IH. intros y Hy. apply Hall. by right.
Qed.

(** A split point of the array is the count of entries on its left side. *)
Lemma split_point_count (P : Z → Prop) `{∀ x, Decision (P x)} (a : list Z) (r : nat) :
  (r ≤ length a)%nat →
  (∀ i x, (i < r)%nat → a !! i = Some x → P x) →
  (∀ i x, (r ≤ i)%nat → a !! i = Some x → ¬ P x) →
  length (filter P a) = r.
Proof.
  intros Hr Hlow Hhigh.
  rewrite <- (take_drop r a), filter_app, length_app.
  rewrite filter_all_length, filter_none_length.
  - rewrite length_take. lia.
  - intros x (i & Hi)%list_elem_of_lookup. rewrite lookup_drop in Hi.
    eapply Hhigh; [|exact Hi]. lia.
  - intros x (i & Hi)%list_elem_of_lookup.
    apply lookup_take_Some in Hi as [Hi ?]. eauto.
Qed.

Lemma searchsorted_right_count a key :
  sorted_le a → searchsorted_right a key = Z.of_nat (count_le a key).
Proof.
  intros Hsorted. unfold searchsorted_right, count_le. f_equal.
  pose proof (bisect_right_bounds a key (length a) 0 (length a) ltac:(lia)).
  destruct (bisect_right_split a key (length a) 0 (length a) Hsorted) as [Hlow Hhigh];
    [lia|lia|intros; lia| |].
  { intros i x Hi Hx. apply lookup_lt_Some in Hx. lia. }
  symmetry. apply split_point_count; [lia|exact Hlow|].
  intros i x Hi Hx. pose proof (Hhigh i x Hi Hx). lia.
Qed.

(** ** The date cache *)

Lemma StronglySorted_sorted_lt a : StronglySorted Z.lt a → sorted_lt a.
Proof.
  induction 1 as [|x0 l Hl IH Hall]; intros i j x y Hij Hi Hj.
  - by rewrite lookup_nil in Hi.
  - destruct j as [|j]; [lia|]. simpl in Hj.
    destruct i as [|i]; simpl in Hi.
    + injection Hi as ->. rewrite Forall_forall in Hall. apply Hall.
      eapply list_elem_of_lookup_2. exact Hj.
    + eapply IH; [|exact Hi|exact Hj]. lia.
Qed.

Lemma sorted_lt_le a : sorted_lt a → sorted_le a.
Proof.
  intros Hlt i j x y Hij Hi Hj.
  destruct (decide (i = j)) as [->|Hne].
  - rewrite Hi in Hj. injection Hj as ->. lia.
  - pose proof (Hlt i j x y ltac:(lia) Hi Hj). lia.
Qed.

(** On a strictly increasing axis, the position of a date is the number of
    dates before it. *)
Lemma sorted_lt_position a i dt :
  sorted_lt a → a !! i = Some dt → count_lt a dt = i.
Proof.
  intros Hsorted Hi. unfold count_lt.
  apply split_point_count.
  - apply lookup_lt_Some in Hi. lia.
  - intros j x Hj Hx. exact (Hsorted j i x dt Hj Hx Hi).
  - intros j x Hj Hx. destruct (decide (i = j)) as [->|Hne].
    + rewrite Hi in Hx. injection Hx as ->. lia.
    + pose proof (Hsorted i j dt x ltac:(lia) Hi Hx). lia.
Qed.

Lemma count_lt_mono a d dt : dt ≤ d → (count_lt a dt ≤ count_lt a d)%nat.
Proof.
  intros Hle. unfold count_lt. induction a as [|x l IH]; [done|].
  rewrite !filter_cons. repeat case_decide; simpl; lia.
Qed.

(** On a strictly increasing axis, the dates before a key are exactly those
    at the positions below the number of dates before the key. *)
Lemma sorted_lt_before a i d dt :
  sorted_lt a → a !! i = Some d → d < dt ↔ (i < count_lt a dt)%nat.
Proof.
  intros Hsorted Hi. split.
  - intros Hlt. unfold count_lt.
    rewrite <- (take_drop (S i) a), filter_app, length_app.
    rewrite (filter_all_length (λ x, x < dt) (take (S i) a)).
    + rewrite length_take. apply lookup_lt_Some in Hi. lia.
    + intros x (j & [Hj Hlt_j]%lookup_take_Some)%list_elem_of_lookup.
      destruct (decide (j = i)) as [->|Hne].
      * rewrite Hi in Hj. injection Hj as <-. exact Hlt.
      * pose proof (Hsorted j i x d ltac:(lia) Hj Hi). lia.
  - intros Hlt. destruct (decide (d < dt)) as [|Hge]; [done|].
    pose proof (count_lt_mono a d dt ltac:(lia)).
    rewrite (sorted_lt_position a i d Hsorted Hi) in *. lia.
Qed.

Lemma count_le_off_axis a dt : dt ∉ a → count_le a dt = count_lt a dt.
Proof.
  unfold count_le, count_lt. induction a as [|x a IH]; intros Hnot; [done|].
  apply not_elem_of_cons in Hnot as [Hne Hnot].
  rewrite !filter_cons. specialize (IH Hnot).
  repeat case_decide; simpl; lia.
Qed.

Lemma count_le_on_axis a i dt :
  sorted_lt a → a !! i = Some dt → count_le a dt = S i.
Proof.
  intros Hsorted Hi. unfold count_le.
  apply split_point_count.
  - apply lookup_lt_Some in Hi. lia.
  - intros j x Hj Hx. destruct (decide (j = i)) as [->|Hne].
    + rewrite Hi in Hx. injection Hx as ->. lia.
    + pose proof (Hsorted j i x dt ltac:(lia) Hx Hi). lia.
  - intros j x Hj Hx. pose proof (Hsorted i j dt x ltac:(lia) Hi Hx). lia.
Qed.

Lemma populate_date_ixs_entries suffix : ∀ prefix m c,
  (∀ d, d ∈ prefix → is_Some (m !! d)) →
  (∀ dt r, m !! dt = Some r →
     ∃ i : nat, r = Z.of_nat i ∧ (prefix ++ suffix) !! i = Some dt) →
  populate_date_ixs (Z.of_nat (length prefix)) suffix m = Returns c →
  (∀ d, d ∈ prefix ++ suffix → is_Some (c !! d)) ∧
  (∀ dt r, c !! dt = Some r →
     ∃ i : nat, r = Z.of_nat i ∧ (prefix ++ suffix) !! i = Some dt).
Proof.
  induction suffix as [|d rest IH]; intros prefix m c Hdom Hval; simpl.
  - intros [= <-]. rewrite app_nil_r in *. done.
  - intros (dt & [-> _]%to_c_int_Returns & Hrest)%bind_Returns.
    rewrite (cons_middle d prefix rest), app_assoc in *.
    apply (IH (prefix ++ [d]) (<[d := Z.of_nat (length prefix)]> m) c).
    + intros d' [Hd'| ->%list_elem_of_singleton]%elem_of_app.
      * destruct (decide (d = d')) as [->|Hne];
          [rewrite lookup_insert_eq|rewrite lookup_insert_ne by done]; eauto.
      * rewrite lookup_insert_eq. eauto.
    + intros dt r. destruct (decide (d = dt)) as [->|Hne].
      * rewrite lookup_insert_eq. intros [= <-]. exists (length prefix).
        split; [done|]. rewrite <- app_assoc. simpl.
        by rewrite list_lookup_middle.
      * rewrite lookup_insert_ne by done. apply Hval.
    + rewrite length_app. simpl.
      replace (Z.of_nat (length prefix + 1)) with (Z.of_nat (length prefix) + 1) by lia.
      exact Hrest.
Qed.

Lemma populate_date_ixs_ok dates c :
  populate_date_ixs 0 dates ∅ = Returns c → date_cache_ok dates c.
Proof.
  intros Hpop.
  destruct (populate_date_ixs_entries dates [] ∅ c) as [Hdom Hval].
  - intros d Hd. by apply elem_of_nil in Hd.
  - intros dt r Hr. by rewrite lookup_empty in Hr.
  - exact Hpop.
  - split; [exact Hdom|]. intros dt r Hr. left. by apply Hval.
Qed.

(** What a lookup returns, and what it leaves in the cache. *)
Lemma lookup_dt_cases dates cache dt :
  date_cache_ok dates cache →
  row_for dates dt (_lookup_dt cache dt dates).1 ∧
  date_cache_ok dates (_lookup_dt cache dt dates).2 ∧
  (_lookup_dt cache dt dates).2 !! dt = Some (_lookup_dt cache dt dates).1.
Proof.
  intros [Hdom Hval]. unfold _lookup_dt.
  destruct (cache !! dt) as [r|] eqn:Hdt; simpl.
  - split; [by apply Hval|]. done.
  - assert (dt ∉ dates) as Hoff.
    { intros Hin. destruct (Hdom dt Hin) as [r Hr]. congruence. }
    split; [by right|]. split; [|by rewrite lookup_insert_eq].
    split.
    + intros d Hd. destruct (decide (dt = d)) as [->|Hne];
        [rewrite lookup_insert_eq|rewrite lookup_insert_ne by done]; eauto.
    + intros dt' r. destruct (decide (dt = dt')) as [->|Hne].
      * rewrite lookup_insert_eq. intros [= <-]. by right.
      * rewrite lookup_insert_ne by done. apply Hval.
Qed.

Lemma load_cache_ok dates cache : load_cache dates cache → date_cache_ok dates cache.
Proof.
  induction 1 as [c Hpop|c dt _ IH].
  - by apply populate_date_ixs_ok.
  - by apply lookup_dt_cases.
Qed.

Lemma lookup_dt_cached cache dt fallback row :
  cache !! dt = Some row → _lookup_dt cache dt fallback = (row, cache).
Proof. intros Hrow. unfold _lookup_dt. by rewrite Hrow. Qed.

(** C1, as the code has it. On a strictly increasing date axis, and for every
    cache that can arise within one load, the date-to-row lookup returns the
    number of axis dates strictly before the effective date, which is the
    index of the first axis date greater than or equal to it. That is the
    number of axis dates not after the effective date only when the
    effective date is off the axis; for a date on the axis it is one less.
    A second lookup of the same date returns the same row and leaves the
    cache as it is, and so does a lookup of that date at any other moment of
    the same load. *)
Theorem lookup_dt_row dates cache dt :
  StronglySorted Z.lt dates →
  load_cache dates cache →
  let row := (_lookup_dt cache dt dates).1 in
  let cache' := (_lookup_dt cache dt dates).2 in
  row = Z.of_nat (count_lt dates dt) ∧
  (∀ (i : nat) d, dates !! i = Some d → (Z.of_nat i < row ↔ d < dt)) ∧
  (dt ∉ dates → row = Z.of_nat (count_le dates dt)) ∧
  (dt ∈ dates → row + 1 = Z.of_nat (count_le dates dt)) ∧
  _lookup_dt cache' dt dates = (row, cache') ∧
  (∀ later, load_cache dates later → (_lookup_dt later dt dates).1 = row).
Proof.
  intros Hsorted%StronglySorted_sorted_lt Hcache%load_cache_ok row cache'.
  destruct (lookup_dt_cases dates cache dt Hcache) as (Hrow & _ & Hcached).
  fold row cache' in Hrow, Hcached.
  assert (∀ r, row_for dates dt r → r = Z.of_nat (count_lt dates dt)) as Hrows.
  { intros r [(i & -> & Hi)|[Hoff ->]].
    - by rewrite (sorted_lt_position dates i dt).
    - rewrite searchsorted_right_count by by apply sorted_lt_le.
      by rewrite count_le_off_axis. }
  pose proof (Hrows row Hrow) as Hcount.
  split; [exact Hcount|]. split; [|split; [|split; [|split]]]; cycle 4.
  { intros later Hlater%load_cache_ok. rewrite Hcount. apply Hrows.
    by apply lookup_dt_cases. }
  - intros i d Hi. rewrite Hcount. rewrite <- Nat2Z.inj_lt.
    symmetry. by apply sorted_lt_before.
  - intros Hoff. by rewrite count_le_off_axis.
  - intros (i & Hi)%list_elem_of_lookup.
    rewrite Hcount, (sorted_lt_position dates i dt), (count_le_on_axis dates i dt) by done.
    lia.
  - by apply lookup_dt_cached.
Qed.

Lemma scenario_dates_sorted : StronglySorted Z.lt scenario_dates.
Proof. unfold scenario_dates. repeat constructor; lia. Qed.

Lemma scenario_cache_populated :
  populate_date_ixs 0 scenario_dates ∅ = Returns scenario_cache.
Proof. reflexivity. Qed.

Lemma lookup_dt_row_witness :
  (_lookup_dt scenario_cache 86400 scenario_dates).1
  = Z.of_nat (count_lt scenario_dates 86400).
Proof.
  destruct (lookup_dt_row scenario_dates scenario_cache 86400) as [Hrow _].
  - unfold scenario_dates. repeat constructor; lia.
  - apply load_cache_init. reflexivity.
  - exact Hrow.
Defined.

(** C1, as the specification words it, fails: on the axis
    [0, 86400, 172800, 259200] the pre-populated cache sends 86400 to row 1,
    while two axis dates are not after 86400. *)
Lemma lookup_dt_row_not_count_le :
  ¬ (∀ dates cache dt,
       StronglySorted Z.lt dates → load_cache dates cache →
       (_lookup_dt cache dt dates).1 = Z.of_nat (count_le dates dt)).
Proof.
  intros Hclaim.
  specialize (Hclaim scenario_dates scenario_cache 86400 scenario_dates_sorted
                (load_cache_init _ _ scenario_cache_populated)).
  vm_compute in Hclaim. discriminate.
Qed.

(** ** The column cache *)

Lemma positions_spec key index : ∀ i x,
  x ∈ positions key index i →
  i ≤ x < i + Z.of_nat (length index) ∧ index !! Z.to_nat (x - i) = Some key.
Proof.
  induction index as [|a rest IH]; intros i x; simpl.
  - intros Hx. by apply elem_of_nil in Hx.
  - assert (x ∈ positions key rest (i + 1) →
            i ≤ x < i + Z.of_nat (S (length rest))
            ∧ (a :: rest) !! Z.to_nat (x - i) = Some key) as Hrest.
    { intros [Hb Hx]%IH. split; [lia|].
      replace (Z.to_nat (x - i)) with (S (Z.to_nat (x - (i + 1)))) by lia. exact Hx. }
    case_decide as Ha; [|exact Hrest].
    intros [->|Hx]%elem_of_cons; [|by apply Hrest].
    split; [lia|]. replace (Z.to_nat (i - i)) with 0%nat by lia. by rewrite Ha.
Qed.

Lemma positions_absent key index i : key ∉ index → positions key index i = [].
Proof.
  revert i. induction index as [|a rest IH]; intros i Hnot; simpl; [done|].
  apply not_elem_of_cons in Hnot as [Hne Hnot].
  case_decide; [congruence|]. by apply IH.
Qed.

Lemma positions_unique key index i :
  NoDup index → key ∈ index → ∃ c, positions key index i = [c].
Proof.
  revert i. induction index as [|a rest IH]; intros i Hnodup Hin; simpl.
  - by apply elem_of_nil in Hin.
  - apply NoDup_cons in Hnodup as [Hfresh Hnodup].
    case_decide as Ha.
    + subst a. rewrite positions_absent by done. eauto.
    + apply elem_of_cons in Hin as [->|Hin]; [done|]. by apply IH.
Qed.

Lemma get_loc_Returns assets key c :
  get_loc assets key = Returns c → col_for assets key c.
Proof.
  unfold get_loc. intros Hloc.
  destruct (positions key assets 0) as [|x [|y rest]] eqn:Hpos; try discriminate.
  injection Hloc as ->.
  destruct (positions_spec key assets 0 c) as [Hb Hc]; [rewrite Hpos; by left|].
  split; [lia|]. by replace (c - 0) with c in Hc by lia.
Qed.

Lemma get_loc_unique assets key :
  NoDup assets → key ∈ assets → ∃ c, get_loc assets key = Returns c.
Proof.
  intros Hnodup Hin. unfold get_loc.
  destruct (positions_unique key assets 0 Hnodup Hin) as [c ->]. eauto.
Qed.

Lemma lookup_asset_Returns assets cache key c cache' :
  asset_cache_ok assets cache →
  lookup_asset cache assets key = Returns (c, cache') →
  col_for assets key c ∧
  asset_cache_ok assets cache' ∧ cache' !! key = Some c.
Proof.
  intros Hok. unfold lookup_asset.
  destruct (cache !! key) as [ix|] eqn:Hkey.
  - intros [= -> ->]. split; [by apply Hok|done].
  - intros (ix & Hloc%get_loc_Returns & [= -> <-])%bind_Returns.
    split; [done|]. split; [|by rewrite lookup_insert_eq].
    intros s c'. destruct (decide (key = s)) as [->|Hne].
    + rewrite lookup_insert_eq. by intros [= <-].
    + rewrite lookup_insert_ne by done. apply Hok.
Qed.

Lemma lookup_asset_unique assets cache key :
  NoDup assets → key ∈ assets →
  ∃ out, lookup_asset cache assets key = Returns out.
Proof.
  intros Hnodup Hin. unfold lookup_asset.
  destruct (cache !! key) as [ix|]; [eauto|].
  destruct (get_loc_unique assets key Hnodup Hin) as [c ->]. simpl. eauto.
Qed.

(** ** The chunked fetch *)

Lemma ADJ_QUERY_elem rows params start_date end_date r :
  r ∈ ADJ_QUERY rows params start_date end_date ↔
  r ∈ rows ∧ sid r ∈ params ∧ in_range start_date end_date r.
Proof. unfold ADJ_QUERY. rewrite list_elem_of_filter. tauto. Qed.

Lemma ADJ_QUERY_no_params rows start_date end_date :
  ADJ_QUERY rows [] start_date end_date = [].
Proof.
  unfold ADJ_QUERY. induction rows as [|r rows IH]; [done|].
  rewrite filter_cons_False; [done|].
  intros [Hin _]. by apply elem_of_nil in Hin.
Qed.

(** Splitting the parameter list of a query in two splits its result in two,
    up to the order of the rows, provided no sid is bound twice. *)
Lemma ADJ_QUERY_app rows p1 p2 start_date end_date :
  NoDup (p1 ++ p2) →
  ADJ_QUERY rows (p1 ++ p2) start_date end_date
  ≡ₚ ADJ_QUERY rows p1 start_date end_date ++ ADJ_QUERY rows p2 start_date end_date.
Proof.
  intros [_ [Hdisj _]]%NoDup_app. unfold ADJ_QUERY.
  induction rows as [|r rows IH]; [done|].
  rewrite !filter_cons.
  destruct (decide (sid r ∈ p1)) as [H1|H1];
    destruct (decide (sid r ∈ p2)) as [H2|H2];
    try (exfalso; by eapply Hdisj);
    destruct (decide (in_range start_date end_date r)) as [Hr|Hr];
    repeat (first [rewrite decide_True by (rewrite ?elem_of_app; tauto)
                  |rewrite decide_False by (rewrite ?elem_of_app; tauto)]);
    first [exact IH | simpl; by f_equiv | rewrite IH; apply Permutation_middle].
Qed.

(** The rows fetched chunk by chunk, in chunk order. *)
Definition fetch_by_chunk (rows : list adjustment_row) (start_date end_date : Z)
    (chunks : list (list Z)) : list adjustment_row :=
  concat ((λ q, ADJ_QUERY rows q start_date end_date) <$> chunks).

Lemma fetch_by_chunk_cons rows start_date end_date q chunks :
  fetch_by_chunk rows start_date end_date (q :: chunks)
  = ADJ_QUERY rows q start_date end_date
    ++ fetch_by_chunk rows start_date end_date chunks.
Proof. reflexivity. Qed.

Lemma fetch_by_chunk_perm rows start_date end_date chunks :
  NoDup (concat chunks) →
  fetch_by_chunk rows start_date end_date chunks
  ≡ₚ ADJ_QUERY rows (concat chunks) start_date end_date.
Proof.
  unfold fetch_by_chunk. induction chunks as [|q chunks IH]; simpl; intros Hnodup.
  - by rewrite ADJ_QUERY_no_params.
  - rewrite ADJ_QUERY_app by done. f_equiv. apply IH.
    by apply NoDup_app in Hnodup as (_ & _ & ?).
Qed.

Lemma fetch_by_chunk_elem rows start_date end_date chunks r :
  r ∈ fetch_by_chunk rows start_date end_date chunks ↔
  r ∈ rows ∧ sid r ∈ concat chunks ∧ in_range start_date end_date r.
Proof.
  unfold fetch_by_chunk. induction chunks as [|q chunks IH]; simpl.
  - split; [intros Hr|intros (_ & Hr & _)]; by apply elem_of_nil in Hr.
  - rewrite !elem_of_app, IH, ADJ_QUERY_elem. tauto.
Qed.

Section chunking.

Variable limit : nat.

(** Whatever the fetch loop returns is the log of a partition of the list
    into consecutive chunks within the limit, with the rows fetched chunk by
    chunk. *)
Lemma chunked_fetch_Returns rows start_date end_date fuel :
  ∀ to_query executed results log fetched,
  chunked_fetch limit fuel rows start_date end_date to_query executed results
    = Returns (log, fetched) →
  ∃ chunks,
    log = executed ++ chunks ∧
    fetched = results ++ fetch_by_chunk rows start_date end_date chunks ∧
    concat chunks = to_query ∧
    Forall (λ q : list Z, (length q ≤ limit)%nat) chunks.
Proof.
  induction fuel as [|fuel IH]; intros to_query executed results log fetched.
  - destruct to_query; simpl; [|discriminate].
    intros [= <- <-]. exists []. by rewrite !app_nil_r.
  - destruct to_query as [|a rest].
    + simpl. intros [= <- <-]. exists []. by rewrite !app_nil_r.
    + cbn [chunked_fetch]. intros (chunks & -> & -> & Hconcat & Hall)%IH.
      eexists (_ :: chunks). rewrite <- !app_assoc, fetch_by_chunk_cons.
      split; [done|]. split; [done|]. split.
      * rewrite concat_cons, Hconcat. apply take_drop.
      * constructor; [|done]. rewrite length_take. lia.
Qed.

(** With a positive limit the loop terminates within [length to_query]
    iterations. *)
Lemma chunked_fetch_terminates rows start_date end_date fuel :
  (0 < limit)%nat →
  ∀ to_query executed results,
  (length to_query ≤ fuel)%nat →
  ∃ out,
    chunked_fetch limit fuel rows start_date end_date to_query executed results
      = Returns out.
Proof.
  intros Hlimit. induction fuel as [|fuel IH]; intros to_query executed results Hfuel.
  - destruct to_query; [simpl; eauto|simpl in Hfuel; lia].
  - destruct to_query as [|a rest]; [simpl; eauto|].
    cbn [chunked_fetch]. apply IH.
    rewrite length_drop. cbn [length] in *. lia.
Qed.

(** A list within the limit goes out as a single query. *)
Lemma chunked_fetch_single rows start_date end_date fuel to_query :
  to_query ≠ [] → (length to_query ≤ limit)%nat →
  chunked_fetch limit (S fuel) rows start_date end_date to_query [] []
  = Returns ([to_query], ADJ_QUERY rows to_query start_date end_date).
Proof.
  intros Hne Hlen. destruct to_query as [|a rest]; [done|].
  cbn [chunked_fetch].
  rewrite Nat.min_l by done. rewrite take_ge, drop_ge by done.
  by destruct fuel.
Qed.

Lemma fetch_table_Returns db t sids start_date end_date assets fetched :
  fetch_table limit db t sids start_date end_date assets = Returns fetched →
  ∀ r, r ∈ fetched ↔
       r ∈ table db t ∧ sid r ∈ assets ∧ sid r ∈ sids
       ∧ in_range start_date end_date r.
Proof.
  unfold fetch_table.
  intros ([log res] & (chunks & _ & -> & Hconcat & _)%chunked_fetch_Returns
          & [= <-])%bind_Returns r.
  simpl. rewrite fetch_by_chunk_elem, Hconcat, list_elem_of_filter. tauto.
Qed.

Lemma fetch_table_terminates db t sids start_date end_date assets :
  (0 < limit)%nat →
  ∃ fetched, fetch_table limit db t sids start_date end_date assets = Returns fetched.
Proof.
  intros Hlimit. unfold fetch_table.
  edestruct (chunked_fetch_terminates (table db t) start_date end_date) as [out ->];
    [exact Hlimit|reflexivity|].
  simpl. eauto.
Qed.

Lemma fetch_table_no_sids db t start_date end_date assets :
  fetch_table limit db t ∅ start_date end_date assets = Returns [].
Proof.
  unfold fetch_table.
  replace (filter (λ a, a ∈ (∅ : gset Z)) assets) with (@nil Z); [done|].
  induction assets as [|a rest IH]; [done|].
  rewrite filter_cons_False by set_solver. exact IH.
Qed.

End chunking.

(** C5, as the code has it. For a positive limit and a candidate list with
    no repeated id, of any length, the fetch loop returns; no query it issues
    binds more parameters than the limit; the queries bind consecutive chunks
    of the list; and the rows it returns are those of the chunks' results in
    chunk order, which are the rows of the single unchunked query with the
    same multiplicities, though possibly in another order. When the list fits
    in one chunk the two results are equal. *)
Theorem chunked_fetch_refines_unchunked (limit : nat) rows start_date end_date to_query :
  (0 < limit)%nat →
  NoDup to_query →
  ∃ log fetched,
    chunked_fetch limit (length to_query) rows start_date end_date to_query [] []
      = Returns (log, fetched) ∧
    Forall (λ q : list Z, (length q ≤ limit)%nat) log ∧
    concat log = to_query ∧
    fetched = fetch_by_chunk rows start_date end_date log ∧
    fetched ≡ₚ ADJ_QUERY rows to_query start_date end_date ∧
    ((length to_query ≤ limit)%nat →
     fetched = ADJ_QUERY rows to_query start_date end_date).
Proof.
  intros Hlimit Hnodup.
  destruct (chunked_fetch_terminates limit rows start_date end_date
              (length to_query) Hlimit to_query [] [] ltac:(done)) as [[log fetched] Hrun].
  exists log, fetched. split; [exact Hrun|].
  destruct (chunked_fetch_Returns _ _ _ _ _ _ _ _ _ _ Hrun)
    as (chunks & -> & -> & Hconcat & Hall).
  simpl. split; [done|]. split; [done|]. split; [done|]. split.
  - rewrite <- Hconcat in Hnodup |- *. by apply fetch_by_chunk_perm.
  - intros Hfit. destruct to_query as [|a rest].
    + cbn [length chunked_fetch app] in Hrun. injection Hrun as <- <-.
      by rewrite ADJ_QUERY_no_params.
    + cbn [length] in Hrun. rewrite chunked_fetch_single in Hrun by done.
      cbn [app] in Hrun. by injection Hrun as <- <-.
Qed.

Lemma chunked_fetch_refines_unchunked_witness :
  ∃ log fetched,
    chunked_fetch 2 3 interleaved_rows 0 259200 [101; 102; 103] [] []
      = Returns (log, fetched) ∧
    Forall (λ q : list Z, (length q ≤ 2)%nat) log ∧
    concat log = [101; 102; 103] ∧
    fetched = fetch_by_chunk interleaved_rows 0 259200 log ∧
    fetched ≡ₚ ADJ_QUERY interleaved_rows [101; 102; 103] 0 259200 ∧
    ((3 ≤ 2)%nat → fetched = ADJ_QUERY interleaved_rows [101; 102; 103] 0 259200).
Proof.
  apply (chunked_fetch_refines_unchunked 2 interleaved_rows 0 259200 [101; 102; 103]).
  - lia.
  - by apply (bool_decide_unpack _).
Defined.

(** C5, as the specification words it, fails on the order of the rows: with
    a limit of one parameter and the asset list [101; 102], the two chunks
    return the row of 101 and then the row of 102, while the single query
    over both returns them in storage order, 102 first. *)
Lemma chunked_fetch_order_differs :
  ¬ (∀ (limit : nat) rows start_date end_date to_query log fetched,
       (0 < limit)%nat → NoDup to_query →
       chunked_fetch limit (length to_query) rows start_date end_date to_query [] []
         = Returns (log, fetched) →
       fetched = ADJ_QUERY rows to_query start_date end_date).
Proof.
  intros Hclaim.
  assert (NoDup [101; 102]) as Hnodup by by apply (bool_decide_unpack _).
  specialize (Hclaim 1%nat interleaved_rows 0 259200 [101; 102] _ _
                ltac:(lia) Hnodup eq_refl).
  vm_compute in Hclaim. discriminate Hclaim.
Qed.

(** A repeated id is fetched once per chunk it falls in, and once by the
    single query: the asset axis must not repeat ids. *)
Example chunked_fetch_repeated_id :
  chunked_fetch 1 2 [AdjustmentRow 101 2%float 86400] 0 259200 [101; 101] [] []
  = Returns ([[101]; [101]],
             [AdjustmentRow 101 2%float 86400; AdjustmentRow 101 2%float 86400]) ∧
  ADJ_QUERY [AdjustmentRow 101 2%float 86400] [101; 101] 0 259200
  = [AdjustmentRow 101 2%float 86400].
Proof. split; reflexivity. Qed.

(** ** The two passes over the fetched records *)

Lemma sched_all_empty P : sched_all P ∅.
Proof. intros k l Hk. by rewrite lookup_empty in Hk. Qed.

Lemma sched_all_append P m k x :
  sched_all P m → P k x → sched_all P (setdefault_append m k x).
Proof.
  intros Hm Hx k' l. unfold setdefault_append.
  destruct (decide (k = k')) as [<-|Hne].
  - rewrite lookup_insert_eq. intros [= <-].
    apply Forall_app. split; [|by constructor].
    destruct (m !! k) as [l0|] eqn:Hk; simpl; [by eapply Hm|constructor].
  - rewrite lookup_insert_ne by done. apply Hm.
Qed.

Lemma setdefault_append_lookup m k x :
  setdefault_append m k x !! k = Some (default [] (m !! k) ++ [x]).
Proof. unfold setdefault_append. by rewrite lookup_insert_eq. Qed.

Lemma setdefault_append_lookup_ne m k k' x :
  k ≠ k' → setdefault_append m k x !! k' = m !! k'.
Proof. intros Hne. unfold setdefault_append. by rewrite lookup_insert_ne. Qed.

Lemma inverse_ratio_Returns r inv :
  inverse_ratio r = Returns inv →
  PrimFloat.eqb r 0 = false ∧ inv = (1 / r)%float.
Proof.
  unfold inverse_ratio. destruct (PrimFloat.eqb r 0); [discriminate|].
  by intros [= <-].
Qed.

Section passes.

Variables (dates assets : list Z) (start_date : Z) (p v : bool).

Lemma split_body_skip st r :
  effective_date r < start_date →
  split_body dates assets start_date p v st r = Returns st.
Proof. intros Hearly. unfold split_body. by rewrite decide_True. Qed.

Lemma merger_dividend_body_skip st r :
  effective_date r < start_date →
  merger_dividend_body dates assets start_date st r = Returns st.
Proof. intros Hearly. unfold merger_dividend_body. by rewrite decide_True. Qed.

(** A retained split record whose column resolves and whose ratio can be
    inverted when volume output is on is filed. *)
Lemma split_body_run st r col cols' :
  start_date ≤ effective_date r →
  lookup_asset (asset_ixs st) assets (sid r) = Returns (col, cols') →
  (v = true → PrimFloat.eqb (ratio r) 0 = false) →
  split_body dates assets start_date p v st r
  = Returns (after_split p v st r
               (_lookup_dt (date_ixs st) (effective_date r) dates).1 col cols'
               (_lookup_dt (date_ixs st) (effective_date r) dates).2).
Proof.
  intros Hkeep Hcol Hinv. unfold split_body, after_split.
  rewrite decide_False by lia.
  destruct (_lookup_dt (date_ixs st) (effective_date r) dates) as [row dates'].
  rewrite Hcol. simpl. destruct v; [|done].
  unfold inverse_ratio. by rewrite Hinv.
Qed.

(** A retained split record with a zero ratio stops the load when volume
    output is on. *)
Lemma split_body_zero st r out :
  start_date ≤ effective_date r →
  lookup_asset (asset_ixs st) assets (sid r) = Returns out →
  v = true → PrimFloat.eqb (ratio r) 0 = true →
  split_body dates assets start_date p v st r = Raises ZeroDivisionError.
Proof.
  intros Hkeep Hcol -> Hzero. unfold split_body.
  rewrite decide_False by lia.
  destruct (_lookup_dt (date_ixs st) (effective_date r) dates) as [row dates'].
  rewrite Hcol. destruct out as [col cols']. simpl.
  unfold inverse_ratio. by rewrite Hzero.
Qed.

Lemma split_body_Returns st r st' :
  split_body dates assets start_date p v st r = Returns st' →
  (effective_date r < start_date ∧ st' = st) ∨
  (start_date ≤ effective_date r ∧
   ∃ col cols',
     lookup_asset (asset_ixs st) assets (sid r) = Returns (col, cols') ∧
     (v = true → PrimFloat.eqb (ratio r) 0 = false) ∧
     st' = after_split p v st r
             (_lookup_dt (date_ixs st) (effective_date r) dates).1 col cols'
             (_lookup_dt (date_ixs st) (effective_date r) dates).2).
Proof.
  unfold split_body. case_decide as Hearly.
  - intros [= <-]. by left.
  - destruct (_lookup_dt (date_ixs st) (effective_date r) dates) as [row dates'].
    intros ([col cols'] & Hcol & Hrest)%bind_Returns. right.
    split; [lia|]. exists col, cols'. split; [exact Hcol|].
    apply bind_Returns in Hrest as (vol & Hvol & [= <-]).
    unfold after_split. simpl. destruct v.
    + apply bind_Returns in Hvol as (inv & [Hnz ->]%inverse_ratio_Returns & [= <-]).
      done.
    + injection Hvol as <-. done.
Qed.

Lemma merger_dividend_body_run st r col cols' :
  start_date ≤ effective_date r →
  lookup_asset (asset_ixs st) assets (sid r) = Returns (col, cols') →
  merger_dividend_body dates assets start_date st r
  = Returns (after_merger_dividend st r
               (_lookup_dt (date_ixs st) (effective_date r) dates).1 col cols'
               (_lookup_dt (date_ixs st) (effective_date r) dates).2).
Proof.
  intros Hkeep Hcol. unfold merger_dividend_body, after_merger_dividend.
  rewrite decide_False by lia.
  destruct (_lookup_dt (date_ixs st) (effective_date r) dates) as [row dates'].
  by rewrite Hcol.
Qed.

Lemma merger_dividend_body_Returns st r st' :
  merger_dividend_body dates assets start_date st r = Returns st' →
  (effective_date r < start_date ∧ st' = st) ∨
  (start_date ≤ effective_date r ∧
   ∃ col cols',
     lookup_asset (asset_ixs st) assets (sid r) = Returns (col, cols') ∧
     st' = after_merger_dividend st r
             (_lookup_dt (date_ixs st) (effective_date r) dates).1 col cols'
             (_lookup_dt (date_ixs st) (effective_date r) dates).2).
Proof.
  unfold merger_dividend_body. case_decide as Hearly.
  - intros [= <-]. by left.
  - destruct (_lookup_dt (date_ixs st) (effective_date r) dates) as [row dates'].
    intros ([col cols'] & Hcol & [= <-])%bind_Returns. right.
    split; [lia|]. by exists col, cols'.
Qed.

Variable P : Z → Float64Multiply → Prop.

Lemma split_body_inv st r st' :
  loader_inv P dates assets st →
  (start_date ≤ effective_date r → filed_ok P dates assets r) →
  split_body dates assets start_date p v st r = Returns st' →
  loader_inv P dates assets st'.
Proof.
  intros (Hdates & Hcols & Hprice & Hvolume) Hfiled
    [[_ ->]|(Hkeep & col & cols' & Hcol & _ & ->)]%split_body_Returns; [done|].
  destruct (lookup_dt_cases dates (date_ixs st) (effective_date r) Hdates)
    as (Hrow & Hdates' & _).
  destruct (lookup_asset_Returns _ _ _ _ _ Hcols Hcol) as (Hcol_for & Hcols' & _).
  specialize (Hfiled Hkeep).
  unfold after_split. split; [exact Hdates'|]. split; [exact Hcols'|]. simpl. split.
  - destruct p; [|done]. apply sched_all_append; [done|]. apply Hfiled; auto.
  - destruct v; [|done]. apply sched_all_append; [done|]. apply Hfiled; auto.
Qed.

Lemma merger_dividend_body_inv st r st' :
  loader_inv P dates assets st →
  (start_date ≤ effective_date r → filed_ok P dates assets r) →
  merger_dividend_body dates assets start_date st r = Returns st' →
  loader_inv P dates assets st'.
Proof.
  intros (Hdates & Hcols & Hprice & Hvolume) Hfiled
    [[_ ->]|(Hkeep & col & cols' & Hcol & ->)]%merger_dividend_body_Returns; [done|].
  destruct (lookup_dt_cases dates (date_ixs st) (effective_date r) Hdates)
    as (Hrow & Hdates' & _).
  destruct (lookup_asset_Returns _ _ _ _ _ Hcols Hcol) as (Hcol_for & Hcols' & _).
  specialize (Hfiled Hkeep).
  unfold after_merger_dividend. split; [exact Hdates'|]. split; [exact Hcols'|].
  simpl. split; [|done]. apply sched_all_append; [done|]. apply Hfiled; auto.
Qed.

(** Every correction of every schedule that [assemble] returns arose from a
    retained record among those it was given. *)
Lemma assemble_sched_all splits mergers dividends result :
  (∀ r, r ∈ splits ++ mergers ++ dividends →
        start_date ≤ effective_date r → filed_ok P dates assets r) →
  assemble dates assets start_date p v splits mergers dividends = Returns result →
  ∀ name sched, result !! name = Some sched → sched_all P sched.
Proof.
  intros Hfiled. unfold assemble.
  intros (cache0 & Hcache0%populate_date_ixs_ok
          & (st1 & Hst1 & (st2 & Hst2 & [= <-])%bind_Returns)%bind_Returns)%bind_Returns.
  assert (loader_inv P dates assets (LoaderState ∅ ∅ ∅ cache0)) as Hinv0.
  { split; [done|]. split; [|split; apply sched_all_empty].
    intros s c Hs. simpl in Hs. by rewrite lookup_empty in Hs. }
  assert (loader_inv P dates assets st1) as Hinv1.
  { eapply (for_each_invariant (loader_inv P dates assets)); [|exact Hinv0|exact Hst1].
    intros s r s' Hr Hs. apply split_body_inv; [done|].
    apply Hfiled. apply elem_of_app. by left. }
  assert (loader_inv P dates assets st2) as (_ & _ & Hprice & Hvolume).
  { eapply (for_each_invariant (loader_inv P dates assets)); [|exact Hinv1|exact Hst2].
    intros s r s' Hr Hs. apply merger_dividend_body_inv; [done|].
    apply Hfiled. apply elem_of_app. by right. }
  intros name sched.
  destruct p, v; intros Hname;
    repeat match type of Hname with
    | <[?k := _]> _ !! ?n = Some _ =>
        destruct (decide (k = n)) as [<-|?];
        [rewrite lookup_insert_eq in Hname; by injection Hname as <-
        |rewrite lookup_insert_ne in Hname by done]
    end;
    by rewrite lookup_empty in Hname.
Qed.

End passes.

(** ** The loader as a whole *)

Section load.

Variable limit : nat.

(** Past its validation and the conversion of the two end dates, the loader
    is one fetch followed by the assembly under the derived switches. *)
Lemma load_unfold db dates assets
    (include_splits include_mergers include_dividends : bool)
    adjustment_type d0 dl :
  valid_adjustment_type adjustment_type →
  head dates = Some d0 → last dates = Some dl →
  c_int_range d0 → c_int_range dl →
  load_adjustments_from_sqlite limit db dates assets
    include_splits include_mergers include_dividends adjustment_type
  = let p := price_requested adjustment_type in
    let v := volume_requested adjustment_type in
    let* splits :=
      fetch_table limit db Splits
        (if include_splits then _get_split_sids db d0 dl else ∅) d0 dl assets in
    let* mergers :=
      fetch_table limit db Mergers
        (if p && include_mergers then _get_merger_sids db d0 dl else ∅) d0 dl assets in
    let* dividends :=
      fetch_table limit db Dividends
        (if p && include_dividends then _get_dividend_sids db d0 dl else ∅) d0 dl assets in
    assemble dates assets d0 p v splits mergers dividends.
Proof.
  intros Hvalid Hhead Hlast Hd0 Hdl.
  unfold load_adjustments_from_sqlite, price_requested, volume_requested.
  rewrite Hhead, Hlast. simpl from_option.
  assert (bool_decide (adjustment_type = "price")
          || bool_decide (adjustment_type = "volume")
          || bool_decide (adjustment_type = "all") = true) as ->.
  { destruct Hvalid as [->| [->| ->]]; reflexivity. }
  cbn [negb bind].
  rewrite (to_c_int_in_range d0 Hd0). cbn [bind].
  rewrite (to_c_int_in_range dl Hdl). cbn [bind].
  unfold _adjustments.
  destruct (bool_decide (adjustment_type = "all") || bool_decide (adjustment_type = "price"));
    cbn [negb andb];
    destruct (fetch_table limit db Splits _ d0 dl assets) as [splits| |]; cbn [bind]; try done;
    destruct (fetch_table limit db Mergers _ d0 dl assets) as [mergers| |]; cbn [bind]; try done;
    destruct (fetch_table limit db Dividends _ d0 dl assets) as [dividends| |]; cbn [bind];
    done.
Qed.

Lemma load_valid db dates assets
    (include_splits include_mergers include_dividends : bool)
    adjustment_type result :
  load_adjustments_from_sqlite limit db dates assets
    include_splits include_mergers include_dividends adjustment_type
  = Returns result →
  valid_adjustment_type adjustment_type ∧
  ∃ d0 dl, head dates = Some d0 ∧ last dates = Some dl
           ∧ c_int_range d0 ∧ c_int_range dl.
Proof.
  unfold load_adjustments_from_sqlite, valid_adjustment_type.
  destruct (bool_decide (adjustment_type = "price")) eqn:Hp;
    [apply bool_decide_eq_true in Hp|];
    (destruct (bool_decide (adjustment_type = "volume")) eqn:Hv;
     [apply bool_decide_eq_true in Hv|]);
    (destruct (bool_decide (adjustment_type = "all")) eqn:Ha;
     [apply bool_decide_eq_true in Ha|]);
    cbn [orb negb]; try discriminate;
    (destruct (head dates) as [d0|]; [|discriminate]);
    (destruct (last dates) as [dl|];
     [|cbn [from_option bind]; destruct (to_c_int d0); discriminate]);
    cbn [from_option bind];
    intros (? & [-> ?]%to_c_int_Returns & Hrest)%bind_Returns;
    cbn [bind] in Hrest;
    apply bind_Returns in Hrest as (? & [-> ?]%to_c_int_Returns & _);
    (split; [tauto|]); eauto 10.
Qed.

(** What a returning load went through. *)
Lemma load_Returns db dates assets
    (include_splits include_mergers include_dividends : bool)
    adjustment_type result :
  load_adjustments_from_sqlite limit db dates assets
    include_splits include_mergers include_dividends adjustment_type
  = Returns result →
  ∃ d0 dl splits mergers dividends,
    valid_adjustment_type adjustment_type ∧
    head dates = Some d0 ∧ last dates = Some dl ∧
    (∀ r, r ∈ splits ++ mergers ++ dividends →
          sid r ∈ assets ∧ in_range d0 dl r) ∧
    assemble dates assets d0 (price_requested adjustment_type)
      (volume_requested adjustment_type) splits mergers dividends
    = Returns result.
Proof.
  intros Hload.
  destruct (load_valid _ _ _ _ _ _ _ _ Hload)
    as (Hvalid & d0 & dl & Hhead & Hlast & Hd0 & Hdl).
  rewrite (load_unfold _ _ _ _ _ _ _ d0 dl) in Hload by done.
  cbn zeta in Hload.
  apply bind_Returns in Hload as (splits & Hsplits & Hload).
  apply bind_Returns in Hload as (mergers & Hmergers & Hload).
  apply bind_Returns in Hload as (dividends & Hdividends & Hload).
  exists d0, dl, splits, mergers, dividends.
  split; [done|]. split; [done|]. split; [done|]. split; [|done].
  intros r [Hr|[Hr|Hr]%elem_of_app]%elem_of_app.
  - apply (fetch_table_Returns _ _ _ _ _ _ _ _ Hsplits) in Hr. tauto.
  - apply (fetch_table_Returns _ _ _ _ _ _ _ _ Hmergers) in Hr. tauto.
  - apply (fetch_table_Returns _ _ _ _ _ _ _ _ Hdividends) in Hr. tauto.
Qed.

End load.

(** ** The scenario *)

Lemma scenario_load :
  load_adjustments_from_sqlite 999 scenario_db scenario_dates scenario_assets
    true true true "all"
  = Returns scenario_result.
Proof. reflexivity. Qed.

(** C2, as the code has it. On the axes [0, 86400, 172800, 259200] and [101],
    with all categories included and adjustment type 'all', the single split
    record (101, 2.0, 86400) is filed under row 1, the row of 86400 itself:
    the price schedule maps row 1 to the one correction
    Float64Multiply(0, 1, 0, 0, 2.0) and the volume schedule maps row 1 to
    the one correction Float64Multiply(0, 1, 0, 0, 0.5); neither schedule has
    another row. *)
Theorem scenario_split_schedules (limit : nat) :
  (0 < limit)%nat →
  load_adjustments_from_sqlite limit scenario_db scenario_dates scenario_assets
    true true true "all"
  = Returns scenario_result.
Proof.
  intros Hlimit. destruct limit as [|n]; [lia|]. reflexivity.
Qed.

Lemma scenario_split_schedules_witness :
  load_adjustments_from_sqlite 999 scenario_db scenario_dates scenario_assets
    true true true "all"
  = Returns scenario_result.
Proof. apply (scenario_split_schedules 999). lia. Defined.

(** C2, as the specification words it, fails: the load returns, and neither
    the price schedule nor the volume schedule has anything under row 2. *)
Lemma scenario_row_2_empty :
  ¬ (∃ result sched l,
       load_adjustments_from_sqlite 999 scenario_db scenario_dates scenario_assets
         true true true "all" = Returns result ∧
       (result !! "price" = Some sched ∨ result !! "volume" = Some sched) ∧
       sched !! 2 = Some l).
Proof.
  intros (result & sched & l & Hload & Hsched & Hrow).
  rewrite scenario_load in Hload. injection Hload as <-.
  destruct Hsched as [Hsched|Hsched]; vm_compute in Hsched;
    injection Hsched as <-; vm_compute in Hrow; discriminate.
Qed.

(** ** Regions and bounds of the filed corrections *)

Lemma filed_cell_shape dates assets r : filed_ok (cell_shape assets) dates assets r.
Proof.
  intros row col val _ [Hcol _] _. unfold cell_shape. simpl. done.
Qed.

Lemma load_cell_shape limit db dates assets
    (include_splits include_mergers include_dividends : bool)
    adjustment_type result :
  load_adjustments_from_sqlite limit db dates assets
    include_splits include_mergers include_dividends adjustment_type
  = Returns result →
  ∀ name sched, result !! name = Some sched → sched_all (cell_shape assets) sched.
Proof.
  intros (d0 & dl & splits & mergers & dividends & _ & _ & _ & _ & Hasm)%load_Returns.
  eapply assemble_sched_all; [|exact Hasm].
  intros r _ _. apply filed_cell_shape.
Qed.

(** C3, as the specification words it, fails: in the scenario the correction
    filed under row 1 starts at row 0, so it is not the single cell of its
    scheduled row. *)
Lemma correction_region_not_single_cell :
  ¬ (∀ limit db dates assets
       (include_splits include_mergers include_dividends : bool)
       adjustment_type result name sched k l adj,
       load_adjustments_from_sqlite limit db dates assets
         include_splits include_mergers include_dividends adjustment_type
       = Returns result →
       result !! name = Some sched → sched !! k = Some l → adj ∈ l →
       first_row adj = k ∧ last_row adj = k ∧ first_col adj = last_col adj).
Proof.
  intros Hclaim.
  destruct (Hclaim 999%nat scenario_db scenario_dates scenario_assets
              true true true "all" scenario_result "price"
              {[ 1 := [mkFloat64Multiply 0 1 0 0 2%float] ]} 1
              [mkFloat64Multiply 0 1 0 0 2%float]
              (mkFloat64Multiply 0 1 0 0 2%float)
              scenario_load eq_refl eq_refl ltac:(by left)) as [Hfirst _].
  discriminate Hfirst.
Qed.

Lemma searchsorted_right_below dates dt dl :
  last dates = Some dl → dt ≤ dl → dt ∉ dates →
  0 ≤ searchsorted_right dates dt < Z.of_nat (length dates).
Proof.
  intros Hlast Hle Hoff. unfold searchsorted_right.
  pose proof (bisect_right_bounds dates dt (length dates) 0 (length dates) ltac:(lia))
    as [_ Hupper].
  split; [lia|].
  assert (0 < length dates)%nat as Hlen.
  { destruct dates; [discriminate|simpl; lia]. }
  destruct (decide (bisect_right (length dates) dates dt 0 (length dates)
                    = length dates)) as [Htop|Hne]; [|lia].
  apply bisect_right_top in Htop; [|exact Hlen].
  rewrite last_lookup in Hlast.
  replace (pred (length dates)) with (length dates - 1)%nat in Hlast by lia.
  rewrite (list_lookup_total_correct _ _ _ Hlast) in Htop.
  assert (dt = dl) as -> by lia.
  exfalso. apply Hoff. eapply list_elem_of_lookup_2. exact Hlast.
Qed.

Lemma row_for_in_bounds dates dt dl row :
  last dates = Some dl → dt ≤ dl → row_for dates dt row →
  0 ≤ row < Z.of_nat (length dates).
Proof.
  intros Hlast Hle [(i & -> & Hi)|[Hoff ->]].
  - apply lookup_lt_Some in Hi. lia.
  - by eapply searchsorted_right_below.
Qed.

Lemma assemble_indices_in_bounds dates assets start_date p v
    splits mergers dividends dl result :
  last dates = Some dl →
  (∀ r, r ∈ splits ++ mergers ++ dividends → effective_date r ≤ dl) →
  assemble dates assets start_date p v splits mergers dividends = Returns result →
  indices_in_bounds dates assets result.
Proof.
  intros Hlast Hrange Hasm name sched k l adj Hname Hk Hadj.
  pose (P := λ k adj, 0 ≤ k < Z.of_nat (length dates) ∧ cell_shape assets k adj).
  assert (sched_all P sched) as Hall.
  { eapply (assemble_sched_all dates assets start_date p v P); [|exact Hasm|exact Hname].
    intros r Hr _ row col val Hrow Hcol Hval. split.
    - eapply row_for_in_bounds; [exact Hlast| |exact Hrow]. by apply Hrange.
    - by apply (filed_cell_shape dates assets r). }
  specialize (Hall k l Hk). rewrite Forall_forall in Hall.
  destruct (Hall adj Hadj) as (Hrow & Hfirst & Hlast_row & Hcols & Hcol).
  rewrite Hfirst, Hlast_row, <- Hcols. repeat split; lia.
Qed.

(** C8. Every schedule that the assembly returns from fetched records whose
    effective dates are not after the last axis date, and hence every
    schedule that a load returns, has every row key and the row corners of
    every correction within [0, len(dates)) and the column corners of every
    correction within [0, len(assets)). A returned schedule contains only
    records whose sid resolved on the asset axis, so that part of the
    assumption needs no hypothesis. *)
Theorem schedule_indices_in_bounds :
  (∀ dates assets start_date p v splits mergers dividends dl result,
     last dates = Some dl →
     Forall (λ r, effective_date r ≤ dl) (splits ++ mergers ++ dividends) →
     assemble dates assets start_date p v splits mergers dividends = Returns result →
     indices_in_bounds dates assets result) ∧
  (∀ limit db dates assets
     (include_splits include_mergers include_dividends : bool)
     adjustment_type result,
     load_adjustments_from_sqlite limit db dates assets
       include_splits include_mergers include_dividends adjustment_type
     = Returns result →
     indices_in_bounds dates assets result).
Proof.
  split.
  - intros dates assets start_date p v splits mergers dividends dl result
      Hlast Hrange Hasm.
    eapply assemble_indices_in_bounds; [exact Hlast| |exact Hasm].
    by apply Forall_forall.
  - intros limit db dates assets include_splits include_mergers include_dividends
      adjustment_type result
      (d0 & dl & splits & mergers & dividends & _ & _ & Hlast & Hfetched & Hasm)%load_Returns.
    eapply assemble_indices_in_bounds; [exact Hlast| |exact Hasm].
    intros r Hr. by apply Hfetched.
Qed.

Lemma schedule_indices_in_bounds_witness :
  indices_in_bounds scenario_dates scenario_assets scenario_result ∧
  indices_in_bounds scenario_dates scenario_assets scenario_result.
Proof.
  split.
  - apply (proj1 schedule_indices_in_bounds scenario_dates scenario_assets 0
             true true (db_splits scenario_db) [] [] 259200 scenario_result).
    + reflexivity.
    + repeat constructor. simpl. lia.
    + reflexivity.
  - apply (proj2 schedule_indices_in_bounds 999%nat scenario_db scenario_dates
             scenario_assets true true true "all" scenario_result).
    reflexivity.
Defined.

(** ** Output keys and the volume-only scope *)

Lemma assemble_dom dates assets start_date p v splits mergers dividends result :
  assemble dates assets start_date p v splits mergers dividends = Returns result →
  dom result = (if p then {["price"]} else ∅) ∪ (if v then {["volume"]} else ∅).
Proof.
  unfold assemble.
  intros (cache0 & _ & (st1 & _ & (st2 & _ & [= <-])%bind_Returns)%bind_Returns)%bind_Returns.
  destruct p, v; rewrite ?dom_insert_L, ?dom_empty_L;
    rewrite ?(left_id_L ∅ (∪)), ?(right_id_L ∅ (∪)); done.
Qed.

(** C6. With adjustment type 'volume' the two include-flags for mergers and
    dividends have no effect, the merger and dividend tables have no effect,
    and a returned mapping has exactly the key 'volume'. In general a
    returned mapping has the key 'price' exactly for the types 'price' and
    'all', and the key 'volume' exactly for the types 'volume' and 'all'. *)
Theorem volume_scope_and_result_keys limit db dates assets
    (include_splits include_mergers include_dividends : bool) :
  load_adjustments_from_sqlite limit db dates assets
    include_splits include_mergers include_dividends "volume"
  = load_adjustments_from_sqlite limit db dates assets
      include_splits false false "volume" ∧
  load_adjustments_from_sqlite limit db dates assets
    include_splits include_mergers include_dividends "volume"
  = load_adjustments_from_sqlite limit (AdjustmentsDb (db_splits db) [] []) dates assets
      include_splits include_mergers include_dividends "volume" ∧
  ∀ adjustment_type result,
    load_adjustments_from_sqlite limit db dates assets
      include_splits include_mergers include_dividends adjustment_type
    = Returns result →
    ("price" ∈ dom result ↔ adjustment_type = "price" ∨ adjustment_type = "all") ∧
    ("volume" ∈ dom result ↔ adjustment_type = "volume" ∨ adjustment_type = "all") ∧
    (adjustment_type = "volume" → dom result = {["volume"]}).
Proof.
  split; [reflexivity|]. split.
  - unfold load_adjustments_from_sqlite. cbn [bool_decide orb negb].
    change (bool_decide ("volume" = "price")) with false.
    change (bool_decide ("volume" = "all")) with false.
    change (bool_decide ("volume" = "volume")) with true.
    cbn [orb negb].
    destruct (head dates) as [d0|]; [|done]. cbn [from_option bind].
    destruct (to_c_int d0) as [start_date| |]; [|done|done]. cbn [bind].
    destruct (last dates) as [dl|]; [|done]. cbn [from_option bind].
    destruct (to_c_int dl) as [end_date| |]; [|done|done]. cbn [bind].
    unfold _adjustments. rewrite !fetch_table_no_sids. reflexivity.
  - intros adjustment_type result
      (d0 & dl & splits & mergers & dividends & Hvalid & _ & _ & _
       & Hdom%assemble_dom)%load_Returns.
    rewrite Hdom.
    destruct Hvalid as [->|[->| ->]]; vm_compute price_requested;
      vm_compute volume_requested;
      rewrite ?(left_id_L ∅ (∪)), ?(right_id_L ∅ (∪)),
        ?elem_of_union, !elem_of_singleton;
      repeat split; intros; try done; try (by left); try (by right);
      intuition discriminate.
Qed.

Lemma volume_scope_and_result_keys_witness :
  "volume" ∈ dom scenario_result.
Proof.
  apply (proj2 (proj2 (volume_scope_and_result_keys 999 scenario_db scenario_dates
                         scenario_assets true true true)) "all" scenario_result).
  - reflexivity.
  - by right.
Defined.

(** ** Range exclusivity *)

Lemma table_restrict start_date end_date db t :
  table (restrict_db start_date end_date db) t
  = filter (in_range start_date end_date) (table db t).
Proof. by destruct t. Qed.

Lemma filter_in_range_idemp start_date end_date (rows : list adjustment_row) :
  filter (in_range start_date end_date) (filter (in_range start_date end_date) rows)
  = filter (in_range start_date end_date) rows.
Proof.
  induction rows as [|r rows IH]; [done|].
  rewrite (filter_cons _ r rows). case_decide as Hr; [|exact IH].
  rewrite filter_cons_True by done. by rewrite IH.
Qed.

Lemma ADJ_QUERY_restrict rows params start_date end_date :
  ADJ_QUERY (filter (in_range start_date end_date) rows) params start_date end_date
  = ADJ_QUERY rows params start_date end_date.
Proof.
  unfold ADJ_QUERY. induction rows as [|r rows IH]; [done|].
  rewrite !(filter_cons _ r rows).
  destruct (decide (in_range start_date end_date r)) as [Hr|Hr].
  - rewrite filter_cons. rewrite IH. by repeat case_decide.
  - rewrite IH. rewrite decide_False by tauto. done.
Qed.

Lemma chunked_fetch_restrict limit rows start_date end_date fuel :
  ∀ to_query executed results,
  chunked_fetch limit fuel (filter (in_range start_date end_date) rows)
    start_date end_date to_query executed results
  = chunked_fetch limit fuel rows start_date end_date to_query executed results.
Proof.
  induction fuel as [|fuel IH]; intros [|a rest] executed results; try done.
  cbn [chunked_fetch]. by rewrite ADJ_QUERY_restrict, IH.
Qed.

Lemma fetch_table_restrict limit db t sids start_date end_date assets :
  fetch_table limit (restrict_db start_date end_date db) t sids start_date end_date assets
  = fetch_table limit db t sids start_date end_date assets.
Proof. unfold fetch_table. by rewrite table_restrict, chunked_fetch_restrict. Qed.

Lemma get_sids_restrict db t start_date end_date :
  _get_sids_from_table (restrict_db start_date end_date db) t start_date end_date
  = _get_sids_from_table db t start_date end_date.
Proof.
  unfold _get_sids_from_table. by rewrite table_restrict, filter_in_range_idemp.
Qed.

(** A load sees the store only through its cut to the range of the axis. *)
Lemma load_restrict limit db dates assets
    (include_splits include_mergers include_dividends : bool)
    adjustment_type d0 dl :
  head dates = Some d0 → last dates = Some dl →
  load_adjustments_from_sqlite limit (restrict_db d0 dl db) dates assets
    include_splits include_mergers include_dividends adjustment_type
  = load_adjustments_from_sqlite limit db dates assets
      include_splits include_mergers include_dividends adjustment_type.
Proof.
  intros Hhead Hlast. unfold load_adjustments_from_sqlite.
  destruct (negb _); [done|].
  rewrite Hhead, Hlast. cbn [from_option bind].
  destruct (to_c_int d0) as [start_date| |] eqn:Hd0; [|done|done].
  apply to_c_int_Returns in Hd0 as [-> _]. cbn [bind].
  destruct (to_c_int dl) as [end_date| |] eqn:Hdl; [|done|done].
  apply to_c_int_Returns in Hdl as [-> _]. cbn [bind].
  unfold _adjustments, _get_split_sids, _get_merger_sids, _get_dividend_sids.
  by rewrite !get_sids_restrict, !fetch_table_restrict.
Qed.

Lemma restrict_add_row start_date end_date t r db :
  ¬ in_range start_date end_date r →
  restrict_db start_date end_date (add_row t r db) = restrict_db start_date end_date db.
Proof.
  intros Hout. unfold restrict_db.
  destruct t; simpl; by rewrite filter_cons_False.
Qed.

(** C7. A record whose effective date is before the start date leaves every
    dictionary of the loader as it was, in either pass; a load depends on the
    store only through the records whose effective dates lie in the
    inclusive range from the first to the last axis date; so a record dated
    outside that range, in any table, changes nothing in what a load for
    that range returns. *)
Theorem out_of_range_records_contribute_nothing :
  (∀ dates assets start_date p v st r,
     effective_date r < start_date →
     split_body dates assets start_date p v st r = Returns st ∧
     merger_dividend_body dates assets start_date st r = Returns st) ∧
  (∀ limit db db' dates assets
     (include_splits include_mergers include_dividends : bool)
     adjustment_type d0 dl,
     head dates = Some d0 → last dates = Some dl →
     restrict_db d0 dl db = restrict_db d0 dl db' →
     load_adjustments_from_sqlite limit db dates assets
       include_splits include_mergers include_dividends adjustment_type
     = load_adjustments_from_sqlite limit db' dates assets
         include_splits include_mergers include_dividends adjustment_type) ∧
  (∀ limit db dates assets
     (include_splits include_mergers include_dividends : bool)
     adjustment_type d0 dl t r,
     head dates = Some d0 → last dates = Some dl →
     effective_date r < d0 ∨ dl < effective_date r →
     load_adjustments_from_sqlite limit (add_row t r db) dates assets
       include_splits include_mergers include_dividends adjustment_type
     = load_adjustments_from_sqlite limit db dates assets
         include_splits include_mergers include_dividends adjustment_type).
Proof.
  split; [|split].
  - intros dates assets start_date p v st r Hearly.
    split; [by apply split_body_skip|by apply merger_dividend_body_skip].
  - intros limit db db' dates assets include_splits include_mergers include_dividends
      adjustment_type d0 dl Hhead Hlast Hsame.
    rewrite <- (load_restrict limit db dates assets _ _ _ _ d0 dl Hhead Hlast).
    rewrite <- (load_restrict limit db' dates assets _ _ _ _ d0 dl Hhead Hlast).
    by rewrite Hsame.
  - intros limit db dates assets include_splits include_mergers include_dividends
      adjustment_type d0 dl t r Hhead Hlast Hout.
    rewrite <- (load_restrict limit (add_row t r db) dates assets _ _ _ _ d0 dl Hhead Hlast).
    rewrite <- (load_restrict limit db dates assets _ _ _ _ d0 dl Hhead Hlast).
    rewrite restrict_add_row; [done|]. unfold in_range. lia.
Qed.

Lemma out_of_range_records_contribute_nothing_witness :
  split_body scenario_dates scenario_assets 0 true true scenario_state
    (AdjustmentRow 101 3%float (-86400)) = Returns scenario_state ∧
  load_adjustments_from_sqlite 999
    (add_row Splits (AdjustmentRow 101 3%float 345600) scenario_db)
    scenario_dates scenario_assets true true true "all"
  = load_adjustments_from_sqlite 999 scenario_db
      scenario_dates scenario_assets true true true "all" ∧
  load_adjustments_from_sqlite 999
    (add_row Mergers (AdjustmentRow 101 3%float (-86400)) scenario_db)
    scenario_dates scenario_assets true true true "all"
  = load_adjustments_from_sqlite 999 scenario_db
      scenario_dates scenario_assets true true true "all".
Proof.
  destruct out_of_range_records_contribute_nothing as (Hskip & Hsame & Hadd).
  split; [|split].
  - apply (Hskip scenario_dates scenario_assets 0 true true scenario_state
             (AdjustmentRow 101 3%float (-86400))). simpl. lia.
  - apply (Hsame 999%nat _ scenario_db scenario_dates scenario_assets
             true true true "all" 0 259200); reflexivity.
  - apply (Hadd 999%nat scenario_db scenario_dates scenario_assets
             true true true "all" 0 259200 Mergers (AdjustmentRow 101 3%float (-86400)));
      [reflexivity|reflexivity|simpl; lia].
Defined.

(** ** What each record contributes *)

Lemma setdefault_append_appended m k x : appended m (setdefault_append m k x) k x.
Proof.
  split; [apply setdefault_append_lookup|].
  intros k' Hne. by apply setdefault_append_lookup_ne.
Qed.

(** What one round of either loop does for a retained record whose column
    resolves, from any state of the dictionaries. *)
Lemma loop_body_contributions dates assets start_date p v st r col cols' :
  start_date ≤ effective_date r →
  lookup_asset (asset_ixs st) assets (sid r) = Returns (col, cols') →
  let row := (_lookup_dt (date_ixs st) (effective_date r) dates).1 in
  ((v = true → PrimFloat.eqb (ratio r) 0 = false) →
   ∃ st',
     split_body dates assets start_date p v st r = Returns st' ∧
     (if p
      then appended (price_adjustments st) (price_adjustments st') row
             (mkFloat64Multiply 0 row col col (ratio r))
      else price_adjustments st' = price_adjustments st) ∧
     (if v
      then appended (volume_adjustments st) (volume_adjustments st') row
             (mkFloat64Multiply 0 row col col (1 / ratio r)%float)
      else volume_adjustments st' = volume_adjustments st)) ∧
  (∃ st',
     merger_dividend_body dates assets start_date st r = Returns st' ∧
     appended (price_adjustments st) (price_adjustments st') row
       (mkFloat64Multiply 0 row col col (ratio r)) ∧
     volume_adjustments st' = volume_adjustments st) ∧
  (∀ r' st', merger_dividend_body dates assets start_date st r' = Returns st' →
             volume_adjustments st' = volume_adjustments st).
Proof.
  intros Hkeep Hcol row. split; [|split].
  - intros Hinv. eexists. split; [by apply split_body_run|].
    unfold after_split. simpl. fold row.
    split; [destruct p|destruct v]; auto using setdefault_append_appended.
  - eexists. split; [by apply merger_dividend_body_run|].
    unfold after_merger_dividend. simpl. fold row.
    split; [apply setdefault_append_appended|done].
  - intros r' st' [[_ ->]|(_ & ? & ? & _ & ->)]%merger_dividend_body_Returns; done.
Qed.

Lemma populate_date_ixs_terminates dates : ∀ i m,
  Forall c_int_range dates → ∃ c, populate_date_ixs i dates m = Returns c.
Proof.
  induction dates as [|d rest IH]; intros i m Hall; simpl; [eauto|].
  apply Forall_cons in Hall as [Hd Hrest].
  rewrite (to_c_int_in_range d Hd). simpl. by apply IH.
Qed.

(** ** Returning loads *)

Section returning.

Variables (dates assets : list Z) (start_date : Z) (p v : bool).
Hypothesis assets_unique : NoDup assets.

Lemma for_each_split_returns splits :
  (∀ r, r ∈ splits →
        sid r ∈ assets ∧ (v = true → PrimFloat.eqb (ratio r) 0 = false)) →
  ∀ st, ∃ st', for_each (split_body dates assets start_date p v) splits st
               = Returns st'.
Proof.
  induction splits as [|x rest IH]; intros Hall st; simpl; [eauto|].
  destruct (Hall x ltac:(by left)) as [Hsid Hinv].
  assert (∃ st1, split_body dates assets start_date p v st x = Returns st1)
    as [st1 ->].
  { destruct (decide (effective_date x < start_date)) as [Hearly|Hkeep].
    - rewrite split_body_skip by done. eauto.
    - destruct (lookup_asset_unique assets (asset_ixs st) (sid x) assets_unique Hsid)
        as [[col cols'] Hcol].
      rewrite (split_body_run _ _ _ _ _ _ _ col cols') by (done || lia). eauto. }
  simpl. apply IH. intros y Hy. apply Hall. by right.
Qed.

Lemma for_each_merger_dividend_returns records :
  (∀ r, r ∈ records → sid r ∈ assets) →
  ∀ st, ∃ st', for_each (merger_dividend_body dates assets start_date) records st
               = Returns st'.
Proof.
  induction records as [|x rest IH]; intros Hall st; simpl; [eauto|].
  assert (∃ st1, merger_dividend_body dates assets start_date st x = Returns st1)
    as [st1 ->].
  { destruct (decide (effective_date x < start_date)) as [Hearly|Hkeep].
    - rewrite merger_dividend_body_skip by done. eauto.
    - destruct (lookup_asset_unique assets (asset_ixs st) (sid x) assets_unique)
        as [[col cols'] Hcol]; [apply Hall; by left|].
      rewrite (merger_dividend_body_run _ _ _ _ _ col cols') by (done || lia). eauto. }
  simpl. apply IH. intros y Hy. apply Hall. by right.
Qed.

End returning.

(** A load over a well-formed request returns schedules: a valid adjustment
    type, a positive chunk limit, a non-empty axis of dates that fit a C int,
    an asset axis without repetition and, when volume output is on, no zero
    ratio in the split table. *)
Lemma load_returns limit db dates assets
    (include_splits include_mergers include_dividends : bool) adjustment_type :
  valid_adjustment_type adjustment_type →
  (0 < limit)%nat → dates ≠ [] → Forall c_int_range dates → NoDup assets →
  (volume_requested adjustment_type = true →
   ∀ r, r ∈ db_splits db → PrimFloat.eqb (ratio r) 0 = false) →
  ∃ result,
    load_adjustments_from_sqlite limit db dates assets
      include_splits include_mergers include_dividends adjustment_type
    = Returns result.
Proof.
  intros Hvalid Hlimit Hne Hdates Hnodup Hratios.
  destruct (head dates) as [d0|] eqn:Hhead; [|by destruct dates].
  destruct (proj2 (last_is_Some dates) Hne) as [dl Hlast].
  rewrite Forall_forall in Hdates.
  assert (c_int_range d0) as Hd0.
  { apply Hdates. destruct dates; [discriminate|]. injection Hhead as ->. by left. }
  assert (c_int_range dl) as Hdl.
  { apply Hdates. rewrite last_lookup in Hlast. by eapply list_elem_of_lookup_2. }
  rewrite (load_unfold limit db dates assets _ _ _ _ d0 dl) by done. cbn zeta.
  edestruct (fetch_table_terminates limit db Splits) as [splits Hsplits]; [exact Hlimit|].
  rewrite Hsplits. cbn [bind].
  edestruct (fetch_table_terminates limit db Mergers) as [mergers Hmergers];
    [exact Hlimit|].
  rewrite Hmergers. cbn [bind].
  edestruct (fetch_table_terminates limit db Dividends) as [dividends Hdividends];
    [exact Hlimit|].
  rewrite Hdividends. cbn [bind]. unfold assemble.
  destruct (populate_date_ixs_terminates dates 0 ∅) as [cache0 ->];
    [by apply Forall_forall|].
  cbn [bind].
  edestruct (for_each_split_returns dates assets d0) as [st1 ->]; [exact Hnodup| |].
  { intros r Hr. apply (fetch_table_Returns _ _ _ _ _ _ _ _ Hsplits) in Hr.
    split; [tauto|]. intros Hv. apply Hratios; [exact Hv|]. apply Hr. }
  cbn [bind].
  edestruct (for_each_merger_dividend_returns dates assets d0) as [st2 ->];
    [exact Hnodup| |].
  { intros r [Hr|Hr]%elem_of_app.
    - apply (fetch_table_Returns _ _ _ _ _ _ _ _ Hmergers) in Hr. tauto.
    - apply (fetch_table_Returns _ _ _ _ _ _ _ _ Hdividends) in Hr. tauto. }
  cbn [bind]. eauto.
Qed.

(** ** Division by a zero ratio *)

(** The first pass stops with a division by zero as soon as volume output is
    on and some retained record has a zero ratio, provided every record's
    column resolves. *)
Lemma for_each_split_zero dates assets start_date p splits :
  NoDup assets →
  (∀ r, r ∈ splits → sid r ∈ assets ∧ start_date ≤ effective_date r) →
  (∃ r, r ∈ splits ∧ PrimFloat.eqb (ratio r) 0 = true) →
  ∀ st, for_each (split_body dates assets start_date p true) splits st
        = Raises ZeroDivisionError.
Proof.
  intros Hnodup. induction splits as [|x rest IH]; intros Hall (r & Hr & Hzero) st.
  - by apply elem_of_nil in Hr.
  - destruct (Hall x ltac:(by left)) as [Hsid Hkeep].
    destruct (lookup_asset_unique assets (asset_ixs st) (sid x) Hnodup Hsid)
      as [[col cols'] Hcol].
    simpl. destruct (PrimFloat.eqb (ratio x) 0) eqn:Hx.
    + by rewrite (split_body_zero dates assets start_date p true st x _ Hkeep Hcol).
    + rewrite (split_body_run dates assets start_date p true st x col cols' Hkeep Hcol)
        by done.
      simpl. apply IH.
      * intros y Hy. apply Hall. by right.
      * apply elem_of_cons in Hr as [->|Hr]; [congruence|eauto].
Qed.

(** C10. The volume multiplier of a split is 1.0/ratio with no guard: for a
    ratio that is not zero the division returns 1/ratio, and a load with
    volume output on, over a well-formed request (a positive chunk limit,
    dates that fit a C int, an asset axis without repetition), whose split
    table holds a record with a zero ratio for a requested asset and with an
    effective date in the range of the axis, raises ZeroDivisionError
    instead of returning schedules. *)
Theorem zero_split_ratio_raises :
  (∀ r, PrimFloat.eqb r 0 = false → inverse_ratio r = Returns (1 / r)%float) ∧
  (∀ limit db dates assets (include_mergers include_dividends : bool)
     adjustment_type d0 dl r,
     (0 < limit)%nat → NoDup assets → Forall c_int_range dates →
     head dates = Some d0 → last dates = Some dl →
     adjustment_type = "volume" ∨ adjustment_type = "all" →
     r ∈ db_splits db → sid r ∈ assets → in_range d0 dl r →
     PrimFloat.eqb (ratio r) 0 = true →
     load_adjustments_from_sqlite limit db dates assets
       true include_mergers include_dividends adjustment_type
     = Raises ZeroDivisionError).
Proof.
  split.
  - intros r Hnz. unfold inverse_ratio. by rewrite Hnz.
  - intros limit db dates assets include_mergers include_dividends adjustment_type
      d0 dl r Hlimit Hnodup Hdates Hhead Hlast Htype Hr Hsid Hrange Hzero.
    rewrite Forall_forall in Hdates.
    assert (c_int_range d0) as Hd0.
    { apply Hdates. destruct dates; [discriminate|]. injection Hhead as ->. by left. }
    assert (c_int_range dl) as Hdl.
    { apply Hdates. rewrite last_lookup in Hlast. by eapply list_elem_of_lookup_2. }
    rewrite (load_unfold limit db dates assets _ _ _ _ d0 dl)
      by (try done; unfold valid_adjustment_type; tauto).
    cbn zeta.
    assert (volume_requested adjustment_type = true) as ->
      by (destruct Htype as [->| ->]; reflexivity).
    destruct (fetch_table_terminates limit db Splits (_get_split_sids db d0 dl)
                d0 dl assets Hlimit) as [splits Hsplits].
    rewrite Hsplits. cbn [bind].
    edestruct (fetch_table_terminates limit db Mergers) as [mergers ->]; [exact Hlimit|].
    cbn [bind].
    edestruct (fetch_table_terminates limit db Dividends) as [dividends ->]; [exact Hlimit|].
    cbn [bind]. unfold assemble.
    destruct (populate_date_ixs_terminates dates 0 ∅) as [cache0 ->];
      [by apply Forall_forall|].
    cbn [bind].
    rewrite (for_each_split_zero dates assets d0 _ splits Hnodup); [done| |].
    + intros x Hx. apply (fetch_table_Returns _ _ _ _ _ _ _ _ Hsplits) in Hx.
      unfold in_range in Hx. tauto.
    + exists r. split; [|exact Hzero].
      apply (fetch_table_Returns _ _ _ _ _ _ _ _ Hsplits).
      split; [exact Hr|]. split; [exact Hsid|]. split; [|exact Hrange].
      unfold _get_split_sids, _get_sids_from_table.
      apply elem_of_list_to_set, list_elem_of_fmap. exists r. split; [done|].
      apply list_elem_of_filter. done.
Qed.

Lemma zero_split_ratio_raises_witness :
  inverse_ratio 2 = Returns 0.5%float ∧
  load_adjustments_from_sqlite 999 zero_ratio_db scenario_dates scenario_assets
    true true true "all"
  = Raises ZeroDivisionError.
Proof.
  split.
  - apply (proj1 zero_split_ratio_raises 2%float). reflexivity.
  - apply (proj2 zero_split_ratio_raises 999%nat zero_ratio_db scenario_dates
             scenario_assets true true "all" 0 259200 (AdjustmentRow 101 0%float 86400)).
    + lia.
    + apply NoDup_singleton.
    + unfold scenario_dates, c_int_range, INT_MIN, INT_MAX. repeat constructor; lia.
    + reflexivity.
    + reflexivity.
    + by right.
    + by left.
    + by left.
    + unfold in_range. simpl. lia.
    + reflexivity.
Defined.

(** ** The window *)

(** C9. Against the window engine as the specification describes it:
    advancing to a row strictly before the cursor raises OrderingError,
    whatever the state of the window; and when an advance to a row returns a
    view, advancing again to the same row returns the same view and leaves
    the window, its baseline buffer included, exactly as the first advance
    left it. *)
Theorem advance_to_monotonic (E : Type) (mul : E → float → E) :
  (∀ (w : window_state E) row,
     row < cursor E w → advance_to E mul w row = Raises OrderingError) ∧
  (∀ (w w' : window_state E) row view,
     advance_to E mul w row = Returns (view, w') →
     advance_to E mul w' row = Returns (view, w')).
Proof.
  split.
  - intros w row Hback. unfold advance_to. by rewrite decide_True.
  - intros w w' row view. unfold advance_to at 1.
    case_decide as Hback; [discriminate|].
    assert (materialize E mul w row = Returns (view, w') →
            advance_to E mul w' row = Returns (view, w')) as Hfresh.
    { unfold materialize. case_decide; [discriminate|].
      intros [= <- <-]. unfold advance_to. simpl.
      rewrite decide_False by lia. by rewrite decide_True. }
    destruct (cached_view E w) as [[at_row cached]|] eqn:Hcached; [|exact Hfresh].
    case_decide as Hsame; [|exact Hfresh].
    intros [= <- <-]. unfold advance_to.
    rewrite decide_False by done. rewrite Hcached. by rewrite decide_True.
Qed.

Lemma advance_to_monotonic_witness :
  advance_to float PrimFloat.mul
    (WindowState float [[20%float]; [40%float]]
       {[ 1 := [mkFloat64Multiply 0 1 0 0 2%float] ]} 1 1
       (Some (1, [[40%float]]))) 0
  = Raises OrderingError ∧
  advance_to float PrimFloat.mul
    (WindowState float [[20%float]; [40%float]]
       {[ 1 := [mkFloat64Multiply 0 1 0 0 2%float] ]} 1 1
       (Some (1, [[40%float]]))) 1
  = Returns ([[40%float]],
             WindowState float [[20%float]; [40%float]]
               {[ 1 := [mkFloat64Multiply 0 1 0 0 2%float] ]} 1 1
               (Some (1, [[40%float]]))).
Proof.
  split.
  - apply (proj1 (advance_to_monotonic float PrimFloat.mul)). simpl. lia.
  - apply (proj2 (advance_to_monotonic float PrimFloat.mul) scenario_window).
    reflexivity.
Defined.

(** * Further properties of the loader *)

(** ** Where an exception comes from *)

Lemma bind_Raises {A B} (c : outcome A) (k : A → outcome B) e :
  bind c k = Raises e ↔ c = Raises e ∨ ∃ a, c = Returns a ∧ k a = Raises e.
Proof.
  split.
  - destruct c as [a|e'|]; simpl; intros Hk.
    + right. exists a. done.
    + left. by injection Hk as ->.
    + discriminate Hk.
  - intros [->|(a & -> & Hk)]; done.
Qed.

Lemma bind_Diverges {A B} (c : outcome A) (k : A → outcome B) :
  bind c k = Diverges ↔ c = Diverges ∨ ∃ a, c = Returns a ∧ k a = Diverges.
Proof.
  split.
  - destruct c as [a|e'|]; simpl; intros Hk.
    + right. exists a. done.
    + discriminate Hk.
    + by left.
  - intros [->|(a & -> & Hk)]; done.
Qed.

(** A loop that raises raised in one of its rounds, from a state that the
    rounds before it had kept within the invariant. *)
Lemma for_each_Raises {S A} (I : S → Prop) (body : S → A → outcome S) items :
  (∀ s x s', x ∈ items → I s → body s x = Returns s' → I s') →
  ∀ s e, I s → for_each body items s = Raises e →
  ∃ x s', x ∈ items ∧ I s' ∧ body s' x = Raises e.
Proof.
  induction items as [|x rest IH]; intros Hbody s e Hs; simpl; [discriminate|].
  intros [Hx|(s1 & Hx & Hrest)]%bind_Raises.
  - exists x, s. split; [by left|done].
  - destruct (IH (λ s0 y s0' Hy, Hbody s0 y s0' (list_elem_of_further _ _ _ Hy))
                s1 e (Hbody s x s1 ltac:(by left) Hs Hx) Hrest)
      as (y & s' & Hy & Hs' & Hraise).
    exists y, s'. split; [by right|done].
Qed.

Lemma for_each_Diverges {S A} (body : S → A → outcome S) items :
  ∀ s, for_each body items s = Diverges →
  ∃ x s', x ∈ items ∧ body s' x = Diverges.
Proof.
  induction items as [|x rest IH]; intros s; simpl; [discriminate|].
  intros [Hx|(s1 & Hx & (y & s' & Hy & Hdiv)%IH)]%bind_Diverges.
  - exists x, s. split; [by left|done].
  - exists y, s'. split; [by right|done].
Qed.

Lemma positions_present key index i : key ∈ index → positions key index i ≠ [].
Proof.
  revert i. induction index as [|a rest IH]; intros i Hin; simpl.
  - by apply elem_of_nil in Hin.
  - case_decide as Ha; [done|].
    apply elem_of_cons in Hin as [->|Hin]; [done|]. by apply IH.
Qed.

(** [get_loc] raises [KeyError] only for an absent label and [TypeError]
    only on an axis that repeats a label; it raises nothing else. *)
Lemma get_loc_Raises assets key e :
  get_loc assets key = Raises e →
  (e = KeyError ∧ key ∉ assets) ∨ (e = TypeError ∧ key ∈ assets ∧ ¬ NoDup assets).
Proof.
  unfold get_loc. intros Hloc.
  destruct (decide (key ∈ assets)) as [Hin|Hout].
  - right. destruct (positions key assets 0) as [|x [|y rest]] eqn:Hpos.
    + by destruct (positions_present key assets 0 Hin).
    + discriminate.
    + injection Hloc as <-. split; [done|]. split; [done|]. intros Hnodup.
      destruct (positions_unique key assets 0 Hnodup Hin) as [c Hc]. congruence.
  - left. rewrite positions_absent in Hloc by done. injection Hloc as <-. done.
Qed.

Lemma get_loc_not_Diverges assets key : get_loc assets key ≠ Diverges.
Proof. unfold get_loc. by destruct (positions key assets 0) as [|x [|y rest]]. Qed.

Lemma lookup_asset_Raises cache assets key e :
  lookup_asset cache assets key = Raises e → get_loc assets key = Raises e.
Proof.
  unfold lookup_asset. destruct (cache !! key); [discriminate|].
  intros [Hloc|(ix & _ & Hret)]%bind_Raises; [exact Hloc|discriminate].
Qed.

Lemma lookup_asset_not_Diverges cache assets key :
  lookup_asset cache assets key ≠ Diverges.
Proof.
  unfold lookup_asset. destruct (cache !! key); [discriminate|].
  intros [Hloc|(ix & _ & Hret)]%bind_Diverges; [|discriminate].
  by apply get_loc_not_Diverges in Hloc.
Qed.

Section body_outcomes.

Variables (dates assets : list Z) (start_date : Z) (p v : bool).

Lemma split_body_Raises st r e :
  split_body dates assets start_date p v st r = Raises e →
  start_date ≤ effective_date r ∧
  (get_loc assets (sid r) = Raises e ∨
   (e = ZeroDivisionError ∧ v = true ∧ PrimFloat.eqb (ratio r) 0 = true)).
Proof.
  unfold split_body. case_decide as Hearly; [discriminate|].
  destruct (_lookup_dt (date_ixs st) (effective_date r) dates) as [row dates'].
  intros Hraise. split; [lia|].
  apply bind_Raises in Hraise as [Hcol%lookup_asset_Raises|([col cols'] & _ & Hraise)];
    [by left|].
  right. apply bind_Raises in Hraise as [Hvol|(vol & _ & Hret)]; [|discriminate].
  destruct v; [|discriminate].
  apply bind_Raises in Hvol as [Hinv|(inv & _ & Hret)]; [|discriminate].
  unfold inverse_ratio in Hinv.
  destruct (PrimFloat.eqb (ratio r) 0); [|discriminate]. by injection Hinv as <-.
Qed.

Lemma merger_dividend_body_Raises st r e :
  merger_dividend_body dates assets start_date st r = Raises e →
  start_date ≤ effective_date r ∧ get_loc assets (sid r) = Raises e.
Proof.
  unfold merger_dividend_body. case_decide as Hearly; [discriminate|].
  destruct (_lookup_dt (date_ixs st) (effective_date r) dates) as [row dates'].
  intros [Hcol%lookup_asset_Raises|([col cols'] & _ & Hret)]%bind_Raises;
    [|discriminate].
  split; [lia|done].
Qed.

Lemma split_body_not_Diverges st r :
  split_body dates assets start_date p v st r ≠ Diverges.
Proof.
  unfold split_body. case_decide as Hearly; [discriminate|].
  destruct (_lookup_dt (date_ixs st) (effective_date r) dates) as [row dates'].
  intros [Hcol|([col cols'] & _ & Hdiv)]%bind_Diverges.
  - by apply lookup_asset_not_Diverges in Hcol.
  - apply bind_Diverges in Hdiv as [Hvol|(vol & _ & Hret)]; [|discriminate].
    destruct v; [|discriminate].
    apply bind_Diverges in Hvol as [Hinv|(inv & _ & Hret)]; [|discriminate].
    unfold inverse_ratio in Hinv. by destruct (PrimFloat.eqb (ratio r) 0).
Qed.

Lemma merger_dividend_body_not_Diverges st r :
  merger_dividend_body dates assets start_date st r ≠ Diverges.
Proof.
  unfold merger_dividend_body. case_decide as Hearly; [discriminate|].
  destruct (_lookup_dt (date_ixs st) (effective_date r) dates) as [row dates'].
  intros [Hcol|([col cols'] & _ & Hret)]%bind_Diverges; [|discriminate].
  by apply lookup_asset_not_Diverges in Hcol.
Qed.

End body_outcomes.

Lemma populate_date_ixs_Returns dates : ∀ i m c,
  populate_date_ixs i dates m = Returns c → Forall c_int_range dates.
Proof.
  induction dates as [|d rest IH]; intros i m c; simpl; [constructor|].
  intros (dt & [-> Hd]%to_c_int_Returns & Hrest%IH)%bind_Returns. by constructor.
Qed.

Lemma populate_date_ixs_Raises dates : ∀ i m e,
  populate_date_ixs i dates m = Raises e →
  e = OverflowError ∧ ¬ Forall c_int_range dates.
Proof.
  induction dates as [|d rest IH]; intros i m e; simpl; [discriminate|].
  unfold to_c_int. case_decide as Hd; simpl.
  - intros [-> Hrest]%IH. split; [done|]. by intros [_ ?]%Forall_cons.
  - intros [= <-]. split; [done|]. by intros [? _]%Forall_cons.
Qed.

Lemma populate_date_ixs_not_Diverges dates : ∀ i m,
  populate_date_ixs i dates m ≠ Diverges.
Proof.
  induction dates as [|d rest IH]; intros i m; simpl; [discriminate|].
  unfold to_c_int. case_decide; simpl; [apply IH|discriminate].
Qed.

Lemma chunked_fetch_not_Raises limit rows start_date end_date fuel :
  ∀ to_query executed results e,
  chunked_fetch limit fuel rows start_date end_date to_query executed results
  ≠ Raises e.
Proof.
  induction fuel as [|fuel IH]; intros [|a rest] executed results e; try done.
  cbn [chunked_fetch]. apply IH.
Qed.

Lemma fetch_table_not_Raises limit db t sids start_date end_date assets e :
  fetch_table limit db t sids start_date end_date assets ≠ Raises e.
Proof.
  unfold fetch_table.
  intros [Hrun|(out & _ & Hret)]%bind_Raises; [|discriminate].
  by apply chunked_fetch_not_Raises in Hrun.
Qed.

Lemma fetch_table_Diverges limit db t sids start_date end_date assets :
  fetch_table limit db t sids start_date end_date assets = Diverges → limit = 0%nat.
Proof.
  intros Hdiv. destruct limit as [|n]; [done|].
  destruct (fetch_table_terminates (S n) db t sids start_date end_date assets
              ltac:(lia)) as [fetched Hret].
  congruence.
Qed.

Lemma axis_ends (dates : list Z) :
  dates ≠ [] →
  ∃ d0 dl, head dates = Some d0 ∧ last dates = Some dl ∧ d0 ∈ dates ∧ dl ∈ dates.
Proof.
  intros Hne. destruct (proj2 (last_is_Some dates) Hne) as [dl Hlast].
  destruct dates as [|d0 rest]; [done|]. exists d0, dl.
  split; [done|]. split; [done|]. split; [by left|].
  rewrite last_lookup in Hlast. by eapply list_elem_of_lookup_2.
Qed.

Section load_outcomes.

Variables (limit : nat) (db : adjustments_db) (dates assets : list Z).
Variables (include_splits include_mergers include_dividends : bool).
Variable adjustment_type : string.

Lemma load_invalid_type :
  ¬ valid_adjustment_type adjustment_type →
  load_adjustments_from_sqlite limit db dates assets
    include_splits include_mergers include_dividends adjustment_type
  = Raises ValueError.
Proof.
  unfold valid_adjustment_type. intros Hinvalid. unfold load_adjustments_from_sqlite.
  rewrite (bool_decide_eq_false_2 (adjustment_type = "price")) by tauto.
  rewrite (bool_decide_eq_false_2 (adjustment_type = "volume")) by tauto.
  rewrite (bool_decide_eq_false_2 (adjustment_type = "all")) by tauto.
  reflexivity.
Qed.

Lemma load_type_checked :
  valid_adjustment_type adjustment_type →
  negb (bool_decide (adjustment_type = "price")
        || bool_decide (adjustment_type = "volume")
        || bool_decide (adjustment_type = "all")) = false.
Proof. intros [->|[->| ->]]; reflexivity. Qed.

Lemma load_no_dates :
  valid_adjustment_type adjustment_type → dates = [] →
  load_adjustments_from_sqlite limit db dates assets
    include_splits include_mergers include_dividends adjustment_type
  = Raises IndexError.
Proof.
  intros Hvalid ->. unfold load_adjustments_from_sqlite.
  by rewrite load_type_checked.
Qed.

Lemma load_end_overflow d0 dl :
  valid_adjustment_type adjustment_type →
  head dates = Some d0 → last dates = Some dl →
  ¬ (c_int_range d0 ∧ c_int_range dl) →
  load_adjustments_from_sqlite limit db dates assets
    include_splits include_mergers include_dividends adjustment_type
  = Raises OverflowError.
Proof.
  intros Hvalid Hhead Hlast Hout. unfold load_adjustments_from_sqlite.
  rewrite load_type_checked by done. rewrite Hhead, Hlast. cbn [from_option bind].
  unfold to_c_int. case_decide as Hd0; [|done]. cbn [bind].
  case_decide as Hdl; [tauto|done].
Qed.

(** The ways a load can raise. *)
Lemma load_Raises e :
  load_adjustments_from_sqlite limit db dates assets
    include_splits include_mergers include_dividends adjustment_type
  = Raises e →
  (e = ValueError ∧ ¬ valid_adjustment_type adjustment_type) ∨
  (e = IndexError ∧ valid_adjustment_type adjustment_type ∧ dates = []) ∨
  (e = OverflowError ∧ valid_adjustment_type adjustment_type ∧ dates ≠ []
   ∧ ¬ Forall c_int_range dates) ∨
  (valid_adjustment_type adjustment_type ∧ Forall c_int_range dates ∧
   ∃ d0 dl r,
     head dates = Some d0 ∧ last dates = Some dl ∧
     sid r ∈ assets ∧ in_range d0 dl r ∧
     (get_loc assets (sid r) = Raises e ∨
      (e = ZeroDivisionError ∧ volume_requested adjustment_type = true
       ∧ include_splits = true ∧ r ∈ db_splits db
       ∧ PrimFloat.eqb (ratio r) 0 = true))).
Proof.
  intros Hload.
  destruct (decide (adjustment_type = "price" ∨ adjustment_type = "volume"
                    ∨ adjustment_type = "all")) as [Hvalid|Hinvalid];
    [|rewrite load_invalid_type in Hload by done; injection Hload as <-; by left].
  right. destruct (decide (dates = [])) as [Hempty|Hne];
    [rewrite load_no_dates in Hload by done; injection Hload as <-; by left|].
  right. destruct (axis_ends dates Hne) as (d0 & dl & Hhead & Hlast & Hd0_in & Hdl_in).
  destruct (decide (c_int_range d0 ∧ c_int_range dl)) as [[Hd0 Hdl]|Hout].
  2:{ rewrite (load_end_overflow d0 dl) in Hload by done. injection Hload as <-.
      left. split; [done|]. split; [done|]. split; [done|].
      rewrite Forall_forall. intros Hall. apply Hout. split; by apply Hall. }
  rewrite (load_unfold limit db dates assets _ _ _ _ d0 dl) in Hload by done.
  cbn zeta in Hload.
  apply bind_Raises in Hload as [Hf|(splits & Hsplits & Hload)];
    [by apply fetch_table_not_Raises in Hf|].
  apply bind_Raises in Hload as [Hf|(mergers & Hmergers & Hload)];
    [by apply fetch_table_not_Raises in Hf|].
  apply bind_Raises in Hload as [Hf|(dividends & Hdividends & Hload)];
    [by apply fetch_table_not_Raises in Hf|].
  unfold assemble in Hload.
  apply bind_Raises in Hload as [[-> Hpop]%populate_date_ixs_Raises
                                |(cache0 & Hpop%populate_date_ixs_Returns & Hload)];
    [by left|].
  right. split; [done|]. split; [done|]. exists d0, dl.
  apply bind_Raises in Hload as [Hpass1|(st1 & _ & Hload)].
  - apply (for_each_Raises (λ _, True)) in Hpass1 as (r & st & Hr & _ & Hraise);
      [|done|done].
    apply (fetch_table_Returns _ _ _ _ _ _ _ _ Hsplits) in Hr
      as (Hr & Hsid & Hsids & Hrange).
    apply split_body_Raises in Hraise as [_ [Hloc|(-> & Hv & Hzero)]].
    + exists r. eauto 10.
    + exists r. split; [done|]. split; [done|]. split; [done|]. split; [done|].
      right. split; [done|]. split; [done|]. split; [|done].
      destruct include_splits; [done|]. by apply elem_of_empty in Hsids.
  - apply bind_Raises in Hload as [Hpass2|(st2 & _ & Hret)]; [|discriminate].
    apply (for_each_Raises (λ _, True)) in Hpass2 as (r & st & Hr & _ & Hraise);
      [|done|done].
    apply merger_dividend_body_Raises in Hraise as [_ Hloc].
    exists r. split; [done|]. split; [done|].
    apply elem_of_app in Hr as [Hr|Hr].
    + apply (fetch_table_Returns _ _ _ _ _ _ _ _ Hmergers) in Hr. tauto.
    + apply (fetch_table_Returns _ _ _ _ _ _ _ _ Hdividends) in Hr. tauto.
Qed.

Lemma load_Diverges :
  load_adjustments_from_sqlite limit db dates assets
    include_splits include_mergers include_dividends adjustment_type
  = Diverges →
  limit = 0%nat.
Proof.
  intros Hload.
  destruct (decide (adjustment_type = "price" ∨ adjustment_type = "volume"
                    ∨ adjustment_type = "all")) as [Hvalid|Hinvalid];
    [|by rewrite load_invalid_type in Hload].
  destruct (decide (dates = [])) as [Hempty|Hne];
    [by rewrite load_no_dates in Hload|].
  destruct (axis_ends dates Hne) as (d0 & dl & Hhead & Hlast & _ & _).
  destruct (decide (c_int_range d0 ∧ c_int_range dl)) as [[Hd0 Hdl]|Hout];
    [|by rewrite (load_end_overflow d0 dl) in Hload].
  rewrite (load_unfold limit db dates assets _ _ _ _ d0 dl) in Hload by done.
  cbn zeta in Hload.
  apply bind_Diverges in Hload as [Hf|(splits & _ & Hload)];
    [by apply fetch_table_Diverges in Hf|].
  apply bind_Diverges in Hload as [Hf|(mergers & _ & Hload)];
    [by apply fetch_table_Diverges in Hf|].
  apply bind_Diverges in Hload as [Hf|(dividends & _ & Hload)];
    [by apply fetch_table_Diverges in Hf|].
  unfold assemble in Hload. exfalso.
  apply bind_Diverges in Hload as [Hpop|(cache0 & _ & Hload)];
    [by apply populate_date_ixs_not_Diverges in Hpop|].
  apply bind_Diverges in Hload as [Hpass1|(st1 & _ & Hload)].
  - apply for_each_Diverges in Hpass1 as (r & st & _ & Hdiv).
    by apply split_body_not_Diverges in Hdiv.
  - apply bind_Diverges in Hload as [Hpass2|(st2 & _ & Hret)]; [|discriminate].
    apply for_each_Diverges in Hpass2 as (r & st & _ & Hdiv).
    by apply merger_dividend_body_not_Diverges in Hdiv.
Qed.

End load_outcomes.

(** A zero ratio in a fetched split stops a load that files volume
    corrections. *)
Lemma load_zero_ratio limit db dates assets
    (include_mergers include_dividends : bool) adjustment_type d0 dl r :
  (0 < limit)%nat → NoDup assets → Forall c_int_range dates →
  head dates = Some d0 → last dates = Some dl →
  volume_requested adjustment_type = true →
  valid_adjustment_type adjustment_type →
  r ∈ db_splits db → sid r ∈ assets → in_range d0 dl r →
  PrimFloat.eqb (ratio r) 0 = true →
  load_adjustments_from_sqlite limit db dates assets
    true include_mergers include_dividends adjustment_type
  = Raises ZeroDivisionError.
Proof.
  intros Hlimit Hnodup Hdates Hhead Hlast Hvol Hvalid Hr Hsid Hrange Hzero.
  assert (dates ≠ []) as Hne by (intros ->; discriminate).
  destruct (axis_ends dates Hne) as (d0' & dl' & Hhead' & Hlast' & Hd0 & Hdl).
  rewrite Hhead in Hhead'. rewrite Hlast in Hlast'.
  injection Hhead' as <-. injection Hlast' as <-.
  rewrite Forall_forall in Hdates.
  rewrite (load_unfold limit db dates assets _ _ _ _ d0 dl) by auto.
  cbn zeta. rewrite Hvol.
  destruct (fetch_table_terminates limit db Splits (_get_split_sids db d0 dl)
              d0 dl assets Hlimit) as [splits Hsplits].
  rewrite Hsplits. cbn [bind].
  edestruct (fetch_table_terminates limit db Mergers) as [mergers ->]; [exact Hlimit|].
  cbn [bind].
  edestruct (fetch_table_terminates limit db Dividends) as [dividends ->]; [exact Hlimit|].
  cbn [bind]. unfold assemble.
  destruct (populate_date_ixs_terminates dates 0 ∅) as [cache0 ->];
    [by apply Forall_forall|].
  cbn [bind].
  rewrite (for_each_split_zero dates assets d0 _ splits Hnodup); [done| |].
  - intros x Hx. apply (fetch_table_Returns _ _ _ _ _ _ _ _ Hsplits) in Hx.
    unfold in_range in Hx. tauto.
  - exists r. split; [|exact Hzero].
    apply (fetch_table_Returns _ _ _ _ _ _ _ _ Hsplits).
    split; [exact Hr|]. split; [exact Hsid|]. split; [|exact Hrange].
    unfold _get_split_sids, _get_sids_from_table.
    apply elem_of_list_to_set, list_elem_of_fmap. exists r. split; [done|].
    apply list_elem_of_filter. done.
Qed.

(** X1. A load raises ValueError exactly when the adjustment type is none of
    'price', 'volume' and 'all'; the check comes before the date axis and the
    store are looked at, so it wins over an empty axis, dates that do not fit
    a C int, and anything in the tables. *)
Theorem value_error_iff_invalid_type limit db dates assets
    (include_splits include_mergers include_dividends : bool) adjustment_type :
  load_adjustments_from_sqlite limit db dates assets
    include_splits include_mergers include_dividends adjustment_type
  = Raises ValueError
  ↔ ¬ valid_adjustment_type adjustment_type.
Proof.
  split; [|apply load_invalid_type].
  intros [[_ ?]|[[? _]|[[? _]|(_ & _ & d0 & dl & r & _ & _ & _ & _ & Hcause)]]]%load_Raises;
    try done.
  destruct Hcause as [[[? _]|[? _]]%get_loc_Raises|[? _]]; discriminate.
Qed.

(** X2. A load raises IndexError exactly when the adjustment type is valid
    and the date axis is empty. *)
Theorem index_error_iff_no_dates limit db dates assets
    (include_splits include_mergers include_dividends : bool) adjustment_type :
  load_adjustments_from_sqlite limit db dates assets
    include_splits include_mergers include_dividends adjustment_type
  = Raises IndexError
  ↔ valid_adjustment_type adjustment_type ∧ dates = [].
Proof.
  split; [|intros [? ?]; by apply load_no_dates].
  intros [[? _]|[[_ ?]|[[? _]|(_ & _ & d0 & dl & r & _ & _ & _ & _ & Hcause)]]]%load_Raises;
    try done.
  destruct Hcause as [[[? _]|[? _]]%get_loc_Raises|[? _]]; discriminate.
Qed.

(** X3. A load never raises KeyError: a record is only fetched for a sid
    that was taken from the asset axis, so the column lookup of a fetched
    record never misses. *)
Theorem load_never_raises_KeyError limit db dates assets
    (include_splits include_mergers include_dividends : bool) adjustment_type :
  load_adjustments_from_sqlite limit db dates assets
    include_splits include_mergers include_dividends adjustment_type
  ≠ Raises KeyError.
Proof.
  intros [[? _]|[[? _]|[[? _]|(_ & _ & d0 & dl & r & _ & _ & Hsid & _ & Hcause)]]]%load_Raises;
    try done.
  destruct Hcause as [[[_ Hout]|[? _]]%get_loc_Raises|[? _]]; done.
Qed.

(** X5. With a positive chunk limit, a load raises OverflowError exactly when
    the adjustment type is valid and the date axis is not empty and holds a
    date, at any position, that does not fit a C int. *)
Theorem overflow_error_iff_date_out_of_c_int limit db dates assets
    (include_splits include_mergers include_dividends : bool) adjustment_type :
  (0 < limit)%nat →
  load_adjustments_from_sqlite limit db dates assets
    include_splits include_mergers include_dividends adjustment_type
  = Raises OverflowError
  ↔ valid_adjustment_type adjustment_type ∧ dates ≠ []
    ∧ ¬ Forall c_int_range dates.
Proof.
  intros Hlimit. split.
  - intros [[? _]|[[? _]|[[_ ?]|(_ & _ & d0 & dl & r & _ & _ & _ & _ & Hcause)]]]%load_Raises;
      try done.
    destruct Hcause as [[[? _]|[? _]]%get_loc_Raises|[? _]]; discriminate.
  - intros (Hvalid & Hne & Hout).
    destruct (axis_ends dates Hne) as (d0 & dl & Hhead & Hlast & _ & _).
    destruct (decide (c_int_range d0 ∧ c_int_range dl)) as [[Hd0 Hdl]|Hends];
      [|by apply (load_end_overflow _ _ _ _ _ _ _ _ d0 dl)].
    rewrite (load_unfold limit db dates assets _ _ _ _ d0 dl) by done. cbn zeta.
    edestruct (fetch_table_terminates limit db Splits) as [splits ->]; [exact Hlimit|].
    cbn [bind].
    edestruct (fetch_table_terminates limit db Mergers) as [mergers ->]; [exact Hlimit|].
    cbn [bind].
    edestruct (fetch_table_terminates limit db Dividends) as [dividends ->];
      [exact Hlimit|].
    cbn [bind]. unfold assemble.
    destruct (populate_date_ixs 0 dates ∅) as [cache0|e|] eqn:Hpop.
    + by apply populate_date_ixs_Returns in Hpop.
    + by apply populate_date_ixs_Raises in Hpop as [-> _].
    + by apply populate_date_ixs_not_Diverges in Hpop.
Qed.

Lemma overflow_error_iff_date_out_of_c_int_witness :
  load_adjustments_from_sqlite 999 scenario_db [0; 2147483648; 86400] scenario_assets
    true true true "all"
  = Raises OverflowError.
Proof.
  apply (overflow_error_iff_date_out_of_c_int 999 scenario_db [0; 2147483648; 86400]
           scenario_assets true true true "all"); [lia|].
  split; [by right; right|]. split; [done|].
  intros Hall. apply Forall_cons in Hall as [_ Hall].
  apply Forall_cons in Hall as [Hbig _].
  unfold c_int_range, INT_MAX in Hbig. lia.
Defined.

(** X6. A load raises ZeroDivisionError only when volume corrections are
    requested, splits are included, and the split table holds a record with
    a zero ratio for a sid of the asset axis, dated within the range of the
    axis. *)
Theorem zero_division_only_from_zero_split_ratio limit db dates assets
    (include_splits include_mergers include_dividends : bool) adjustment_type :
  load_adjustments_from_sqlite limit db dates assets
    include_splits include_mergers include_dividends adjustment_type
  = Raises ZeroDivisionError →
  volume_requested adjustment_type = true ∧ include_splits = true ∧
  ∃ d0 dl r, head dates = Some d0 ∧ last dates = Some dl ∧
             r ∈ db_splits db ∧ sid r ∈ assets ∧ in_range d0 dl r ∧
             PrimFloat.eqb (ratio r) 0 = true.
Proof.
  intros [[? _]|[[? _]|[[? _]|(_ & _ & d0 & dl & r & Hhead & Hlast & Hsid & Hrange
                                & Hcause)]]]%load_Raises; try done.
  destruct Hcause as [[[? _]|[? _]]%get_loc_Raises|(_ & Hvol & Hinc & Hr & Hzero)];
    try done.
  split; [done|]. split; [done|]. exists d0, dl, r. done.
Qed.

Lemma zero_division_only_from_zero_split_ratio_witness :
  volume_requested "volume" = true ∧ true = true ∧
  ∃ d0 dl r, head scenario_dates = Some d0 ∧ last scenario_dates = Some dl ∧
             r ∈ db_splits zero_ratio_db ∧ sid r ∈ scenario_assets ∧
             in_range d0 dl r ∧ PrimFloat.eqb (ratio r) 0 = true.
Proof.
  apply (zero_division_only_from_zero_split_ratio 999 zero_ratio_db scenario_dates
           scenario_assets true false false "volume").
  reflexivity.
Defined.

(** ** Termination and success *)

Lemma chunked_fetch_no_progress rows start_date end_date fuel :
  ∀ to_query executed results,
  to_query ≠ [] →
  chunked_fetch 0 fuel rows start_date end_date to_query executed results = Diverges.
Proof.
  induction fuel as [|fuel IH]; intros [|a rest] executed results Hne; try done.
  cbn [chunked_fetch]. rewrite Nat.min_0_r. apply IH. done.
Qed.

(** X7. The fetch loop fails to return exactly when the limit is zero and
    there is something to query: every round then binds no parameter and
    leaves the list as it was, however many rounds it is given. With a
    positive limit the loop, and the load around it, always come back. *)
Theorem fetch_loop_stalls_iff_zero_limit :
  (∀ limit rows start_date end_date to_query,
     chunked_fetch limit (length to_query) rows start_date end_date to_query [] []
     = Diverges
     ↔ limit = 0%nat ∧ to_query ≠ []) ∧
  (∀ rows start_date end_date fuel to_query,
     to_query ≠ [] →
     chunked_fetch 0 fuel rows start_date end_date to_query [] [] = Diverges) ∧
  (∀ limit db dates assets
     (include_splits include_mergers include_dividends : bool) adjustment_type,
     (0 < limit)%nat →
     load_adjustments_from_sqlite limit db dates assets
       include_splits include_mergers include_dividends adjustment_type
     ≠ Diverges).
Proof.
  split; [|split].
  - intros limit rows start_date end_date to_query. split.
    + intros Hdiv. destruct limit as [|n].
      * split; [done|]. intros ->. discriminate.
      * destruct (chunked_fetch_terminates (S n) rows start_date end_date
                    (length to_query) ltac:(lia) to_query [] [] ltac:(done))
          as [out Hret].
        congruence.
    + intros [-> Hne]. by apply chunked_fetch_no_progress.
  - intros rows start_date end_date fuel to_query Hne.
    by apply chunked_fetch_no_progress.
  - intros limit db dates assets include_splits include_mergers include_dividends
      adjustment_type Hlimit Hdiv%load_Diverges. lia.
Qed.

Lemma fetch_loop_stalls_iff_zero_limit_witness :
  chunked_fetch 0 1000 (db_splits scenario_db) 0 259200 [101] [] [] = Diverges ∧
  load_adjustments_from_sqlite 1 scenario_db scenario_dates scenario_assets
    true true true "all"
  ≠ Diverges.
Proof.
  destruct fetch_loop_stalls_iff_zero_limit as (_ & Hstall & Hload).
  split.
  - by apply Hstall.
  - apply Hload. lia.
Defined.

(** ** Categories that are switched off *)

Lemma fetch_table_other limit db t t' rows sids start_date end_date assets :
  t ≠ t' →
  fetch_table limit (set_table t rows db) t' sids start_date end_date assets
  = fetch_table limit db t' sids start_date end_date assets.
Proof. intros Hne. unfold fetch_table. by destruct t, t'. Qed.

Lemma get_sids_other db t t' rows start_date end_date :
  t ≠ t' →
  _get_sids_from_table (set_table t rows db) t' start_date end_date
  = _get_sids_from_table db t' start_date end_date.
Proof. intros Hne. unfold _get_sids_from_table. by destruct t, t'. Qed.

(** X9. A category that is switched off is never read: with
    should_include_splits false the outcome of a load is the same whatever
    the split table holds, and likewise for mergers and for dividends. *)
Theorem excluded_table_is_never_read limit db dates assets
    (include_splits include_mergers include_dividends : bool)
    adjustment_type rows :
  load_adjustments_from_sqlite limit (set_table Splits rows db) dates assets
    false include_mergers include_dividends adjustment_type
  = load_adjustments_from_sqlite limit db dates assets
      false include_mergers include_dividends adjustment_type ∧
  load_adjustments_from_sqlite limit (set_table Mergers rows db) dates assets
    include_splits false include_dividends adjustment_type
  = load_adjustments_from_sqlite limit db dates assets
      include_splits false include_dividends adjustment_type ∧
  load_adjustments_from_sqlite limit (set_table Dividends rows db) dates assets
    include_splits include_mergers false adjustment_type
  = load_adjustments_from_sqlite limit db dates assets
      include_splits include_mergers false adjustment_type.
Proof.
  unfold load_adjustments_from_sqlite.
  destruct (negb _); [done|].
  destruct (head dates) as [d0|]; [|done]. cbn [from_option bind].
  destruct (to_c_int d0) as [start_date| |]; [|done|done]. cbn [bind].
  destruct (last dates) as [dl|]; [|done]. cbn [from_option bind].
  destruct (to_c_int dl) as [end_date| |]; [|done|done]. cbn [bind].
  unfold _adjustments, _get_split_sids, _get_merger_sids, _get_dividend_sids.
  split; [|split].
  - rewrite !fetch_table_no_sids.
    by rewrite !(get_sids_other db Splits), !(fetch_table_other limit db Splits).
  - replace (if negb _ then false else false) with false by by destruct (negb _).
    rewrite !fetch_table_no_sids.
    by rewrite !(get_sids_other db Mergers), !(fetch_table_other limit db Mergers).
  - replace (if negb _ then false else false) with false by by destruct (negb _).
    rewrite !fetch_table_no_sids.
    by rewrite !(get_sids_other db Dividends), !(fetch_table_other limit db Dividends).
Qed.

(** ** Resolving sids before fetching *)

Lemma filter_ext_elem {A} (P Q : A → Prop)
    `{∀ x, Decision (P x)} `{∀ x, Decision (Q x)} (l : list A) :
  (∀ x, x ∈ l → (P x ↔ Q x)) → filter P l = filter Q l.
Proof.
  induction l as [|x l IH]; intros Hext; [done|].
  rewrite !filter_cons.
  rewrite IH by (intros y Hy; apply Hext; by right).
  destruct (Hext x ltac:(by left)). repeat case_decide; tauto.
Qed.

Lemma get_sids_elem db t start_date end_date s :
  s ∈ _get_sids_from_table db t start_date end_date ↔
  ∃ r, r ∈ table db t ∧ sid r = s ∧ in_range start_date end_date r.
Proof.
  unfold _get_sids_from_table.
  rewrite elem_of_list_to_set, list_elem_of_fmap.
  split.
  - intros (r & -> & [Hrange Hr]%list_elem_of_filter). eauto.
  - intros (r & Hr & <- & Hrange). exists r. split; [done|].
    by apply list_elem_of_filter.
Qed.

(** X10. Resolving the sids of a table first and fetching only for those
    loses no row: with a positive chunk limit, the fetch of a table for the
    sids resolved from that same table over the same range returns, and what
    it returns are exactly the rows of the table dated within the range whose
    sid is on the asset axis; on an axis without repetition each such row
    comes back once. *)
Theorem resolved_sids_lose_no_row limit db t start_date end_date assets :
  (0 < limit)%nat →
  ∃ fetched,
    fetch_table limit db t (_get_sids_from_table db t start_date end_date)
      start_date end_date assets = Returns fetched ∧
    (∀ r, r ∈ fetched ↔
          r ∈ table db t ∧ sid r ∈ assets ∧ in_range start_date end_date r) ∧
    (NoDup assets →
     fetched ≡ₚ filter (λ r, sid r ∈ assets ∧ in_range start_date end_date r)
                  (table db t)).
Proof.
  intros Hlimit.
  destruct (fetch_table_terminates limit db t
              (_get_sids_from_table db t start_date end_date)
              start_date end_date assets Hlimit) as [fetched Hfetch].
  exists fetched. split; [exact Hfetch|]. split.
  - intros r. rewrite (fetch_table_Returns _ _ _ _ _ _ _ _ Hfetch r).
    rewrite get_sids_elem. split; [tauto|]. intros (Hr & Hsid & Hrange).
    split; [done|]. split; [done|]. split; [|done]. exists r. done.
  - intros Hnodup. unfold fetch_table in Hfetch.
    apply bind_Returns in Hfetch as ([log res] & Hrun & [= <-]).
    apply chunked_fetch_Returns in Hrun as (chunks & _ & -> & Hconcat & _).
    simpl. rewrite fetch_by_chunk_perm
      by (rewrite Hconcat; by apply NoDup_filter).
    rewrite Hconcat. unfold ADJ_QUERY.
    erewrite filter_ext_elem; [done|].
    intros r Hr. simpl. rewrite list_elem_of_filter, get_sids_elem.
    split; [tauto|]. intros [Hsid Hrange].
    split; [|done]. split; [|done]. exists r. done.
Qed.

Lemma resolved_sids_lose_no_row_witness :
  ∃ fetched,
    fetch_table 999 scenario_db Splits
      (_get_sids_from_table scenario_db Splits 0 259200) 0 259200 scenario_assets
    = Returns fetched ∧
    (∀ r, r ∈ fetched ↔
          r ∈ table scenario_db Splits ∧ sid r ∈ scenario_assets
          ∧ in_range 0 259200 r) ∧
    (NoDup scenario_assets →
     fetched ≡ₚ filter (λ r, sid r ∈ scenario_assets ∧ in_range 0 259200 r)
                  (table scenario_db Splits)).
Proof.
  apply (resolved_sids_lose_no_row 999 scenario_db Splits 0 259200 scenario_assets).
  lia.
Defined.

(** ** The shape of the chunks *)

Lemma take_min_length {A} (l : list A) n :
  take (length l `min` n) l = take n l.
Proof.
  destruct (decide (length l ≤ n)%nat) as [Hle|Hgt].
  - rewrite Nat.min_l by done. by rewrite !take_ge.
  - by rewrite Nat.min_r by lia.
Qed.

Lemma chunked_fetch_log limit rows start_date end_date fuel :
  (0 < limit)%nat →
  ∀ to_query executed results log fetched,
  chunked_fetch limit fuel rows start_date end_date to_query executed results
    = Returns (log, fetched) →
  ∃ chunks,
    log = executed ++ chunks ∧
    (∀ (i : nat) q, chunks !! i = Some q →
       q = take limit (drop (i * limit) to_query) ∧ q ≠ []) ∧
    (length to_query ≤ length chunks * limit < length to_query + limit)%nat.
Proof.
  intros Hlimit.
  induction fuel as [|fuel IH]; intros to_query executed results log fetched.
  - destruct to_query; simpl; [|discriminate].
    intros [= <- <-]. exists []. rewrite app_nil_r. split; [done|].
    split; [intros i q Hq; by rewrite lookup_nil in Hq|]. simpl. lia.
  - destruct to_query as [|a rest].
    + simpl. intros [= <- <-]. exists []. rewrite app_nil_r. split; [done|].
      split; [intros i q Hq; by rewrite lookup_nil in Hq|]. simpl. lia.
    + cbn [chunked_fetch]. rewrite take_min_length.
      set (to_query := a :: rest) in *.
      intros (chunks & -> & Hchunks & Hcount)%IH.
      exists (take limit to_query :: chunks). rewrite <- app_assoc.
      split; [done|].
      rewrite length_drop in Hcount.
      assert (0 < length to_query)%nat as Hlen by (unfold to_query; simpl; lia).
      destruct (decide (length to_query ≤ limit)%nat) as [Hfit|Hmore].
      * rewrite Nat.min_l in Hcount by done.
        assert (length chunks = 0%nat) as Hnone by nia.
        destruct chunks; [|done]. split.
        -- intros [|i] q Hq; [|by rewrite lookup_cons, lookup_nil in Hq].
           injection Hq as <-. split; [done|].
           rewrite take_ge by done. done.
        -- cbn [length]. lia.
      * rewrite Nat.min_r in Hcount by lia. split.
        -- intros [|i] q Hq.
           ++ injection Hq as <-. split; [done|].
              unfold to_query. destruct limit; [lia|done].
           ++ rewrite lookup_cons in Hq. apply Hchunks in Hq as [-> Hne].
              split; [|done]. rewrite Nat.min_r by lia. by rewrite drop_drop.
        -- cbn [length]. nia.
Qed.

(** X11. With a positive limit, the queries that the fetch loop issues bind
    the consecutive slices of the list of that many ids: query number i binds
    the ids from position i * limit up to (i + 1) * limit, none of the
    queries is empty, and their number is the length of the list divided by
    the limit, rounded up; an empty list issues no query. *)
Theorem chunks_are_consecutive_slices limit rows start_date end_date to_query :
  (0 < limit)%nat →
  ∃ log fetched,
    chunked_fetch limit (length to_query) rows start_date end_date to_query [] []
      = Returns (log, fetched) ∧
    (∀ (i : nat) q, log !! i = Some q →
       q = take limit (drop (i * limit) to_query) ∧ q ≠ []) ∧
    (length to_query ≤ length log * limit < length to_query + limit)%nat ∧
    (to_query = [] → log = []).
Proof.
  intros Hlimit.
  destruct (chunked_fetch_terminates limit rows start_date end_date
              (length to_query) Hlimit to_query [] [] ltac:(done)) as [[log fetched] Hrun].
  exists log, fetched. split; [exact Hrun|].
  destruct (chunked_fetch_log limit rows start_date end_date _ Hlimit _ _ _ _ _ Hrun)
    as (chunks & -> & Hchunks & Hcount).
  simpl. split; [exact Hchunks|]. split; [exact Hcount|].
  intros ->. simpl in Hcount. destruct chunks; [done|]. simpl in Hcount. nia.
Qed.

Lemma chunks_are_consecutive_slices_witness :
  ∃ log fetched,
    chunked_fetch 2 5 interleaved_rows 0 259200 [101; 102; 103; 104; 105] [] []
      = Returns (log, fetched) ∧
    (∀ (i : nat) q, log !! i = Some q →
       q = take 2 (drop (i * 2) [101; 102; 103; 104; 105]) ∧ q ≠ []) ∧
    (5 ≤ length log * 2 < 5 + 2)%nat ∧
    ([101; 102; 103; 104; 105] = [] → log = []).
Proof.
  apply (chunks_are_consecutive_slices 2 interleaved_rows 0 259200
           [101; 102; 103; 104; 105]).
  lia.
Defined.

(** ** The row of a date in closed form *)

Lemma positions_complete key index : ∀ i (n : nat),
  index !! n = Some key → i + Z.of_nat n ∈ positions key index i.
Proof.
  induction index as [|a rest IH]; intros i n Hn; [by rewrite lookup_nil in Hn|].
  simpl. destruct n as [|n]; simpl in Hn.
  - injection Hn as ->. rewrite decide_True by done.
    replace (i + Z.of_nat 0) with i by lia. by left.
  - replace (i + Z.of_nat (S n)) with ((i + 1) + Z.of_nat n) by lia.
    case_decide; [right|]; by apply IH.
Qed.

Lemma positions_last_max key index : ∀ i x,
  last (positions key index i) = Some x →
  ∀ y, y ∈ positions key index i → y ≤ x.
Proof.
  induction index as [|a rest IH]; intros i x; simpl; [discriminate|].
  case_decide as Ha; [|apply IH].
  rewrite last_cons.
  destruct (last (positions key rest (i + 1))) as [z|] eqn:Hlast.
  - intros [= <-] y [->|Hy]%elem_of_cons; [|by eapply IH].
    destruct (positions_spec key rest (i + 1) z) as [Hz _]; [|lia].
    destruct (positions key rest (i + 1)) as [|? ?] eqn:Hpos; [discriminate|].
    rewrite <- Hpos. rewrite <- Hpos in Hlast.
    apply last_Some in Hlast as [l' ->]. apply elem_of_app. right. by left.
  - intros [= <-] y [->|Hy]%elem_of_cons; [lia|].
    apply last_None in Hlast. rewrite Hlast in Hy. by apply elem_of_nil in Hy.
Qed.

Lemma last_elem_of {A} (l : list A) x : last l = Some x → x ∈ l.
Proof. rewrite last_lookup. apply list_elem_of_lookup_2. Qed.

(** The last position of a date on the axis is the position after which it
    does not occur again. *)
Lemma last_position dates dt (i : nat) :
  dates !! i = Some dt → (∀ j : nat, (i < j)%nat → dates !! j ≠ Some dt) →
  last (positions dt dates 0) = Some (Z.of_nat i).
Proof.
  intros Hi Hlater.
  pose proof (positions_complete dt dates 0 i Hi) as Hin.
  destruct (last (positions dt dates 0)) as [x|] eqn:Hlast.
  - pose proof (positions_last_max dt dates 0 x Hlast _ Hin) as Hle.
    destruct (positions_spec dt dates 0 x (last_elem_of _ _ Hlast)) as [Hx Hocc].
    replace (x - 0) with x in Hocc by lia.
    destruct (decide (x = Z.of_nat i)) as [->|Hne]; [done|].
    exfalso. apply (Hlater (Z.to_nat x)); [lia|done].
  - apply last_None in Hlast. rewrite Hlast in Hin. by apply elem_of_nil in Hin.
Qed.

Lemma date_row_off_axis dates dt :
  dt ∉ dates → date_row dates dt = searchsorted_right dates dt.
Proof. intros Hoff. unfold date_row. by rewrite positions_absent. Qed.

Lemma populate_date_ixs_lookup dates dt : ∀ i m c,
  populate_date_ixs i dates m = Returns c →
  c !! dt = match last (positions dt dates i) with
            | Some j => Some j
            | None => m !! dt
            end.
Proof.
  induction dates as [|d rest IH]; intros i m c; simpl.
  - by intros [= <-].
  - intros (d' & [-> _]%to_c_int_Returns & Hrest%IH)%bind_Returns.
    rewrite Hrest. case_decide as Hd.
    + subst d. rewrite last_cons.
      destruct (last (positions dt rest (i + 1))); [done|].
      by rewrite lookup_insert_eq.
    + destruct (last (positions dt rest (i + 1))); [done|].
      by rewrite lookup_insert_ne.
Qed.

Lemma populate_date_ixs_exact dates c :
  populate_date_ixs 0 dates ∅ = Returns c → date_cache_exact dates c.
Proof.
  intros Hpop dt. rewrite (populate_date_ixs_lookup dates dt 0 ∅ c Hpop).
  unfold date_row. destruct (last (positions dt dates 0)); [by right|].
  left. by rewrite lookup_empty.
Qed.

Lemma lookup_dt_exact dates cache dt :
  date_cache_exact dates cache →
  (_lookup_dt cache dt dates).1 = date_row dates dt ∧
  date_cache_exact dates (_lookup_dt cache dt dates).2.
Proof.
  intros Hexact. unfold _lookup_dt.
  destruct (Hexact dt) as [[Hnone Hoff]|Hsome].
  - rewrite Hnone. simpl.
    assert (date_row dates dt = searchsorted_right dates dt) as Hrow
      by (unfold date_row; by rewrite Hoff).
    split; [done|]. intros dt'. destruct (decide (dt = dt')) as [<-|Hne].
    + right. by rewrite lookup_insert_eq, Hrow.
    + rewrite lookup_insert_ne by done. apply Hexact.
  - rewrite Hsome. done.
Qed.

Lemma load_cache_exact dates cache :
  load_cache dates cache → date_cache_exact dates cache.
Proof.
  induction 1 as [c Hpop|c dt _ IH].
  - by apply populate_date_ixs_exact.
  - by apply lookup_dt_exact.
Qed.

(** X12. On any date axis, sorted or not, and at any moment of a load, the
    lookup of an effective date returns the position of that date on the
    axis, the last one if the axis repeats it, because the cache is first
    filled position by position; only a date that is not on the axis gets the
    result of the right-side search. *)
Theorem lookup_dt_closed_form dates cache dt :
  load_cache dates cache →
  (_lookup_dt cache dt dates).1 = date_row dates dt ∧
  (∀ i : nat, dates !! i = Some dt →
     (∀ j : nat, (i < j)%nat → dates !! j ≠ Some dt) →
     (_lookup_dt cache dt dates).1 = Z.of_nat i) ∧
  (dt ∉ dates → (_lookup_dt cache dt dates).1 = searchsorted_right dates dt).
Proof.
  intros [Hrow _]%load_cache_exact%(lookup_dt_exact dates cache dt).
  split; [exact Hrow|]. rewrite Hrow. split.
  - intros i Hi Hlater. unfold date_row. by rewrite (last_position dates dt i).
  - apply date_row_off_axis.
Qed.

Lemma lookup_dt_closed_form_witness :
  (_lookup_dt (<[5 := 2]> (<[7 := 1]> ∅)) 5 [5; 7; 5]).1 = date_row [5; 7; 5] 5 ∧
  (∀ i : nat, [5; 7; 5] !! i = Some 5 →
     (∀ j : nat, (i < j)%nat → [5; 7; 5] !! j ≠ Some 5) →
     (_lookup_dt (<[5 := 2]> (<[7 := 1]> ∅)) 5 [5; 7; 5]).1 = Z.of_nat i) ∧
  (5 ∉ [5; 7; 5] →
   (_lookup_dt (<[5 := 2]> (<[7 := 1]> ∅)) 5 [5; 7; 5]).1
   = searchsorted_right [5; 7; 5] 5).
Proof.
  apply (lookup_dt_closed_form [5; 7; 5] (<[5 := 2]> (<[7 := 1]> ∅)) 5).
  apply load_cache_init. reflexivity.
Defined.

(** ** Rows follow dates *)

Lemma date_row_count dates dt :
  StronglySorted Z.lt dates → date_row dates dt = Z.of_nat (count_lt dates dt).
Proof.
  intros Hsorted%StronglySorted_sorted_lt. unfold date_row.
  destruct (last (positions dt dates 0)) as [x|] eqn:Hlast.
  - destruct (positions_spec dt dates 0 x (last_elem_of _ _ Hlast)) as [Hx Hocc].
    replace (x - 0) with x in Hocc by lia.
    rewrite (sorted_lt_position dates (Z.to_nat x) dt) by done. lia.
  - apply last_None in Hlast.
    assert (dt ∉ dates) as Hoff.
    { intros Hin. by apply (positions_present dt dates 0) in Hin. }
    rewrite searchsorted_right_count by by apply sorted_lt_le.
    by rewrite count_le_off_axis.
Qed.

Lemma count_lt_length dates dt : (count_lt dates dt ≤ length dates)%nat.
Proof. unfold count_lt. apply length_filter. Qed.

(** X13. On a strictly increasing axis rows follow dates: within a load, a
    later effective date never resolves to an earlier row than an earlier
    effective date, whatever was looked up in between; every row lies
    between 0 and the length of the axis, and it is the length of the axis
    exactly when the date is after every date of the axis. *)
Theorem lookup_dt_monotone dates cache1 cache2 dt1 dt2 :
  StronglySorted Z.lt dates →
  load_cache dates cache1 → load_cache dates cache2 →
  dt1 ≤ dt2 →
  (_lookup_dt cache1 dt1 dates).1 ≤ (_lookup_dt cache2 dt2 dates).1 ∧
  0 ≤ (_lookup_dt cache1 dt1 dates).1 ≤ Z.of_nat (length dates) ∧
  ((_lookup_dt cache1 dt1 dates).1 = Z.of_nat (length dates)
   ↔ ∀ d, d ∈ dates → d < dt1).
Proof.
  intros Hsorted [Hrow1 _]%load_cache_exact%(lookup_dt_exact dates cache1 dt1)
    [Hrow2 _]%load_cache_exact%(lookup_dt_exact dates cache2 dt2) Hle.
  rewrite Hrow1, Hrow2, !date_row_count by done.
  pose proof (count_lt_mono dates dt2 dt1 Hle).
  pose proof (count_lt_length dates dt1).
  split; [lia|]. split; [lia|].
  rewrite Nat2Z.inj_iff. unfold count_lt. split.
  - intros Hall d Hd.
    destruct (decide (d < dt1)) as [|Hge]; [done|]. exfalso.
    revert Hall. clear -Hd Hge. induction dates as [|x l IH]; [by apply elem_of_nil in Hd|].
    rewrite filter_cons. pose proof (length_filter (λ y, y < dt1) l).
    case_decide; simpl; [|lia].
    apply elem_of_cons in Hd as [->|Hd]; [done|]. intros [= Hl]. by apply IH.
  - intros Hall. by apply filter_all_length.
Qed.

Lemma lookup_dt_monotone_witness :
  (_lookup_dt scenario_cache 86400 scenario_dates).1
  ≤ (_lookup_dt scenario_cache 90000 scenario_dates).1.
Proof.
  apply (lookup_dt_monotone scenario_dates scenario_cache scenario_cache 86400 90000).
  - unfold scenario_dates. repeat constructor; lia.
  - apply load_cache_init. reflexivity.
  - apply load_cache_init. reflexivity.
  - lia.
Defined.

(** ** What the schedules hold *)

Lemma bucket_default {A} (l : list A) : default [] (bucket l) = l.
Proof. by destruct l. Qed.

Lemma bucket_snoc {A} (l : list A) x : bucket (l ++ [x]) = Some (l ++ [x]).
Proof. by destruct l. Qed.

Lemma bucket_Some {A} (l l' : list A) : bucket l = Some l' → l' = l ∧ l ≠ [].
Proof. destruct l; [discriminate|]. by intros [= <-]. Qed.

(** An invariant that follows the part of the list already processed. *)
Lemma for_each_prefix {S A} (I : list A → S → Prop) (body : S → A → outcome S) items :
  (∀ done x s s', I done s → body s x = Returns s' → I (done ++ [x]) s') →
  ∀ done s s', I done s → for_each body items s = Returns s' → I (done ++ items) s'.
Proof.
  intros Hbody. induction items as [|x rest IH]; intros done s s' Hs; simpl.
  - intros [= <-]. by rewrite app_nil_r.
  - intros (s1 & H1 & H2)%bind_Returns.
    rewrite (cons_middle x done rest), app_assoc. eapply IH; [|exact H2].
    by eapply Hbody.
Qed.

Lemma lookup_asset_exact assets cache key c cache' :
  asset_cache_exact assets cache →
  lookup_asset cache assets key = Returns (c, cache') →
  get_loc assets key = Returns c ∧ asset_cache_exact assets cache'.
Proof.
  intros Hexact. unfold lookup_asset.
  destruct (cache !! key) as [ix|] eqn:Hkey.
  - intros [= -> ->]. split; [by apply Hexact|done].
  - intros (ix & Hloc & [= -> <-])%bind_Returns. split; [done|].
    intros s c'. destruct (decide (key = s)) as [->|Hne].
    + rewrite lookup_insert_eq. by intros [= <-].
    + rewrite lookup_insert_ne by done. apply Hexact.
Qed.

Lemma column_Returns assets s c : get_loc assets s = Returns c → column assets s = c.
Proof. intros Hloc. unfold column. by rewrite Hloc. Qed.

Section buckets.

Variables (dates assets : list Z) (start_date : Z) (p v : bool).

(** Filing a record under its row extends the list of that row and of no
    other. *)
Lemma file_record (f : adjustment_row → Float64Multiply) m done r :
  (∀ k, m !! k = bucket (f <$> filed_under dates start_date k done)) →
  start_date ≤ effective_date r →
  ∀ k, setdefault_append m (date_row dates (effective_date r)) (f r) !! k
       = bucket (f <$> filed_under dates start_date k (done ++ [r])).
Proof.
  intros Hm Hkeep k. unfold filed_under. rewrite filter_app, fmap_app.
  destruct (decide (date_row dates (effective_date r) = k)) as [<-|Hne].
  - rewrite setdefault_append_lookup, Hm, bucket_default.
    rewrite filter_cons_True by done. simpl. by rewrite bucket_snoc.
  - rewrite setdefault_append_lookup_ne by done.
    rewrite filter_cons_False by (intros [_ ?]; done).
    simpl. rewrite app_nil_r. apply Hm.
Qed.

Lemma skip_record (f : adjustment_row → Float64Multiply)
    (m : gmap Z (list Float64Multiply)) done r :
  (∀ k, m !! k = bucket (f <$> filed_under dates start_date k done)) →
  effective_date r < start_date →
  ∀ k, m !! k = bucket (f <$> filed_under dates start_date k (done ++ [r])).
Proof.
  intros Hm Hearly k. unfold filed_under. rewrite filter_app.
  rewrite (filter_cons_False _ r) by (intros [? _]; lia).
  simpl. rewrite app_nil_r. apply Hm.
Qed.

(** What the dictionaries of the loader hold once the records [P] have gone
    through the code that files price corrections and the records [V]
    through the code that files volume corrections. *)
Definition filed (P V : list adjustment_row) (st : loader_state) : Prop :=
  date_cache_exact dates (date_ixs st) ∧
  asset_cache_exact assets (asset_ixs st) ∧
  (∀ r, r ∈ P → start_date ≤ effective_date r →
        get_loc assets (sid r) = Returns (column assets (sid r))) ∧
  (p = true → ∀ k, price_adjustments st !! k
                   = bucket (price_correction dates assets
                             <$> filed_under dates start_date k P)) ∧
  (v = true → ∀ k, volume_adjustments st !! k
                   = bucket (volume_correction dates assets
                             <$> filed_under dates start_date k V)).

Lemma split_body_filed done st r st' :
  filed done done st →
  split_body dates assets start_date p v st r = Returns st' →
  filed (done ++ [r]) (done ++ [r]) st'.
Proof.
  intros (Hdates & Hcols & Hlocs & Hprice & Hvolume)
    [[Hearly ->]|(Hkeep & col & cols' & Hcol & _ & ->)]%split_body_Returns.
  - split; [done|]. split; [done|]. split; [|split].
    + intros x [Hx| ->%list_elem_of_singleton]%elem_of_app Hkeep; [by apply Hlocs|lia].
    + intros Hp. apply skip_record; [by apply Hprice|done].
    + intros Hv. apply skip_record; [by apply Hvolume|done].
  - destruct (lookup_dt_exact dates (date_ixs st) (effective_date r) Hdates)
      as [Hrow Hdates'].
    destruct (lookup_asset_exact _ _ _ _ _ Hcols Hcol) as [Hloc Hcols'].
    pose proof (column_Returns _ _ _ Hloc) as Hcolumn.
    unfold after_split. split; [done|]. split; [done|]. simpl. split; [|split].
    + intros x [Hx| ->%list_elem_of_singleton]%elem_of_app Hx_keep;
        [by apply Hlocs|by rewrite Hcolumn].
    + intros Hp. rewrite Hp, Hrow, <- Hcolumn.
      apply (file_record (price_correction dates assets)); [by apply Hprice|done].
    + intros Hv. rewrite Hv, Hrow, <- Hcolumn.
      apply (file_record (volume_correction dates assets)); [by apply Hvolume|done].
Qed.

Lemma merger_dividend_body_filed splits done st r st' :
  filed (splits ++ done) splits st →
  merger_dividend_body dates assets start_date st r = Returns st' →
  filed (splits ++ done ++ [r]) splits st'.
Proof.
  rewrite (app_assoc splits done [r]).
  intros (Hdates & Hcols & Hlocs & Hprice & Hvolume)
    [[Hearly ->]|(Hkeep & col & cols' & Hcol & ->)]%merger_dividend_body_Returns.
  - split; [done|]. split; [done|]. split; [|split; [|done]].
    + intros x [Hx| ->%list_elem_of_singleton]%elem_of_app Hkeep; [by apply Hlocs|lia].
    + intros Hp. apply skip_record; [by apply Hprice|done].
  - destruct (lookup_dt_exact dates (date_ixs st) (effective_date r) Hdates)
      as [Hrow Hdates'].
    destruct (lookup_asset_exact _ _ _ _ _ Hcols Hcol) as [Hloc Hcols'].
    pose proof (column_Returns _ _ _ Hloc) as Hcolumn.
    unfold after_merger_dividend. split; [done|]. split; [done|]. simpl.
    split; [|split; [|done]].
    + intros x [Hx| ->%list_elem_of_singleton]%elem_of_app Hx_keep;
        [by apply Hlocs|by rewrite Hcolumn].
    + intros Hp. rewrite Hrow, <- Hcolumn.
      apply (file_record (price_correction dates assets)); [by apply Hprice|done].
Qed.

(** The schedules that the assembly returns, bucket by bucket. *)
Lemma assemble_buckets splits mergers dividends result :
  assemble dates assets start_date p v splits mergers dividends = Returns result →
  (∀ r, r ∈ splits ++ mergers ++ dividends → start_date ≤ effective_date r →
        get_loc assets (sid r) = Returns (column assets (sid r))) ∧
  (∀ pm k, result !! "price" = Some pm →
     pm !! k = bucket (price_correction dates assets
                       <$> filed_under dates start_date k
                             (splits ++ mergers ++ dividends))) ∧
  (∀ vm k, result !! "volume" = Some vm →
     vm !! k = bucket (volume_correction dates assets
                       <$> filed_under dates start_date k splits)).
Proof.
  unfold assemble.
  intros (cache0 & Hcache0%populate_date_ixs_exact
          & (st1 & Hst1 & (st2 & Hst2 & [= <-])%bind_Returns)%bind_Returns)%bind_Returns.
  assert (filed [] [] (LoaderState ∅ ∅ ∅ cache0)) as Hinit.
  { split; [done|]. split; [by intros s c; simpl; rewrite lookup_empty|].
    split; [by intros r Hr; apply elem_of_nil in Hr|].
    split; intros _ k; simpl; by rewrite lookup_empty. }
  pose proof (for_each_prefix (λ done st, filed done done st) _ splits
                (λ done x s s', split_body_filed done s x s') [] _ _ Hinit Hst1)
    as Hpass1.
  rewrite app_nil_l in Hpass1.
  assert (filed (splits ++ []) splits st1) as Hmid by by rewrite app_nil_r.
  pose proof (for_each_prefix (λ done st, filed (splits ++ done) splits st) _
                (mergers ++ dividends)
                (λ done x s s', merger_dividend_body_filed splits done s x s')
                [] _ _ Hmid Hst2)
    as (_ & _ & Hlocs & Hprice & Hvolume).
  rewrite app_nil_l in *.
  split; [exact Hlocs|]. split.
  - intros pm k. destruct p, v; intros Hpm;
      rewrite ?lookup_insert_ne, ?lookup_insert_eq, ?lookup_empty in Hpm by done;
      try discriminate; injection Hpm as <-; by apply Hprice.
  - intros vm k. destruct p, v; intros Hvm;
      rewrite ?lookup_insert_ne, ?lookup_insert_eq, ?lookup_empty in Hvm by done;
      try discriminate; injection Hvm as <-; by apply Hvolume.
Qed.

End buckets.

(** X14. The schedules that the assembly returns are, row by row, the lists
    of the corrections of the retained records of that row in the order the
    records were fetched: a price bucket lists the corrections of the splits
    of its row, then those of its mergers, then those of its dividends, each
    with the record's ratio; a volume bucket lists the corrections of the
    splits of its row with the inverse ratio; a row has a bucket only if
    some retained record resolves to it. The row of a record is [date_row] of
    its effective date (the position of the date on the axis, as the date
    cache is pre-filled with, or the right-side search for a date off the
    axis) and its column is the position that [get_loc] returns for its
    sid. *)
Theorem schedules_list_corrections_in_fetch_order dates assets start_date p v
    splits mergers dividends result :
  assemble dates assets start_date p v splits mergers dividends = Returns result →
  (∀ r, r ∈ splits ++ mergers ++ dividends → start_date ≤ effective_date r →
        get_loc assets (sid r) = Returns (column assets (sid r))) ∧
  (∀ pm k, result !! "price" = Some pm →
     pm !! k = bucket
       ((price_correction dates assets <$> filed_under dates start_date k splits)
        ++ (price_correction dates assets <$> filed_under dates start_date k mergers)
        ++ (price_correction dates assets
            <$> filed_under dates start_date k dividends))) ∧
  (∀ vm k, result !! "volume" = Some vm →
     vm !! k = bucket (volume_correction dates assets
                       <$> filed_under dates start_date k splits)).
Proof.
  intros (Hlocs & Hprice & Hvolume)%assemble_buckets.
  split; [exact Hlocs|]. split; [|exact Hvolume].
  intros pm k Hpm. rewrite (Hprice pm k Hpm).
  unfold filed_under. by rewrite !filter_app, !fmap_app.
Qed.

Lemma schedules_list_corrections_in_fetch_order_witness :
  ({[ 1 := [mkFloat64Multiply 0 1 0 0 0.5%float] ]}
     : gmap Z (list Float64Multiply)) !! 1
  = bucket (volume_correction scenario_dates scenario_assets
            <$> filed_under scenario_dates 0 1 (db_splits scenario_db)).
Proof.
  destruct (schedules_list_corrections_in_fetch_order scenario_dates scenario_assets
              0 true true (db_splits scenario_db) [] [] scenario_result)
    as (_ & _ & Hvolume).
  - reflexivity.
  - apply Hvolume. reflexivity.
Defined.

(** ** Where a correction comes from *)

Lemma load_Returns_tables limit db dates assets
    (include_splits include_mergers include_dividends : bool)
    adjustment_type result :
  load_adjustments_from_sqlite limit db dates assets
    include_splits include_mergers include_dividends adjustment_type
  = Returns result →
  ∃ d0 dl splits mergers dividends,
    head dates = Some d0 ∧ last dates = Some dl ∧
    (∀ r, r ∈ splits → r ∈ db_splits db ∧ in_range d0 dl r) ∧
    (∀ r, r ∈ mergers ++ dividends →
          r ∈ db_mergers db ++ db_dividends db ∧ in_range d0 dl r) ∧
    assemble dates assets d0 (price_requested adjustment_type)
      (volume_requested adjustment_type) splits mergers dividends
    = Returns result.
Proof.
  intros Hload.
  destruct (load_valid _ _ _ _ _ _ _ _ _ Hload)
    as (Hvalid & d0 & dl & Hhead & Hlast & Hd0 & Hdl).
  rewrite (load_unfold _ _ _ _ _ _ _ _ d0 dl) in Hload by done.
  cbn zeta in Hload.
  apply bind_Returns in Hload as (splits & Hsplits & Hload).
  apply bind_Returns in Hload as (mergers & Hmergers & Hload).
  apply bind_Returns in Hload as (dividends & Hdividends & Hload).
  exists d0, dl, splits, mergers, dividends.
  split; [done|]. split; [done|]. split; [|split; [|done]].
  - intros r Hr. apply (fetch_table_Returns _ _ _ _ _ _ _ _ Hsplits) in Hr.
    simpl in Hr. tauto.
  - intros r Hr. rewrite elem_of_app.
    apply elem_of_app in Hr as [Hr|Hr].
    + apply (fetch_table_Returns _ _ _ _ _ _ _ _ Hmergers) in Hr. simpl in Hr. tauto.
    + apply (fetch_table_Returns _ _ _ _ _ _ _ _ Hdividends) in Hr. simpl in Hr. tauto.
Qed.

Lemma filed_stems_from dates assets start_date k dl r c value :
  StronglySorted Z.lt dates → last dates = Some dl →
  effective_date r ≤ dl →
  filed_at dates start_date k r →
  get_loc assets (sid r) = Returns c →
  stems_from dates assets k (mkFloat64Multiply 0 k c c value) r.
Proof.
  intros Hsorted Hlast Hle [_ Hrow] Hloc.
  rewrite date_row_count in Hrow by done.
  apply StronglySorted_sorted_lt in Hsorted.
  destruct (get_loc_Returns _ _ _ Hloc) as [_ Hcol].
  assert (∀ (i : nat) d, dates !! i = Some d →
            (Z.of_nat i < k ↔ d < effective_date r)) as Hbefore.
  { intros i d Hi. rewrite <- Hrow, <- Nat2Z.inj_lt. symmetry.
    by apply sorted_lt_before. }
  split; [done|]. split; [done|]. split; [done|]. split; [exact Hcol|].
  split; [exact Hbefore|].
  rewrite last_lookup in Hlast.
  pose proof (lookup_lt_Some _ _ _ Hlast) as Hlen.
  assert (count_lt dates (effective_date r) < length dates)%nat as Hlt.
  { pose proof (Hbefore _ _ Hlast) as Hdl. lia. }
  destruct (lookup_lt_is_Some_2 dates _ Hlt) as [d Hd].
  exists d. split; [lia|]. rewrite <- Hrow, Nat2Z.id. split; [exact Hd|].
  pose proof (Hbefore _ _ Hd). lia.
Qed.

(** X15. No correction is filed ahead of its record. On a strictly
    increasing axis, every correction of a schedule that a load returns
    stems from a record of the store dated within the range of the axis,
    from its first date to its last, both included: a price correction from
    a split, merger or dividend record, with that record's ratio as its
    value, a volume correction from a split record, with the inverse of its
    ratio. The correction sits in the column of the record's sid, and under
    the row of the first axis date that is not before the record's effective
    date: the date of that row is on or after the effective date and every
    earlier axis date is strictly before it. *)
Theorem corrections_stem_from_records limit db dates assets
    (include_splits include_mergers include_dividends : bool)
    adjustment_type result :
  StronglySorted Z.lt dates →
  load_adjustments_from_sqlite limit db dates assets
    include_splits include_mergers include_dividends adjustment_type
  = Returns result →
  ∃ d0 dl,
    head dates = Some d0 ∧ last dates = Some dl ∧
    (∀ pm k l adj,
       result !! "price" = Some pm → pm !! k = Some l → adj ∈ l →
       ∃ r, r ∈ db_splits db ++ db_mergers db ++ db_dividends db ∧
            in_range d0 dl r ∧
            value adj = ratio r ∧ stems_from dates assets k adj r) ∧
    (∀ vm k l adj,
       result !! "volume" = Some vm → vm !! k = Some l → adj ∈ l →
       ∃ r, r ∈ db_splits db ∧
            in_range d0 dl r ∧
            value adj = (1 / ratio r)%float ∧ stems_from dates assets k adj r).
Proof.
  intros Hsorted (d0 & dl & splits & mergers & dividends & Hhead & Hlast & Hsplits
                  & Hothers & Hasm)%load_Returns_tables.
  apply assemble_buckets in Hasm as (Hlocs & Hprice & Hvolume).
  exists d0, dl. split; [done|]. split; [done|]. split.
  - intros pm k l adj Hpm Hk Hadj.
    rewrite (Hprice pm k Hpm) in Hk. apply bucket_Some in Hk as [-> _].
    apply list_elem_of_fmap in Hadj as (r & -> & [Hfiled Hr]%list_elem_of_filter).
    assert (r ∈ db_splits db ++ db_mergers db ++ db_dividends db
            ∧ in_range d0 dl r) as [Hdb Hrange].
    { apply elem_of_app in Hr as [Hr|Hr].
      - destruct (Hsplits r Hr). split; [|done]. apply elem_of_app. by left.
      - destruct (Hothers r Hr). split; [|done]. apply elem_of_app. by right. }
    exists r. split; [exact Hdb|]. split; [exact Hrange|]. split; [done|].
    unfold price_correction. rewrite (proj2 Hfiled).
    eapply filed_stems_from; eauto; [apply Hrange|]. apply Hlocs; [done|apply Hfiled].
  - intros vm k l adj Hvm Hk Hadj.
    rewrite (Hvolume vm k Hvm) in Hk. apply bucket_Some in Hk as [-> _].
    apply list_elem_of_fmap in Hadj as (r & -> & [Hfiled Hr]%list_elem_of_filter).
    destruct (Hsplits r Hr) as [Hdb Hrange].
    exists r. split; [exact Hdb|]. split; [exact Hrange|]. split; [done|].
    unfold volume_correction. rewrite (proj2 Hfiled).
    eapply filed_stems_from; eauto; [apply Hrange|].
    apply Hlocs; [apply elem_of_app; by left|apply Hfiled].
Qed.

Lemma corrections_stem_from_records_witness :
  ∃ d0 dl,
    head scenario_dates = Some d0 ∧ last scenario_dates = Some dl ∧
    (∀ pm k l adj,
       scenario_result !! "price" = Some pm → pm !! k = Some l → adj ∈ l →
       ∃ r, r ∈ db_splits scenario_db ++ db_mergers scenario_db
                ++ db_dividends scenario_db ∧
            in_range d0 dl r ∧
            value adj = ratio r ∧ stems_from scenario_dates scenario_assets k adj r) ∧
    (∀ vm k l adj,
       scenario_result !! "volume" = Some vm → vm !! k = Some l → adj ∈ l →
       ∃ r, r ∈ db_splits scenario_db ∧
            in_range d0 dl r ∧
            value adj = (1 / ratio r)%float
            ∧ stems_from scenario_dates scenario_assets k adj r).
Proof.
  apply (corrections_stem_from_records 999 scenario_db scenario_dates
           scenario_assets true true true "all" scenario_result).
  - unfold scenario_dates. repeat constructor; lia.
  - reflexivity.
Defined.

(** ** Price and volume corrections of a split *)

(** X16. When both schedules are built, the corrections of a split come in
    pairs: every row of the volume schedule is a row of the price schedule,
    and the correction at a position of a volume bucket and the correction
    at the same position of the price bucket of that row cover the same
    rows and the same column and stem from one split record, the price
    correction carrying its ratio and the volume correction the inverse. *)
Theorem split_corrections_are_paired dates assets start_date
    splits mergers dividends result pm vm k lv :
  assemble dates assets start_date true true splits mergers dividends
  = Returns result →
  result !! "price" = Some pm → result !! "volume" = Some vm →
  vm !! k = Some lv →
  ∃ lp, pm !! k = Some lp ∧
    ∀ (i : nat) adjv, lv !! i = Some adjv →
      ∃ adjp r, lp !! i = Some adjp ∧ r ∈ splits ∧
        first_row adjp = first_row adjv ∧ last_row adjp = last_row adjv ∧
        first_col adjp = first_col adjv ∧ last_col adjp = last_col adjv ∧
        value adjp = ratio r ∧ value adjv = (1 / ratio r)%float.
Proof.
  intros (_ & Hprice & Hvolume)%assemble_buckets Hpm Hvm Hk.
  rewrite (Hvolume vm k Hvm) in Hk. apply bucket_Some in Hk as [-> Hne].
  rewrite (Hprice pm k Hpm). unfold filed_under in *.
  rewrite filter_app, fmap_app.
  destruct (filter (filed_at dates start_date k) splits) as [|r0 rs] eqn:Hsplits;
    [done|].
  eexists. split; [reflexivity|].
  intros i adjv Hi.
  apply list_lookup_fmap_Some in Hi as (r & -> & Hr).
  exists (price_correction dates assets r), r.
  split.
  - rewrite <- fmap_app. apply list_lookup_fmap_Some. exists r. split; [done|].
    by apply lookup_app_l_Some.
  - split; [|done].
    assert (r ∈ filter (filed_at dates start_date k) splits) as Hin
      by (rewrite Hsplits; by eapply list_elem_of_lookup_2).
    by apply list_elem_of_filter in Hin as [_ ?].
Qed.

Lemma split_corrections_are_paired_witness :
  ∃ lp, ({[ 1 := [mkFloat64Multiply 0 1 0 0 2%float] ]}
           : gmap Z (list Float64Multiply)) !! 1 = Some lp ∧
    ∀ (i : nat) adjv, [mkFloat64Multiply 0 1 0 0 0.5%float] !! i = Some adjv →
      ∃ adjp r, lp !! i = Some adjp ∧ r ∈ db_splits scenario_db ∧
        first_row adjp = first_row adjv ∧ last_row adjp = last_row adjv ∧
        first_col adjp = first_col adjv ∧ last_col adjp = last_col adjv ∧
        value adjp = ratio r ∧ value adjv = (1 / ratio r)%float.
Proof.
  apply (split_corrections_are_paired scenario_dates scenario_assets 0
           (db_splits scenario_db) [] [] scenario_result
           {[ 1 := [mkFloat64Multiply 0 1 0 0 2%float] ]}
           {[ 1 := [mkFloat64Multiply 0 1 0 0 0.5%float] ]} 1
           [mkFloat64Multiply 0 1 0 0 0.5%float]); reflexivity.
Defined.

(** ** Nothing to file *)

Lemma filter_nothing {A} (P : A → Prop) `{∀ x, Decision (P x)} (l : list A) :
  (∀ x, x ∈ l → ¬ P x) → filter P l = [].
Proof.
  induction l as [|x l IH]; intros Hnone; [done|].
  rewrite filter_cons_False by (apply Hnone; by left).
  apply IH. intros y Hy. apply Hnone. by right.
Qed.

Lemma load_empty_store limit dates assets
    (include_splits include_mergers include_dividends : bool)
    adjustment_type :
  valid_adjustment_type adjustment_type →
  dates ≠ [] → Forall c_int_range dates →
  load_adjustments_from_sqlite limit (AdjustmentsDb [] [] []) dates assets
    include_splits include_mergers include_dividends adjustment_type
  = Returns (empty_schedules adjustment_type).
Proof.
  intros Hvalid Hne Hdates.
  destruct (axis_ends dates Hne) as (d0 & dl & Hhead & Hlast & Hd0 & Hdl).
  rewrite Forall_forall in Hdates.
  rewrite (load_unfold limit _ dates assets _ _ _ _ d0 dl) by auto.
  cbn zeta.
  assert (∀ t (b : bool),
            fetch_table limit (AdjustmentsDb [] [] []) t
              (if b then _get_sids_from_table (AdjustmentsDb [] [] []) t d0 dl else ∅)
              d0 dl assets = Returns []) as Hfetch.
  { intros t b.
    replace (if b then _ else _) with (∅ : gset Z) by (by destruct b, t).
    apply fetch_table_no_sids. }
  unfold _get_split_sids, _get_merger_sids, _get_dividend_sids.
  rewrite !Hfetch. cbn [bind]. unfold assemble.
  destruct (populate_date_ixs_terminates dates 0 ∅) as [cache0 ->];
    [by apply Forall_forall|].
  reflexivity.
Qed.

(** X17. A load over a store that holds no record dated within the range of
    the axis returns an empty schedule under each requested key, for every
    chunk limit, zero included, since no query is then issued for records;
    the request only has to name a valid adjustment type and a non-empty
    axis of dates that fit a C int. *)
Theorem nothing_in_range_gives_empty_schedules limit db dates assets
    (include_splits include_mergers include_dividends : bool)
    adjustment_type d0 dl :
  valid_adjustment_type adjustment_type →
  head dates = Some d0 → last dates = Some dl → Forall c_int_range dates →
  (∀ t r, r ∈ table db t → ¬ in_range d0 dl r) →
  load_adjustments_from_sqlite limit db dates assets
    include_splits include_mergers include_dividends adjustment_type
  = Returns (empty_schedules adjustment_type).
Proof.
  intros Hvalid Hhead Hlast Hdates Hnone.
  rewrite <- (load_restrict limit db dates assets _ _ _ _ d0 dl Hhead Hlast).
  unfold restrict_db.
  rewrite (filter_nothing _ (db_splits db)) by apply (Hnone Splits).
  rewrite (filter_nothing _ (db_mergers db)) by apply (Hnone Mergers).
  rewrite (filter_nothing _ (db_dividends db)) by apply (Hnone Dividends).
  apply load_empty_store; [done| |done]. intros ->. discriminate.
Qed.

Lemma nothing_in_range_gives_empty_schedules_witness :
  load_adjustments_from_sqlite 0
    (AdjustmentsDb [AdjustmentRow 101 2%float 345600] []
       [AdjustmentRow 101 0.5%float (-86400)])
    scenario_dates scenario_assets true true true "all"
  = Returns (empty_schedules "all").
Proof.
  apply (nothing_in_range_gives_empty_schedules 0 _ scenario_dates scenario_assets
           true true true "all" 0 259200).
  - by right; right.
  - reflexivity.
  - reflexivity.
  - unfold scenario_dates, c_int_range, INT_MIN, INT_MAX. repeat constructor; lia.
  - intros [] r Hr; simpl in Hr;
      repeat (apply elem_of_cons in Hr as [->|Hr]);
      try (by apply elem_of_nil in Hr); unfold in_range; simpl; lia.
Defined.

(** ** What the loops file, record by record *)

Lemma bucket_elem {A} (l : list A) x : x ∈ l → bucket l = Some l.
Proof. destruct l; [by intros ?%elem_of_nil|done]. Qed.

Lemma result_keys dates assets start_date p v splits mergers dividends result
    name sched :
  assemble dates assets start_date p v splits mergers dividends = Returns result →
  result !! name = Some sched →
  (name = "price" ∧ p = true) ∨ (name = "volume" ∧ v = true).
Proof.
  intros Hdom%assemble_dom Hname%elem_of_dom_2. rewrite Hdom in Hname.
  destruct p, v;
    rewrite ?elem_of_union, ?elem_of_singleton, ?elem_of_empty in Hname; intuition.
Qed.

Lemma result_has_keys dates assets start_date p v splits mergers dividends result :
  assemble dates assets start_date p v splits mergers dividends = Returns result →
  (p = true → is_Some (result !! "price")) ∧
  (v = true → is_Some (result !! "volume")).
Proof.
  intros Hdom%assemble_dom.
  split; intros ->; apply elem_of_dom; rewrite Hdom;
    [destruct v|destruct p]; rewrite ?elem_of_union, ?elem_of_singleton; auto.
Qed.

(** What the fetch of one category returns, by the switch of the category. *)
Lemma fetched_iff limit db t (b : bool) start_date end_date assets fetched :
  fetch_table limit db t
    (if b then _get_sids_from_table db t start_date end_date else ∅)
    start_date end_date assets = Returns fetched →
  ∀ r, r ∈ fetched ↔
       b = true ∧ r ∈ table db t ∧ sid r ∈ assets ∧ in_range start_date end_date r.
Proof.
  intros Hfetch r. rewrite (fetch_table_Returns _ _ _ _ _ _ _ _ Hfetch r).
  destruct b.
  - rewrite get_sids_elem. split; [tauto|]. intros (_ & Hr & Hsid & Hrange).
    split; [done|]. split; [done|]. split; [|done]. exists r. done.
  - rewrite elem_of_empty. split; [tauto|]. intros [? _]. discriminate.
Qed.

(** On an asset axis without repetition each row of the table that the
    query selects is fetched once, so the fetched rows filed under a row are
    as many as the table's. *)
Lemma fetched_retained limit db t (b : bool) start_date end_date dates assets k
    fetched :
  NoDup assets →
  fetch_table limit db t
    (if b then _get_sids_from_table db t start_date end_date else ∅)
    start_date end_date assets = Returns fetched →
  length (filed_under dates start_date k fetched)
  = length (retained_at dates assets start_date end_date k b (table db t)).
Proof.
  intros Hnodup Hfetch. unfold retained_at, filed_under. destruct b.
  - unfold fetch_table in Hfetch.
    apply bind_Returns in Hfetch as ([log res] & Hrun & [= <-]).
    apply chunked_fetch_Returns in Hrun as (chunks & _ & -> & Hconcat & _).
    simpl. rewrite fetch_by_chunk_perm
      by (rewrite Hconcat; by apply NoDup_filter).
    rewrite Hconcat. unfold ADJ_QUERY. rewrite list_filter_filter.
    f_equal. apply filter_ext_elem. intros r Hr. simpl.
    rewrite list_elem_of_filter, get_sids_elem. unfold filed_at, in_range.
    split; [tauto|]. intros (Hsid & Hrange & Hrow).
    split; [tauto|]. split; [|done]. split; [|done]. exists r. done.
  - assert (fetched = []) as ->; [|done].
    pose proof (fetched_iff _ _ _ false _ _ _ _ Hfetch) as Hiff.
    destruct fetched as [|r rest]; [done|].
    destruct (proj1 (Hiff r) ltac:(by left)) as [? _]. discriminate.
Qed.

(** What a returning load fetched, table by table. *)
Lemma load_Returns_fetch limit db dates assets
    (include_splits include_mergers include_dividends : bool)
    adjustment_type result :
  load_adjustments_from_sqlite limit db dates assets
    include_splits include_mergers include_dividends adjustment_type
  = Returns result →
  ∃ d0 dl splits mergers dividends,
    head dates = Some d0 ∧ last dates = Some dl ∧
    (∀ r, r ∈ splits ↔
          include_splits = true ∧ r ∈ db_splits db ∧ sid r ∈ assets
          ∧ in_range d0 dl r) ∧
    (∀ r, r ∈ mergers ↔
          price_requested adjustment_type && include_mergers = true
          ∧ r ∈ db_mergers db ∧ sid r ∈ assets ∧ in_range d0 dl r) ∧
    (∀ r, r ∈ dividends ↔
          price_requested adjustment_type && include_dividends = true
          ∧ r ∈ db_dividends db ∧ sid r ∈ assets ∧ in_range d0 dl r) ∧
    (NoDup assets →
     ∀ k,
       length (filed_under dates d0 k splits)
       = length (retained_at dates assets d0 dl k include_splits (db_splits db)) ∧
       length (filed_under dates d0 k mergers)
       = length (retained_at dates assets d0 dl k
                   (price_requested adjustment_type && include_mergers)
                   (db_mergers db)) ∧
       length (filed_under dates d0 k dividends)
       = length (retained_at dates assets d0 dl k
                   (price_requested adjustment_type && include_dividends)
                   (db_dividends db))) ∧
    assemble dates assets d0 (price_requested adjustment_type)
      (volume_requested adjustment_type) splits mergers dividends
    = Returns result.
Proof.
  intros Hload.
  destruct (load_valid _ _ _ _ _ _ _ _ _ Hload)
    as (Hvalid & d0 & dl & Hhead & Hlast & Hd0 & Hdl).
  rewrite (load_unfold _ _ _ _ _ _ _ _ d0 dl) in Hload by done.
  cbn zeta in Hload.
  apply bind_Returns in Hload as (splits & Hsplits & Hload).
  apply bind_Returns in Hload as (mergers & Hmergers & Hload).
  apply bind_Returns in Hload as (dividends & Hdividends & Hload).
  exists d0, dl, splits, mergers, dividends.
  split; [done|]. split; [done|].
  split; [exact (fetched_iff _ _ Splits _ _ _ _ _ Hsplits)|].
  split; [exact (fetched_iff _ _ Mergers _ _ _ _ _ Hmergers)|].
  split; [exact (fetched_iff _ _ Dividends _ _ _ _ _ Hdividends)|].
  split; [|done].
  intros Hnodup k.
  split; [exact (fetched_retained _ _ Splits _ _ _ _ _ _ _ Hnodup Hsplits)|].
  split; [exact (fetched_retained _ _ Mergers _ _ _ _ _ _ _ Hnodup Hmergers)|].
  exact (fetched_retained _ _ Dividends _ _ _ _ _ _ _ Hnodup Hdividends).
Qed.

(** What the two loops of the assembly file for the records they are given. *)
Lemma assemble_contributions dates assets start_date p v
    splits mergers dividends result :
  assemble dates assets start_date p v splits mergers dividends = Returns result →
  (∀ r, r ∈ splits ++ mergers ++ dividends → start_date ≤ effective_date r →
        get_loc assets (sid r) = Returns (column assets (sid r))) ∧
  (p = true →
   ∃ pm, result !! "price" = Some pm ∧
     (∀ r, r ∈ splits ++ mergers ++ dividends → start_date ≤ effective_date r →
        ∃ l, pm !! date_row dates (effective_date r) = Some l ∧
             price_correction dates assets r ∈ l) ∧
     (∀ k, length (default [] (pm !! k))
           = length (filed_under dates start_date k (splits ++ mergers ++ dividends)))) ∧
  (v = true →
   ∃ vm, result !! "volume" = Some vm ∧
     (∀ r, r ∈ splits → start_date ≤ effective_date r →
        ∃ l, vm !! date_row dates (effective_date r) = Some l ∧
             volume_correction dates assets r ∈ l) ∧
     (∀ k, length (default [] (vm !! k))
           = length (filed_under dates start_date k splits)) ∧
     (∀ k l adj, vm !! k = Some l → adj ∈ l →
        ∃ r, r ∈ splits ∧ start_date ≤ effective_date r ∧
             date_row dates (effective_date r) = k ∧
             adj = volume_correction dates assets r)).
Proof.
  intros Hasm.
  destruct (result_has_keys _ _ _ _ _ _ _ _ _ Hasm) as [Hhas_price Hhas_volume].
  apply assemble_buckets in Hasm as (Hlocs & Hprice & Hvolume).
  split; [exact Hlocs|]. split.
  - intros [pm Hpm]%Hhas_price. exists pm. split; [done|]. split.
    + intros r Hr Hkeep. rewrite (Hprice pm _ Hpm). eexists. split.
      * apply bucket_elem with (x := price_correction dates assets r).
        apply list_elem_of_fmap. exists r. split; [done|].
        by apply list_elem_of_filter.
      * apply list_elem_of_fmap. exists r. split; [done|].
        by apply list_elem_of_filter.
    + intros k. by rewrite (Hprice pm k Hpm), bucket_default, length_fmap.
  - intros [vm Hvm]%Hhas_volume. exists vm. split; [done|]. split; [|split].
    + intros r Hr Hkeep. rewrite (Hvolume vm _ Hvm). eexists. split.
      * apply bucket_elem with (x := volume_correction dates assets r).
        apply list_elem_of_fmap. exists r. split; [done|].
        by apply list_elem_of_filter.
      * apply list_elem_of_fmap. exists r. split; [done|].
        by apply list_elem_of_filter.
    + intros k. by rewrite (Hvolume vm k Hvm), bucket_default, length_fmap.
    + intros k l adj Hk Hadj.
      rewrite (Hvolume vm k Hvm) in Hk. apply bucket_Some in Hk as [-> _].
      apply list_elem_of_fmap in Hadj as (r & -> & [[Hkeep Hrow] Hr]%list_elem_of_filter).
      exists r. done.
Qed.

(** Where a correction of a returned schedule comes from: a fetched record
    that the loops kept, whose row is the key and whose column [get_loc]
    returned. *)
Lemma load_correction_origin limit db dates assets
    (include_splits include_mergers include_dividends : bool)
    adjustment_type result name sched k l adj :
  load_adjustments_from_sqlite limit db dates assets
    include_splits include_mergers include_dividends adjustment_type
  = Returns result →
  result !! name = Some sched → sched !! k = Some l → adj ∈ l →
  ∃ r, r ∈ db_splits db ++ db_mergers db ++ db_dividends db ∧
       sid r ∈ assets ∧
       date_row dates (effective_date r) = k ∧
       get_loc assets (sid r) = Returns (column assets (sid r)) ∧
       (adj = price_correction dates assets r
        ∨ adj = volume_correction dates assets r).
Proof.
  intros Hload Hname Hk Hadj.
  destruct (load_Returns_fetch _ _ _ _ _ _ _ _ _ Hload)
    as (d0 & dl & splits & mergers & dividends & _ & _ & Hs & Hm & Hd & _ & Hasm).
  assert (∀ r, r ∈ splits ++ mergers ++ dividends →
            r ∈ db_splits db ++ db_mergers db ++ db_dividends db
            ∧ sid r ∈ assets) as Hstore.
  { intros r. rewrite !elem_of_app, Hs, Hm, Hd. tauto. }
  destruct (result_keys _ _ _ _ _ _ _ _ _ _ _ Hasm Hname) as [[-> _]|[-> _]];
    apply assemble_buckets in Hasm as (Hlocs & Hprice & Hvolume).
  - rewrite (Hprice sched k Hname) in Hk. apply bucket_Some in Hk as [-> _].
    apply list_elem_of_fmap in Hadj
      as (r & -> & [[Hkeep Hrow] Hr]%list_elem_of_filter).
    exists r. destruct (Hstore r Hr) as [Hdb Hsid].
    split; [done|]. split; [done|]. split; [done|].
    split; [by apply Hlocs|by left].
  - rewrite (Hvolume sched k Hname) in Hk. apply bucket_Some in Hk as [-> _].
    apply list_elem_of_fmap in Hadj
      as (r & -> & [[Hkeep Hrow] Hr]%list_elem_of_filter).
    assert (r ∈ splits ++ mergers ++ dividends) as Hall
      by (apply elem_of_app; by left).
    exists r. destruct (Hstore r Hall) as [Hdb Hsid].
    split; [done|]. split; [done|]. split; [done|].
    split; [by apply Hlocs|by right].
Qed.

(** C3, as the code has it. Every correction of a schedule that the load
    returns stems from a stored record whose sid is on the asset axis and
    whose effective date has the scheduled row. The correction covers the
    rows from 0 up to and including that row, in one column: the column that
    [get_loc] returns for the record's sid, at which the asset axis holds
    that sid. It is a single cell only when the scheduled row is 0. *)
Theorem correction_region limit db dates assets
    (include_splits include_mergers include_dividends : bool)
    adjustment_type result name sched k l adj :
  load_adjustments_from_sqlite limit db dates assets
    include_splits include_mergers include_dividends adjustment_type
  = Returns result →
  result !! name = Some sched → sched !! k = Some l → adj ∈ l →
  (∃ r, r ∈ db_splits db ++ db_mergers db ++ db_dividends db ∧
        sid r ∈ assets ∧
        date_row dates (effective_date r) = k ∧
        get_loc assets (sid r) = Returns (first_col adj) ∧
        assets !! Z.to_nat (first_col adj) = Some (sid r)) ∧
  first_row adj = 0 ∧ last_row adj = k ∧
  last_col adj = first_col adj ∧
  0 ≤ first_col adj < Z.of_nat (length assets) ∧
  (first_row adj = last_row adj ↔ k = 0).
Proof.
  intros Hload Hname Hk Hadj.
  destruct (load_correction_origin _ _ _ _ _ _ _ _ _ _ _ _ _ _ Hload Hname Hk Hadj)
    as (r & Hr & Hsid & Hrow & Hloc & Hshape).
  destruct (get_loc_Returns _ _ _ Hloc) as [Hbound Hcol].
  assert (first_row adj = 0 ∧ last_row adj = k
          ∧ first_col adj = column assets (sid r)
          ∧ last_col adj = column assets (sid r)) as (Hfirst & Hlast & Hc1 & Hc2).
  { destruct Hshape as [-> | ->]; simpl; by rewrite Hrow. }
  rewrite Hfirst, Hlast, Hc1, Hc2.
  split; [by exists r|]. split; [done|]. split; [done|]. split; [done|].
  split; [done|]. split; intros; congruence.
Qed.

Lemma correction_region_witness :
  (∃ r, r ∈ db_splits scenario_db ++ db_mergers scenario_db
            ++ db_dividends scenario_db ∧
        sid r ∈ scenario_assets ∧
        date_row scenario_dates (effective_date r) = 1 ∧
        get_loc scenario_assets (sid r) = Returns 0 ∧
        scenario_assets !! Z.to_nat 0 = Some (sid r)) ∧
  first_row (mkFloat64Multiply 0 1 0 0 2%float) = 0 ∧
  last_row (mkFloat64Multiply 0 1 0 0 2%float) = 1 ∧
  last_col (mkFloat64Multiply 0 1 0 0 2%float) = 0 ∧
  0 ≤ 0 < Z.of_nat (length scenario_assets) ∧
  (first_row (mkFloat64Multiply 0 1 0 0 2%float)
   = last_row (mkFloat64Multiply 0 1 0 0 2%float) ↔ 1 = 0).
Proof.
  apply (correction_region 999 scenario_db scenario_dates scenario_assets
           true true true "all" scenario_result "price"
           {[ 1 := [mkFloat64Multiply 0 1 0 0 2%float] ]} 1
           [mkFloat64Multiply 0 1 0 0 2%float]
           (mkFloat64Multiply 0 1 0 0 2%float)).
  - reflexivity.
  - reflexivity.
  - reflexivity.
  - by left.
Defined.

(** C4. What a load that returns has appended, record by record. With [d0]
    and [dl] the ends of the date axis, a record is retained when its table
    is switched on, its sid is on the asset axis and its effective date lies
    in [d0, dl]; its row is the row of its effective date and its column the
    one [get_loc] returns for its sid.
    - For a retained split record with ratio r, the price schedule, when
      requested, lists under the record's row a correction of rows 0 to that
      row in the record's column with value r, and the volume schedule, when
      requested, lists under the same row a correction of the same rows and
      column with value 1/r.
    - For a retained merger or dividend record with ratio r, the price
      schedule, when requested, lists under the record's row a correction of
      the same shape with value r.
    - Every correction of the volume schedule is the volume correction of a
      retained split record.
    - On an asset axis without repetition, a row of the volume schedule lists
      as many corrections as there are retained split records of that row,
      and a row of the price schedule as many as there are retained records
      of that row in the three tables: a merger or dividend adds nothing to
      the volume schedule. *)
Theorem record_contributions limit db dates assets
    (include_splits include_mergers include_dividends : bool)
    adjustment_type result :
  load_adjustments_from_sqlite limit db dates assets
    include_splits include_mergers include_dividends adjustment_type
  = Returns result →
  ∃ d0 dl,
    head dates = Some d0 ∧ last dates = Some dl ∧
    (∀ r, include_splits = true → r ∈ db_splits db →
          sid r ∈ assets → in_range d0 dl r →
       get_loc assets (sid r) = Returns (column assets (sid r)) ∧
       (price_requested adjustment_type = true →
        ∃ pm l, result !! "price" = Some pm ∧
                pm !! date_row dates (effective_date r) = Some l ∧
                mkFloat64Multiply 0 (date_row dates (effective_date r))
                  (column assets (sid r)) (column assets (sid r)) (ratio r) ∈ l) ∧
       (volume_requested adjustment_type = true →
        ∃ vm l, result !! "volume" = Some vm ∧
                vm !! date_row dates (effective_date r) = Some l ∧
                mkFloat64Multiply 0 (date_row dates (effective_date r))
                  (column assets (sid r)) (column assets (sid r))
                  (1 / ratio r)%float ∈ l)) ∧
    (∀ r, (include_mergers = true ∧ r ∈ db_mergers db)
          ∨ (include_dividends = true ∧ r ∈ db_dividends db) →
          price_requested adjustment_type = true →
          sid r ∈ assets → in_range d0 dl r →
       get_loc assets (sid r) = Returns (column assets (sid r)) ∧
       ∃ pm l, result !! "price" = Some pm ∧
               pm !! date_row dates (effective_date r) = Some l ∧
               mkFloat64Multiply 0 (date_row dates (effective_date r))
                 (column assets (sid r)) (column assets (sid r)) (ratio r) ∈ l) ∧
    (∀ vm k l adj,
       result !! "volume" = Some vm → vm !! k = Some l → adj ∈ l →
       ∃ r, include_splits = true ∧ r ∈ db_splits db ∧
            sid r ∈ assets ∧ in_range d0 dl r ∧
            date_row dates (effective_date r) = k ∧
            adj = mkFloat64Multiply 0 k (column assets (sid r))
                    (column assets (sid r)) (1 / ratio r)%float) ∧
    (NoDup assets →
     (∀ vm k, result !! "volume" = Some vm →
        length (default [] (vm !! k))
        = length (retained_at dates assets d0 dl k include_splits (db_splits db))) ∧
     (∀ pm k, result !! "price" = Some pm →
        length (default [] (pm !! k))
        = (length (retained_at dates assets d0 dl k include_splits (db_splits db))
           + length (retained_at dates assets d0 dl k include_mergers (db_mergers db))
           + length (retained_at dates assets d0 dl k include_dividends
                       (db_dividends db)))%nat)).
Proof.
  intros Hload.
  destruct (load_Returns_fetch _ _ _ _ _ _ _ _ _ Hload)
    as (d0 & dl & splits & mergers & dividends
        & Hhead & Hlast & Hs & Hm & Hd & Hcount & Hasm).
  pose proof (λ name sched, result_keys _ _ _ _ _ _ _ _ _ name sched Hasm) as Hkeys.
  destruct (assemble_contributions _ _ _ _ _ _ _ _ _ Hasm)
    as (Hlocs & Hprice & Hvolume).
  exists d0, dl. split; [done|]. split; [done|].
  split; [|split; [|split; [|intros Hnodup; split]]].
  - intros r Hinclude Hr Hsid Hrange.
    assert (r ∈ splits) as Hfetched by (apply Hs; tauto).
    assert (r ∈ splits ++ mergers ++ dividends) as Hall
      by (apply elem_of_app; by left).
    destruct Hrange as [Hkeep _].
    split; [by apply Hlocs|]. split.
    + intros (pm & Hpm & Hin & _)%Hprice.
      destruct (Hin r Hall Hkeep) as (l & Hl & Hadj). by exists pm, l.
    + intros (vm & Hvm & Hin & _)%Hvolume.
      destruct (Hin r Hfetched Hkeep) as (l & Hl & Hadj). by exists vm, l.
  - intros r Hsource Hp Hsid Hrange.
    assert (r ∈ splits ++ mergers ++ dividends) as Hall.
    { rewrite !elem_of_app, Hm, Hd, Hp.
      destruct Hsource as [[-> Hr]|[-> Hr]]; simpl; tauto. }
    destruct Hrange as [Hkeep _].
    split; [by apply Hlocs|].
    destruct (Hprice Hp) as (pm & Hpm & Hin & _).
    destruct (Hin r Hall Hkeep) as (l & Hl & Hadj). by exists pm, l.
  - intros vm k l adj Hvm Hk Hadj.
    destruct (Hkeys _ _ Hvm) as [[[=] _]|[_ Hv]].
    destruct (Hvolume Hv) as (vm' & Hvm' & _ & _ & Horigin).
    rewrite Hvm in Hvm'. injection Hvm' as <-.
    destruct (Horigin k l adj Hk Hadj) as (r & Hr & _ & Hrow & ->).
    apply Hs in Hr as (Hinclude & Hr & Hsid & Hrange).
    exists r. unfold volume_correction. by rewrite Hrow.
  - intros vm k Hvm.
    destruct (Hkeys _ _ Hvm) as [[[=] _]|[_ Hv]].
    destruct (Hvolume Hv) as (vm' & Hvm' & _ & Hlength & _).
    rewrite Hvm in Hvm'. injection Hvm' as <-.
    rewrite Hlength. by destruct (Hcount Hnodup k) as (-> & _).
  - intros pm k Hpm.
    destruct (Hkeys _ _ Hpm) as [[_ Hp]|[[=] _]].
    destruct (Hprice Hp) as (pm' & Hpm' & _ & Hlength).
    rewrite Hpm in Hpm'. injection Hpm' as <-.
    rewrite Hlength. unfold filed_under. rewrite !filter_app, !length_app.
    fold (filed_under dates d0 k splits) (filed_under dates d0 k mergers)
         (filed_under dates d0 k dividends).
    destruct (Hcount Hnodup k) as (-> & -> & ->). rewrite Hp. simpl. lia.
Qed.

Lemma record_contributions_witness :
  ∃ pm vm,
    scenario_result !! "price" = Some pm ∧
    scenario_result !! "volume" = Some vm ∧
    mkFloat64Multiply 0 1 0 0 2%float ∈ default [] (pm !! 1) ∧
    mkFloat64Multiply 0 1 0 0 0.5%float ∈ default [] (vm !! 1) ∧
    length (default [] (vm !! 1)) = 1%nat ∧
    length (default [] (pm !! 1)) = 1%nat.
Proof.
  destruct (record_contributions 999 scenario_db scenario_dates scenario_assets
              true true true "all" scenario_result eq_refl)
    as (d0 & dl & Hhead & Hlast & Hsplit & _ & _ & Hcount).
  injection Hhead as <-. injection Hlast as <-.
  destruct (Hsplit (AdjustmentRow 101 2%float 86400) eq_refl)
    as (_ & Hprice & Hvolume).
  { by left. }
  { by left. }
  { split; simpl; lia. }
  destruct (Hprice eq_refl) as (pm & lp & Hpm & Hlp & Hadj_p).
  destruct (Hvolume eq_refl) as (vm & lv & Hvm & Hlv & Hadj_v).
  destruct Hcount as [Hcount_v Hcount_p].
  { by apply (bool_decide_unpack _). }
  exists pm, vm. split; [exact Hpm|]. split; [exact Hvm|].
  change (date_row scenario_dates
            (effective_date (AdjustmentRow 101 2%float 86400))) with 1 in Hlp, Hlv.
  rewrite Hlp, Hlv in *. split; [exact Hadj_p|]. split; [exact Hadj_v|].
  split.
  - pose proof (Hcount_v vm 1 Hvm) as Hlen. rewrite Hlv in Hlen. exact Hlen.
  - pose proof (Hcount_p pm 1 Hpm) as Hlen. rewrite Hlp in Hlen. exact Hlen.
Defined.
